(** * Shadow geometry, shadow filters and differential matching

    A shallow embedding of the parts of
    - [eratosthenes/preprocessing/shadow_geometry.py],
    - [dhdt/preprocessing/shadow_filters.py] and
    - [eratosthenes/processing/matching_tools_differential.py]
    that decide the properties stated about them, followed by the
    theorems themselves.

    Conventions.  Python integers are [Z]; numpy integer arrays are
    [list Z], boolean arrays [list bool], two-dimensional arrays lists of
    rows.  Floating-point quantities that only flow through the program
    (bin edges, slopes, residuals, geotransform terms) are rationals [Q];
    where the program calls into numpy, scipy, skimage, shapely or
    rasterio, or into modules of the repository that are not part of the
    sources at hand, the callee is a method of a type class, and the
    embedding is parametric in its instance.  A Python exception is a
    value of [exn]; a computation that may raise returns [result].
    A call that need not return has an [outcome], and a loop that need
    not end takes a bound on the number of its turns. *)

From Stdlib Require Import ZArith QArith Qround Qabs Qminmax Lia Lqa Bool.
From stdpp Require Import base list strings gmap.

Local Open Scope Z_scope.

(** ** Exceptions and results *)

Inductive exn : Type :=
  | UnboundLocalError   (* a local name read before any assignment *)
  | IndexError          (* index or boolean mask out of bounds *)
  | ValueError (msg : string)  (* carries the interpreter's message *)
  | TypeError           (* e.g. item assignment on a tuple *)
  | AssertionError (msg : string)  (* a failed [assert] *)
  | LinAlgError         (* [numpy.linalg.inv] of a singular matrix *)
  | ZeroDivisionError   (* [/] of Python numbers with divisor zero *)
  | TopologicalError.   (* shapely, on a self-intersecting polygon *)

Inductive result (A : Type) : Type :=
  | Ok (a : A)
  | Raise (e : exn).
Arguments Ok {A} a.
Arguments Raise {A} e.

(** Sequencing: the first exception raised is the outcome.  With these
    instances [x ← r; k] is stdpp's notation for the bind. *)
#[global] Instance result_ret : MRet result := fun A a => Ok a.
#[global] Instance result_bind : MBind result := fun A B k r =>
  match r with
  | Ok a => k a
  | Raise e => Raise e
  end.

(** ** numpy and Python primitives on lists *)

Module Np.

(** Normalisation of one bound of a Python slice on a sequence of
    length [n]: negative bounds count from the end, and everything is
    clamped to [0, n]. *)
Definition slice_bound (n i : Z) : Z :=
  if i <? 0 then Z.max (i + n) 0 else Z.min i n.

(** [l[start:stop]] *)
Definition slice {A} (start stop : Z) (l : list A) : list A :=
  let n := Z.of_nat (length l) in
  let a := slice_bound n start in
  let b := slice_bound n stop in
  take (Z.to_nat (b - a)) (drop (Z.to_nat a) l).

(** [np.roll(l, s)]: element [j] of the result is element
    [(j - s) mod n] of [l]. *)
Definition roll {A} (s : Z) (l : list A) : list A :=
  let n := Z.of_nat (length l) in
  if n =? 0 then l
  else let r := Z.to_nat (n - s mod n) in drop r l ++ take r l.

(** [np.sign(b - a) == +1] elementwise on two rows *)
Definition rises (a b : list Z) : list bool := zip_with Z.ltb a b.

(** elementwise conjunction of two boolean rows *)
Definition and_rows (a b : list bool) : list bool := zip_with andb a b.

(** [np.all(rows, axis=0)] for a matrix with columns [0 .. n-1];
    the conjunction over no rows is [True] in every column. *)
Definition all_axis0 (n : nat) (rows : list (list bool)) : list bool :=
  foldr and_rows (replicate n true) rows.

(** [np.sign(np.diff(rows, n=1, axis=0)) == +1]: row [i] of the
    result compares rows [i] and [i+1]. *)
Fixpoint diff_rises (rows : list (list Z)) : list (list bool) :=
  match rows with
  | r0 :: ((r1 :: _) as rest) => rises r0 r1 :: diff_rises rest
  | _ => []
  end.

(** [idx[selec]] with a boolean mask: the lengths must agree, except
    that a mask without entries is taken on an array of any length and
    selects nothing. *)
Fixpoint mask_select {A} (idx : list A) (selec : list bool) : list A :=
  match idx, selec with
  | x :: idx', b :: selec' =>
      if b then x :: mask_select idx' selec' else mask_select idx' selec'
  | _, _ => []
  end.

Definition bool_index {A} (idx : list A) (selec : list bool)
  : result (list A) :=
  if Nat.eqb (length selec) 0 then Ok []
  else if Nat.eqb (length idx) (length selec)
  then Ok (mask_select idx selec)
  else Raise IndexError.

(** [np.arange(start, stop, step=1)] on integers *)
Definition arange (start stop : Z) : list Z :=
  map (fun k : nat => start + Z.of_nat k) (seq 0 (Z.to_nat (stop - start))).

(** [np.round]: to the nearest integer, halves to the even neighbour *)
Definition round (q : Q) : Z :=
  let f := Qfloor q in
  match Qcompare (q - inject_Z f)%Q (1 # 2)%Q with
  | Lt => f
  | Gt => f + 1
  | Eq => if Z.even f then f else f + 1
  end.

(** [np.sign] *)
Definition sign (q : Q) : Z := Z.sgn (Qnum q).

(** [a[i, j]] for indices known to be in range; [d] stands for the
    value that is never read. *)
Definition at2 {A} (d : A) (a : list (list A)) (i j : Z) : A :=
  nth (Z.to_nat j) (nth (Z.to_nat i) a []) d.

(** [a[i][j]] for non-negative indices; [None] stands for the
    [IndexError] of an index past the end. *)
Definition get2 {A} (a : list (list A)) (i j : Z) : option A :=
  if (i <? 0) || (j <? 0) then None
  else row ← a !! Z.to_nat i; row !! Z.to_nat j.

(** [a[i][j] = v] for non-negative indices in range *)
Definition set2 {A} (a : list (list A)) (i j : Z) (v : A)
  : list (list A) :=
  alter (fun row => <[Z.to_nat j := v]> row) (Z.to_nat i) a.

(** [a[i0:i1, j0:j1]] *)
Definition slice2 {A} (i0 i1 j0 j1 : Z) (a : list (list A))
  : list (list A) :=
  map (slice j0 j1) (slice i0 i1 a).

(** [a.shape] of a two-dimensional array held as a list of rows *)
Definition shape2 {A} (a : list (list A)) : Z * Z :=
  (Z.of_nat (length a), Z.of_nat (length (hd [] a))).

Definition zeros2 (m n : Z) : list (list Z) :=
  replicate (Z.to_nat m) (replicate (Z.to_nat n) 0).

(** [np.nonzero(a)] of a boolean matrix: the index pairs of the
    [True] cells in row-major order. *)
Definition nonzero_row (i : Z) (row : list bool) : list (Z * Z) :=
  omap (fun '(j, b) => if b : bool then Some (i, Z.of_nat j) else None)
       (imap (fun j b => (j, b)) row).

Definition nonzero2 (a : list (list bool)) : list (Z * Z) :=
  concat (imap (fun i row => nonzero_row (Z.of_nat i) row) a).

(** An index [i] addresses an axis of size [n] when [-n <= i < n];
    negative indices count from the end. *)
Definition valid_index (n i : Z) : bool := (- n <=? i) && (i <? n).

Definition wrap_index (n i : Z) : Z := if i <? 0 then i + n else i.

(** [a[rr, cc] = 1] with index arrays: every pair is checked first,
    and one index out of bounds raises [IndexError]. *)
Definition put_ones (m n : Z) (a : list (list Z)) (pts : list (Z * Z))
  : result (list (list Z)) :=
  if forallb (fun '(r, c) => valid_index m r && valid_index n c) pts
  then Ok (fold_left (fun a '(r, c) =>
                        set2 a (wrap_index m r) (wrap_index n c) 1) pts a)
  else Raise IndexError.

(** [np.where(mask)] of a boolean vector: the positions of its [True]
    entries, in increasing order *)
Fixpoint nonzero_from (i : nat) (mask : list bool) : list nat :=
  match mask with
  | [] => []
  | b :: mask' =>
      if b then i :: nonzero_from (S i) mask' else nonzero_from (S i) mask'
  end.

Definition nonzero (mask : list bool) : list nat := nonzero_from 0 mask.

(** [np.amin] of a non-empty integer vector *)
Definition amin (l : list Z) : Z :=
  match l with
  | [] => 0
  | x :: l' => fold_left Z.min l' x
  end.

(** [np.unique]: the sorted distinct values *)
Fixpoint insert_sorted (x : Z) (l : list Z) : list Z :=
  match l with
  | [] => [x]
  | y :: l' => if x <? y then x :: l
               else if x =? y then l else y :: insert_sorted x l'
  end.

Definition unique (l : list Z) : list Z := foldr insert_sorted [] l.

(** Conversion to [np.int16]: two's-complement wrap-around. *)
Definition int16 (z : Z) : Z := (z + 32768) mod 65536 - 32768.

End Np.

(** ** [shadow_geometry.findValley] *)

(** The rows [np.roll(values, +(i+1))] (for [sgn = 1]) or
    [np.roll(values, -(i+1))] (for [sgn = -1]), [i = 0 .. neighbors-1],
    stacked by the loop of [findValley]. *)
Definition wall (sgn : Z) (values : list Z) (neighbors : nat)
  : list (list Z) :=
  map (fun i : nat => Np.roll (sgn * (Z.of_nat i + 1)) values)
      (seq 0 neighbors).

(** One row of [np.sign(np.diff(wall)) == +1]. *)
Definition wall_rise (sgn : Z) (values : list Z) (i : nat) : list bool :=
  Np.rises (Np.roll (sgn * (Z.of_nat i + 1)) values)
           (Np.roll (sgn * (Z.of_nat (S i) + 1)) values).

Definition concav (sgn : Z) (values : list Z) (neighbors : nat)
  : list bool :=
  Np.all_axis0 (length values) (Np.diff_rises (wall sgn values neighbors)).

(** The histogram read cyclically, as [np.roll] presents it. *)
Definition count_at (values : list Z) (t : Z) : Z :=
  nth (Z.to_nat (t mod Z.of_nat (length values))) values 0.

(** What [selec] holds for bin [j]: the [neighbors] counts to its left
    descend towards it and the [neighbors] counts to its right ascend
    away from it, all read cyclically.  The count of bin [j] itself
    takes no part. *)
Definition walls_descend (values : list Z) (neighbors : nat) (j : nat)
  : bool :=
  forallb (fun i : nat =>
             (count_at values (Z.of_nat j - Z.of_nat i - 1)
                <? count_at values (Z.of_nat j - Z.of_nat i - 2))
             && (count_at values (Z.of_nat j + Z.of_nat i + 1)
                   <? count_at values (Z.of_nat j + Z.of_nat i + 2)))
          (seq 0 (neighbors - 1)).

(** [findValley(values, base, neighbors)].  With [neighbors <= 1] the
    names [concavP] and [concavM] are never bound, and the statement
    that reads them raises. *)
Definition findValley {A} (values : list Z) (base : list A) (neighbors : Z)
  : result (list A) :=
  if neighbors >? 1 then
    let k := Z.to_nat neighbors in
    let concavP := concav 1 values k in
    let concavM := concav (-1) values k in
    let selec := Np.and_rows concavP concavM in
    let selec := Np.slice (neighbors - 1) (- (neighbors + 1)) selec in
    let idx := Np.slice (neighbors - 1) (- (neighbors + 2)) base in
    Np.bool_index idx selec
  else Raise UnboundLocalError.

(** ** [shadow_geometry.sturge] and [shadow_geometry.getShadowPolygon] *)

Definition Qltb (x y : Q) : bool := negb (Qle_bool y x).

(** The exception by which the labeler reports that no threshold was
    found: the [ValueError] of the built-in [max] on an empty sequence. *)
Definition ThresholdNotFound : exn :=
  ValueError "max() arg is an empty sequence".

(** The built-in [max] of Python on a sequence of numbers: the first
    largest element, and [ValueError] on an empty sequence. *)
Definition py_max (l : list Q) : result Q :=
  match l with
  | [] => Raise ThresholdNotFound
  | x :: l' => Ok (fold_left (fun acc y => if Qltb acc y then y else acc) l' x)
  end.

(** What the shadow labeler calls outside the repository. *)
Class Segmentation := {
  (** [np.histogram(data, bins=b)]: counts and the [b+1] bin edges *)
  histogram : list Q -> Z -> list Z * list Q;
  (** [np.int(np.ceil(1.6 * (math.log2(mn) + 1)))] for [mn > 0] *)
  sturges_bins : Q -> Z;
  (** [skimage.measure.label(mask, background=0)] *)
  measure_label : list (list bool) -> list (list Z);
  (** [skimage.segmentation.slic(M, sigma=1, n_segments=mn,
      compactness=0.010)] *)
  slic : list (list Q) -> Q -> list (list Z);
  (** [skimage.color.label2rgb(SupPix, M, kind='avg')] *)
  label2rgb_avg : list (list Z) -> list (list Q) -> list (list Q)
}.

Section ShadowLabeler.
Context `{Segmentation}.

(** [1.6 * (math.log2(mn) + 1)], rounded up; [math.log2] raises on a
    non-positive argument. *)
Definition sturges (mn : Q) : result Z :=
  if Qle_bool mn 0 then Raise (ValueError "math domain error")
  else Ok (sturges_bins mn).

(** [sturge(M)] *)
Definition sturge (M : list (list Q)) : result (list (list Z)) :=
  let mn := inject_Z (Z.of_nat (length (concat M))) in
  bins ← sturges mn;
  let '(values, base) := histogram (concat M) bins in
  dips ← findValley values base 2;
  val ← py_max dips;
  let imSeparation := map (map (fun x => Qltb val x)) M in
  Ok (measure_label imSeparation).

(** [np.nanprod(M.shape)] of an [m x n] array *)
Definition shape_prod (M : list (list Q)) : Z :=
  Z.of_nat (length M) * Z.of_nat (length (hd [] M)).

(** [getShadowPolygon(M, sizPix, thres)]; [thres] is not used by the
    body.  [sizPix] is taken non-zero. *)
Definition getShadowPolygon (M : list (list Q)) (sizPix : Q) (thres : Q)
  : result (list (list Z) * list (list Z)) :=
  let mn := inject_Z (Qceiling (inject_Z (shape_prod M) / sizPix)%Q) in
  let SupPix := slic M mn in
  let meanIm := label2rgb_avg SupPix M in
  bins ← sturges mn;
  let '(values, base) := histogram (concat meanIm) bins in
  dips ← findValley values base 2;
  val ← py_max dips;
  let imSeparation := map (map (fun x => Qltb val x)) meanIm in
  let labels := measure_label imSeparation in
  let labels := map (map Np.int16) labels in
  Ok (labels, SupPix).

End ShadowLabeler.

(** ** [shadow_geometry.labelOccluderAndCasted] *)

(** [math.cos(math.radians(a))] and [math.sin(math.radians(a))]. *)
Class Trig := {
  cos_deg : Q -> Q;
  sin_deg : Q -> Q
}.

(** Image operations the two pairers take from elsewhere:
    [scipy.ndimage.binary_erosion] with its default cross-shaped
    structuring element and with a full 3x3 one, and
    [generic.mapping_tools.castOrientation] of the repository. *)
Class Morphology := {
  binary_erosion : list (list bool) -> list (list bool);
  binary_erosion_3x3 : list (list bool) -> list (list bool);
  castOrientation : list (list Q) -> list (list Q) -> list (list Q)
}.

Section RidgeCastPairer.
Context `{Trig} `{Morphology}.

(** The discretised cast line of one ridge pixel, as the index
    vectors [(rr, cc)] zipped (lines 194-213). *)
Definition cast_line (m n ridgeI ridgeJ : Z) (sunDir : Q)
  : list (Z * Z) :=
  let dI := (- cos_deg sunDir)%Q in
  let dJ := (- sin_deg sunDir)%Q in
  if Qltb 90 (Qabs sunDir) then
    if Qltb dJ dI then
      let rr := Np.arange 0 ridgeI in
      let cc := map (fun c => c + ridgeJ)
                    (rev (map (fun r => Np.round (inject_Z r * dJ)%Q) rr)) in
      zip rr cc
    else
      let cc := Np.arange 0 ridgeJ in
      let rr := map (fun r => r + ridgeI)
                    (rev (map (fun c => Np.round (inject_Z c * dI)%Q) cc)) in
      zip rr cc
  else
    if Qltb dJ dI then
      let rr := Np.arange ridgeI m in
      let cc := map (fun r => Np.round (inject_Z r * dJ)%Q + ridgeJ) rr in
      zip rr cc
    else
      let cc := Np.arange ridgeJ n in
      let rr := map (fun c => Np.round (inject_Z c * dI)%Q + ridgeI) cc in
      zip rr cc.

(** The filter [IN] of line 216. *)
Definition inside (m n : Z) (p : Z * Z) : bool :=
  let '(r, c) := p in
  (0 <=? c) && (c <=? n) && (0 <=? r) && (r <=? m).

(** Squared pixel distance to the ridge pixel.  The program compares
    [np.sqrt] of these integers; the square root is monotone and, on
    integers of this size, injective in double precision, so equality
    with the minimum and the minimum itself are decided on the
    squares. *)
Definition sqdist (ridgeI ridgeJ : Z) (p : Z * Z) : Z :=
  (p.1 - ridgeI) ^ 2 + (p.2 - ridgeJ) ^ 2.

(** Lines 233-239: with more than one hit, keep those at minimal
    distance, in the order they had. *)
Definition closest (ridgeI ridgeJ : Z) (hits : list (Z * Z))
  : list (Z * Z) :=
  if (1 <? Z.of_nat (length hits)) then
    let dist := map (sqdist ridgeI ridgeJ) hits in
    filter (fun p => sqdist ridgeI ridgeJ p = Np.amin dist) hits
  else hits.

(** Lines 227-230: the receiver pixels on the rasterised line, in the
    scan order of [subWhe]. *)
Definition cast_hits (subOrient : list (list Z)) (subCast : list (list Z))
    (subWhe : list (Z * Z)) : list (Z * Z) :=
  filter (fun p => (Np.at2 0 subOrient p.1 p.2 = -1)
                   ∧ (Np.at2 0 subCast p.1 p.2 = 1)) subWhe.

(** One turn of the loop over the occluders (lines 190-246) for the
    ridge pixel number [x] at [(ridgeI, ridgeJ)] of the sub-image. *)
Definition cast_pixel (subOrient : list (list Z)) (subAz : list (list Q))
    (subWhe : list (Z * Z)) (m n labImin labJmin : Z)
    (shadowIdx : list (list Z)) (x : Z) (ridge : Z * Z)
  : list (list Z) :=
  let '(ridgeI, ridgeJ) := ridge in
  let sunDir := Np.at2 0%Q subAz ridgeI ridgeJ in
  let line := filter (fun p => inside m n p = true)
                     (cast_line m n ridgeI ridgeJ sunDir) in
  match line with
  | [] => shadowIdx                        (* [IN.any()] is false *)
  | _ :: _ =>
      match Np.put_ones m n (Np.zeros2 m n) line with
      | Raise _ => shadowIdx               (* [except IndexError: continue] *)
      | Ok subCast =>
          match closest ridgeI ridgeJ (cast_hits subOrient subCast subWhe) with
          | [] => shadowIdx
          | (castI, castJ) :: _ =>
              let shadowIdx :=
                Np.set2 shadowIdx (ridgeI + labImin) (ridgeJ + labJmin)
                        (Np.int16 x) in
              Np.set2 shadowIdx (castI + labImin) (castJ + labJmin)
                      (Np.int16 (- x))
          end
      end
  end.

(** The part of the loop body that works on one labelled region once
    its sub-images are cut out (lines 172-246). *)
Definition cast_region (subMsk : list (list bool))
    (subOrient : list (list Z)) (subAz : list (list Q))
    (labImin labJmin : Z) (shadowIdx : list (list Z)) : list (list Z) :=
  let subWhe := Np.nonzero2 subMsk in
  let ridge := filter (fun p => Np.at2 0 subOrient p.1 p.2 = 1) subWhe in
  let '(m, n) := Np.shape2 subMsk in
  fold_left (fun sh xr => cast_pixel subOrient subAz subWhe m n
                                     labImin labJmin sh (Z.of_nat xr.1) xr.2)
            (imap (fun x r => (x, r)) ridge) shadowIdx.

(** [labelOccluderAndCasted(labeling, sunAz)] *)
Definition labelOccluderAndCasted (labeling : list (list Z))
    (sunAz : list (list Q)) : list (list Z) :=
  let msk := map (map (fun l => 1 <=? l)) labeling in
  let '(mL, nL) := Np.shape2 labeling in
  let shadowIdx := Np.zeros2 mL nL in
  let inner := binary_erosion msk in
  let bndOrient :=
    castOrientation (map (map (fun b : bool => if b then 1%Q else 0%Q)) inner)
                    sunAz in
  let labList := filter (fun l => l ≠ 0) (Np.unique (concat labeling)) in
  fold_left
    (fun shadowIdx i =>
       let selec := map (map (fun l => l =? i)) labeling in
       let labIdx := Np.nonzero2 selec in
       let labImin := Np.amin (map fst labIdx) in
       let labImax := foldr Z.max 0 (map fst labIdx) in
       let labJmin := Np.amin (map snd labIdx) in
       let labJmax := foldr Z.max 0 (map snd labIdx) in
       let subMsk := Np.slice2 labImin labImax labJmin labJmax selec in
       let subOrient :=
         map (map Np.sign)
             (Np.slice2 labImin labImax labJmin labJmax bndOrient) in
       let subBound :=
         zip_with (zip_with xorb) subMsk (binary_erosion subMsk) in
       let subOrient :=
         zip_with (zip_with (fun (o : Z) (b : bool) => if b then o else 0))
                  subOrient subBound in
       let subAz := Np.slice2 labImin labImax labJmin labJmax sunAz in
       cast_region subMsk subOrient subAz labImin labJmin shadowIdx)
    labList shadowIdx.

End RidgeCastPairer.

(** ** [shadow_geometry.listOccluderAndCasted] *)

(** The geometry types the intersection of a polygon with a line
    segment is told apart by (lines 317-333), each with the coordinate
    sequences it carries.  A geometry of any other type is announced by
    [print] and is not part of the embedding. *)
Inductive geometry : Type :=
  | LineString (coords : list (Q * Q))
  | MultiLineString (lines : list (list (Q * Q)))
  | GeometryCollection (members : list (list (Q * Q)))
  | Point (c : Q * Q).

(** [rasterio.features.shapes] together with [shapely.geometry.shape],
    and the two shapely operations used on the polygons.  By the
    contract of [shapes], stated as [shapes_masked], pixels where the
    mask is [False] are excluded from feature generation: every feature
    carries the value of a pixel the mask lets through. *)
Class Vectorizer (Polygon : Type) := {
  shapes : list (list Z) -> list (list bool) -> list (Polygon * Z);
  intersection : Polygon -> (Q * Q) * (Q * Q) -> result geometry;
  buffer0 : Polygon -> Polygon
}.

Definition shapes_masked `{Vectorizer Polygon} : Prop :=
  forall labels msk (shp : Polygon) val,
    In (shp, val) (shapes labels msk) ->
    exists i j, Np.get2 msk i j = Some true /\ Np.get2 labels i j = Some val.

(** One row of the output list. *)
Record CastPair : Type := mkCastPair {
  ridgeX : Q; ridgeY : Q; castX : Q; castY : Q; azimuth : Q; zenith : Q
}.

Section PolygonCastPairer.
Context `{Trig} `{Morphology} {Polygon : Type} `{!Vectorizer Polygon}.

(** Lines 317-335: the coordinates of the intersection as one flat
    list.  [del m, cEnd] follows each of the two loops; with no turn
    of the loop [m] was never bound and the [del] raises. *)
Definition flatten_geometry (g : geometry) : result (list (Q * Q)) :=
  match g with
  | LineString coords => Ok coords
  | MultiLineString [] | GeometryCollection [] => Raise UnboundLocalError
  | MultiLineString ls | GeometryCollection ls => Ok (concat ls)
  | Point _ => Ok []
  end.

(** Squared distance of a coordinate [(x, y)] to the occluder
    [Point(ridgeJ, ridgeI)], as a distance "or infinity".  shapely
    returns the square root; zero, order and equality are those of
    the squares. *)
Definition sqdist_to (ridgeI ridgeJ : Z) (c : Q * Q) : Q :=
  ((c.1 - inject_Z ridgeJ) ^ 2 + (c.2 - inject_Z ridgeI) ^ 2)%Q.

(** Line 344: [float('Inf') if i == 0 else i]; [None] is infinity. *)
Definition degenerate_to_inf (d : Q) : option Q :=
  if Qeq_bool d 0 then None else Some d.

Definition dist_lt (a b : option Q) : bool :=
  match a, b with
  | Some x, Some y => Qltb x y
  | Some _, None => true
  | None, _ => false
  end.

Definition dist_eq (a b : option Q) : bool :=
  match a, b with
  | Some x, Some y => Qeq_bool x y
  | None, None => true
  | _, _ => false
  end.

(** The order of distances "or infinity" that the two tests decide. *)
Definition dle (a b : option Q) : Prop :=
  match a, b with
  | _, None => True
  | None, Some _ => False
  | Some x, Some y => (x <= y)%Q
  end.

(** [min(dists)] on a non-empty list *)
Definition min_dist (dists : list (option Q)) : option Q :=
  match dists with
  | [] => None
  | d :: ds => fold_left (fun acc e => if dist_lt e acc then e else acc) ds d
  end.

(** [dists.index(v)]: position of the first element equal to [v] *)
Fixpoint index_of (v : option Q) (dists : list (option Q)) : nat :=
  match dists with
  | [] => 0
  | d :: ds => if dist_eq d v then 0%nat else S (index_of v ds)
  end.

(** The intersection points at non-zero distance from the ridge point:
    those that line 344 leaves finite. *)
Definition nondegenerate (ridgeI ridgeJ : Z) (castEnd : list (Q * Q))
  : list (Q * Q) :=
  filter (fun c => degenerate_to_inf (sqdist_to ridgeI ridgeJ c) ≠ None)
         castEnd.

(** [geoTransform] is indexed from 0 to 5. *)
Definition geo_x (gt : list Q) (i j : Q) : Q :=
  (i * nth 2 gt 0 + j * nth 1 gt 0 + nth 0 gt 0)%Q.
Definition geo_y (gt : list Q) (i j : Q) : Q :=
  (i * nth 5 gt 0 + j * nth 4 gt 0 + nth 3 gt 0)%Q.

(** Lines 337-370 for one ridge pixel: the row appended to [castList],
    if any.  The zenith is the last thing read, and reading it outside
    [sunZn] raises. *)
Definition cast_record (castEnd : list (Q * Q)) (ridgeI ridgeJ : Z)
    (az : Q) (sunZn : list (list Q)) (geoTransform : list Q)
  : result (option CastPair) :=
  if (1 <? Z.of_nat (length castEnd)) then
    let dists := map (sqdist_to ridgeI ridgeJ) castEnd in
    let dists := map degenerate_to_inf dists in
    let castIdx := index_of (min_dist dists) dists in
    let casted := nth castIdx castEnd (0, 0)%Q in
    match Np.get2 sunZn ridgeI ridgeJ with
    | None => Raise IndexError
    | Some zn =>
        Ok (Some
              {| ridgeX := geo_x geoTransform (inject_Z ridgeI) (inject_Z ridgeJ);
                 ridgeY := geo_y geoTransform (inject_Z ridgeI) (inject_Z ridgeJ);
                 castX := geo_x geoTransform casted.2 casted.1;
                 castY := geo_y geoTransform casted.2 casted.1;
                 azimuth := az; zenith := zn |})
    end
  else Ok None.

(** The far end of the synthetic ray (lines 299-307). *)
Definition cast_ray (ridgeI ridgeJ : Z) (az : Q) : (Q * Q) * (Q * Q) :=
  ((inject_Z ridgeJ, inject_Z ridgeI),
   (inject_Z ridgeJ - sin_deg az * 10000,
    inject_Z ridgeI + cos_deg az * 10000))%Q.

(** One turn of the loop over the ridge pixels of a polygon (lines
    298-371).  The polygon is part of the state: once repaired by
    [buffer(0)] it stays repaired. *)
Definition cast_vertex (sunZn sunAz : list (list Q)) (geoTransform : list Q)
    (st : Polygon * list CastPair) (ridge : Z * Z)
  : result (Polygon * list CastPair) :=
  let '(polygoon, castList) := st in
  let '(ridgeI, ridgeJ) := ridge in
  match Np.get2 sunAz ridgeI ridgeJ with
  | None => Ok st                          (* [except IndexError: continue] *)
  | Some az =>
      let castLine := cast_ray ridgeI ridgeJ az in
      '(polygoon, castEnd) ←
        match intersection polygoon castLine with
        | Raise TopologicalError =>
            let polygoon := buffer0 polygoon in
            castEnd ← intersection polygoon castLine; Ok (polygoon, castEnd)
        | r => castEnd ← r; Ok (polygoon, castEnd)
        end;
      castEnd ← flatten_geometry castEnd;
      row ← cast_record castEnd ridgeI ridgeJ az sunZn geoTransform;
      match row with
      | Some row => Ok (polygoon, castList ++ [row])
      | None => Ok (polygoon, castList)
      end
  end.

(** Lines 286-294: the ridge pixels of the polygon with value [val]. *)
Definition ridge_of (labels : list (list Z)) (mskOrient : list (list Z))
    (val : Z) : list (Z * Z) :=
  let polyRast := map (map (fun l => l =? val)) labels in
  let polyInnr := binary_erosion_3x3 polyRast in
  let polyBoun := zip_with (zip_with xorb) polyRast polyInnr in
  let polyWhe := Np.nonzero2 polyBoun in
  filter (fun p => Np.at2 0 mskOrient p.1 p.2 = 1) polyWhe.

(** Line 272 *)
Definition label_mask (labels : list (list Z)) : list (list bool) :=
  map (map (fun l => 1 <? l)) labels.

(** The features the loop of line 279 runs its body on. *)
Definition polygons (labels : list (list Z)) : list (Polygon * Z) :=
  filter (fun sv => sv.2 ≠ 0) (shapes labels (label_mask labels)).

Definition foldM {A B} (f : A -> B -> result A) (l : list B) (a : A)
  : result A :=
  fold_left (fun r b => a ← r; f a b) l (Ok a).

(** [listOccluderAndCasted(labels, sunZn, sunAz, geoTransform)] *)
Definition listOccluderAndCasted (labels : list (list Z))
    (sunZn sunAz : list (list Q)) (geoTransform : list Q)
  : result (list CastPair) :=
  let msk := label_mask labels in
  let mskOrient :=
    map (map Np.sign)
        (castOrientation
           (map (map (fun b : bool => if b then 1%Q else 0%Q)) msk) sunAz) in
  foldM (fun castList sv =>
           let '(polygoon, val) := (sv : Polygon * Z) in
           st ← foldM (cast_vertex sunZn sunAz geoTransform)
                      (ridge_of labels mskOrient val) (polygoon, castList);
           Ok st.2)
        (polygons labels) [].

End PolygonCastPairer.

(** ** [shadow_filters.enhance_shadows] *)

(** The exception by which [enhance_shadows] rejects a method name: the
    [AssertionError] of its last branch. *)
Definition InvalidMethod : exn :=
  AssertionError "please provide a correct method".

(** [a in b] for two Python strings: [a] occurs in [b] as a substring. *)
Fixpoint str_in (a b : string) : bool :=
  String.prefix a b ||
  match b with
  | EmptyString => false
  | String _ b' => str_in a b'
  end.

(** The outcome of a call: the value it returns, the exception it
    raises, or [None] when the call does not return. *)
Definition outcome (A : Type) : Type := option (result A).

(** The five filters of the module, which [enhance_shadows] dispatches
    to, each with the outcome of its call on an image and the options
    passed on to it. *)
Class Filters (Image : Type) := {
  mean_shift_filter : Image -> Q -> outcome Image;
  kuwahara_filter : Image -> Q -> outcome Image;
  iterative_median_filter : Image -> Q -> Q -> outcome Image;
  anistropic_diffusion_scalar : Image -> Q -> Q -> Q -> Q -> outcome Image;
  L0_smoothing : Image -> Q -> Q -> outcome Image
}.

Section ShadowEnhancers.
Context {Image : Type} `{!Filters Image}.

(** The method names the branches are written for. *)
Definition method_names : list string :=
  ["mean"; "mean-shift"; "kuwahara"; "median"; "anistropic";
   "anistropic-diffusion"; "L0"; "L0smoothing"].

(** [d if kwargs.get(key) == None else kwargs.get(key)] *)
Definition kwarg (kwargs : gmap string Q) (key : string) (d : Q) : Q :=
  default d (kwargs !! key).

(** [enhance_shadows(Shw, method, **kwargs)].  The second and third
    tests are written [method in ('kuwahara')] and
    [method in ('median')]: the parentheses hold a string, not a
    tuple, and [in] is the substring test.  Every branch ends in the
    call of a filter, whose value is returned as it is: the outcome of
    that call is the outcome of [enhance_shadows]. *)
Definition enhance_shadows (Shw : Image) (method : string)
    (kwargs : gmap string Q) : outcome Image :=
  if bool_decide (method ∈ ["mean"; "mean-shift"]) then
    let quantile := kwarg kwargs "quantile" (1 # 10) in
    mean_shift_filter Shw quantile
  else if str_in method "kuwahara" then
    let tsize := kwarg kwargs "tsize" 5 in
    kuwahara_filter Shw tsize
  else if str_in method "median" then
    let tsize := kwarg kwargs "tsize" 5 in
    let iter := kwarg kwargs "loop" 50 in
    iterative_median_filter Shw tsize iter
  else if bool_decide (method ∈ ["anistropic"; "anistropic-diffusion"]) then
    let iter := kwarg kwargs "iter" 10 in
    let K := kwarg kwargs "K" (15 # 100) in
    let s := kwarg kwargs "s" (25 # 100) in
    let n := kwarg kwargs "n" 4 in
    anistropic_diffusion_scalar Shw iter K s n
  else if bool_decide (method ∈ ["L0"; "L0smoothing"]) then
    let lamb := kwarg kwargs "lamb" (2 # 100) in
    let kappa := kwarg kwargs "kappa" 2 in
    L0_smoothing Shw lamb kappa
  else Some (Raise InvalidMethod).

End ShadowEnhancers.

(** ** [matching_tools_differential.simple_optical_flow] *)

(** The values the four result names are bound to: a number, a
    two-dimensional float array, or a tuple of such arrays. *)
Inductive pyval : Type :=
  | PyNum (q : Q)
  | PyArr (a : list (list Q))
  | PyTuple (l : list (list (list Q))).

(** The sample coordinates: an [int], or an integer array of one or
    two dimensions. *)
Inductive samples : Type :=
  | SInt (i : Z)
  | SArr1 (l : list Z)
  | SArr2 (rows : list (list Z)).

(** Lines 86-107 and 127-141: the normalisation, smoothing and
    derivative filters, the templates around one sample point and the
    least-squares solve.  [None] when [np.std(It)] is zero, otherwise
    the velocity [nu] and the eigenvalues [epsilon], both as pairs
    [(x[0], x[1])]. *)
Class LucasKanade (Image : Type) := {
  window_flow : Image -> Image -> Z -> Q -> Z -> Z
                -> option ((Q * Q) * (Q * Q))
}.

Section SimpleOpticalFlow.
Context {Image : Type} `{!LucasKanade Image}.

(** Lines 80-83 *)
Definition as_array (s : samples) : samples :=
  match s with
  | SInt i => SArr1 [i]
  | a => a
  end.

Definition ndim (s : samples) : Z :=
  match s with SInt _ => 0 | SArr1 _ => 1 | SArr2 _ => 2 end.

Definition flat (s : samples) : list Z :=
  match s with SInt i => [i] | SArr1 l => l | SArr2 rows => concat rows end.

(** [len(s)]: the extent of the first axis *)
Definition len (s : samples) : Z :=
  match s with
  | SInt _ => 0
  | SArr1 l => Z.of_nat (length l)
  | SArr2 rows => Z.of_nat (length rows)
  end.

(** the extent of the last axis, for [np.unravel_index] *)
Definition width (s : samples) : Z :=
  match s with
  | SArr2 rows => Z.of_nat (length (hd [] rows))
  | s => len s
  end.

Definition zerosQ (m n : Z) : list (list Q) :=
  replicate (Z.to_nat m) (replicate (Z.to_nat n) 0%Q).

(** [v[i, j] = x]: defined on arrays, within their bounds. *)
Definition setitem (v : pyval) (i j : Z) (x : Q) : result pyval :=
  match v with
  | PyArr a =>
      let '(m, n) := Np.shape2 a in
      if Np.valid_index m i && Np.valid_index n j
      then Ok (PyArr (Np.set2 a (Np.wrap_index m i) (Np.wrap_index n j) x))
      else Raise IndexError
  | PyNum _ | PyTuple _ => Raise TypeError
  end.

Definition flow_state : Type := pyval * pyval * pyval * pyval.

(** Lines 110-115.  Line 112 ends in a comma: [Vgrd] is bound to a
    tuple of one array. *)
Definition flow_init (sampleI sampleJ : samples) : flow_state :=
  if 1 <? ndim sampleI then
    let Ugrd := zerosQ (len sampleI) (len sampleJ) in
    (PyArr Ugrd, PyTuple [Ugrd], PyArr Ugrd, PyArr Ugrd)
  else (PyNum 0, PyNum 0, PyNum 0, PyNum 0).

(** One turn of the loop of line 119. *)
Definition flow_step (I1 I2 : Image) (window_size : Z) (sigma : Q)
    (sampleI sampleJ : samples) (st : flow_state) (iIdx : nat)
  : result flow_state :=
  let '(Ugrd, Vgrd, Ueig, Veig) := st in
  match flat sampleI !! iIdx, flat sampleJ !! iIdx with
  | Some iIm, Some jIm =>
      let iGrd := Z.of_nat iIdx / width sampleI in
      let jGrd := Z.of_nat iIdx mod width sampleI in
      match window_flow I1 I2 window_size sigma iIm jIm with
      | None => Ok st
      | Some (nu, epsilon) =>
          if 1 <? ndim sampleI then
            Ugrd ← setitem Ugrd iGrd jGrd nu.1;
            Vgrd ← setitem Vgrd iGrd jGrd nu.2;
            Ueig ← setitem Ueig iGrd jGrd epsilon.1;
            Veig ← setitem Veig iGrd jGrd epsilon.2;
            Ok (Ugrd, Vgrd, Ueig, Veig)
          else
            Ok (PyNum nu.2, PyNum nu.1, PyNum epsilon.2, PyNum epsilon.1)
      end
  | _, _ => Raise IndexError
  end.

(** [simple_optical_flow(I1, I2, window_size, sampleI, sampleJ,
    tau, sigma)]; [tau] is not used by the body. *)
Definition simple_optical_flow (I1 I2 : Image) (window_size : Z)
    (sampleI sampleJ : samples) (sigma : Q) : result flow_state :=
  let sampleI := as_array sampleI in
  let sampleJ := as_array sampleJ in
  fold_left (fun r iIdx =>
               st ← r;
               flow_step I1 I2 window_size sigma sampleI sampleJ st iIdx)
            (seq 0 (length (flat sampleI)))
            (Ok (flow_init sampleI sampleJ)).

End SimpleOpticalFlow.

(** ** [matching_tools_differential.affine_optical_flow] *)

(** What one turn of the refinement loop obtains from the numerical
    libraries (lines 203-247): the warp by [scipy.interpolate.griddata],
    the Jacobian, the removal of undefined samples, and
    [np.linalg.lstsq].  [IllPosed] when fewer than six samples are left
    ([break]); [Solved] with the update and the residual, which is
    absent when [lstsq] returns an empty residual array (the assignment
    to [res[i]] then raises the [ValueError] that is passed over, [dp]
    being bound already); [Passed] when [lstsq] itself raises a
    [ValueError], which is passed over as well and leaves [dp] as it
    was; [Failed] when a library call raises an exception the loop does
    not catch. *)
Inductive refinement : Type :=
  | IllPosed
  | Solved (update : list Q) (residual : option Q)
  | Passed
  | Failed (e : exn).

Class GaussNewton (Image : Type) := {
  refine : Image -> Image -> list Q -> refinement
}.

Section AffineOpticalFlow.
Context {Image : Type} `{!GaussNewton Image}.

(** State of the loop: the parameters [p], the update [dp] once it is
    bound, and the arrays [p_stack] and [res] with one row per
    iteration. *)
Record affine_state : Type := mkAffine {
  p : list Q; dp : option (list Q); p_stack : list (list Q); res : list Q
}.

Definition affine_init (iteration : nat) : affine_state :=
  {| p := replicate 6 0%Q;
     dp := None;
     p_stack := replicate iteration (replicate 6 0%Q);
     res := replicate iteration 0%Q |}.

(** [p += dp; p_stack[i,:] = p] (lines 250-251) *)
Definition affine_update (st : affine_state) (i : nat) (update : list Q)
    (res' : list Q) : affine_state :=
  let p' := zip_with Qplus (p st) update in
  {| p := p'; dp := Some update;
     p_stack := <[i := p']> (p_stack st); res := res' |}.

(** Lines 202-251; [None] is the [break]. *)
Definition affine_step (I1 I2 : Image) (st : affine_state) (i : nat)
  : result (option affine_state) :=
  match refine I1 I2 (p st) with
  | IllPosed => Ok None
  | Failed e => Raise e
  | Solved update residual =>
      Ok (Some (affine_update st i update
                  match residual with
                  | Some r => <[i := r]> (res st)
                  | None => res st
                  end))
  | Passed =>
      match dp st with
      | Some update => Ok (Some (affine_update st i update (res st)))
      | None => Raise UnboundLocalError
      end
  end.

Fixpoint affine_loop (I1 I2 : Image) (todo : list nat) (st : affine_state)
  : result affine_state :=
  match todo with
  | [] => Ok st
  | i :: todo' =>
      next ← affine_step I1 I2 st i;
      match next with
      | None => Ok st
      | Some st' => affine_loop I1 I2 todo' st'
      end
  end.

(** Line 254: the row indices where the residual lies above its
    predecessor, the first one being compared with [1e3]. *)
Definition up_idx (res : list Q) : list nat :=
  Np.nonzero (zip_with (fun r prev => Qltb prev r)
                       res (1000%Q :: Np.slice 0 (-1) res)).

(** Lines 255-256: the accepted prefix of the residuals *)
Definition accepted (res : list Q) : list Q :=
  match up_idx res with
  | [] => res
  | i :: _ => take i res
  end.

(** [np.argmin] and [np.min] of a non-empty vector: the first
    smallest entry *)
Fixpoint argmin_from (best : nat) (vbest : Q) (i : nat) (l : list Q)
  : nat * Q :=
  match l with
  | [] => (best, vbest)
  | x :: l' => if Qltb x vbest then argmin_from i x (S i) l'
               else argmin_from best vbest (S i) l'
  end.

Definition argmin (l : list Q) : nat * Q :=
  match l with
  | [] => (0%nat, 0%Q)
  | x :: l' => argmin_from 0 x 1 l'
  end.

(** Lines 262-266 on the parameter row [row] with residual [snr]:
    [Aff = [[1,0,0],[0,1,0]] + row.reshape(3,2).T], the displacement
    is its last column, and [A] the transposed inverse of its first
    two columns. *)
Definition from_row (row : list Q) (snr : Q)
  : result (Q * Q * list (list Q) * Q) :=
  let q k := nth k row 0%Q in
  let a := (1 + q 0%nat)%Q in let b := q 2%nat in
  let c := q 1%nat in let d := (1 + q 3%nat)%Q in
  let u := q 4%nat in let v := q 5%nat in
  let det := (a * d - b * c)%Q in
  if Qeq_bool det 0 then Raise LinAlgError
  else Ok (u, v, [[d / det; - c / det]; [- b / det; a / det]]%Q, snr).

(** Lines 253-267 *)
Definition affine_select (p_stack : list (list Q)) (res : list Q)
  : result (Q * Q * list (list Q) * Q) :=
  let res := accepted res in
  match res with
  | [] => Ok (0, 0, [[1; 0]; [0; 1]], 0)%Q
  | _ :: _ =>
      let '(i, snr) := argmin res in
      from_row (nth i p_stack []) snr
  end.

(** [affine_optical_flow(I1, I2, model, iteration)]; [model] is not
    used by the body. *)
Definition affine_optical_flow (I1 I2 : Image) (iteration : nat)
  : result (Q * Q * list (list Q) * Q) :=
  st ← affine_loop I1 I2 (seq 0 iteration) (affine_init iteration);
  affine_select (p_stack st) (res st).

End AffineOpticalFlow.

(** ** [matching_tools_differential.hough_optical_flow] *)


Section HoughOpticalFlow.
Context {F Image G : Type} `{!HoughNumerics F Image G}.




End HoughOpticalFlow.

(** ** [shadow_geometry.medianFilShadows] and the filters of
    [shadow_filters] *)

(** What the filters take from scipy:
    [ndimage.median_filter(I, size=size)], and
    [ndimage.generic_filter(I, function, size=(tsize, tsize))] for a
    [function] from the flattened window, a vector of floats [F], to a
    float. *)
Class NdImage (Image : Type) := {
  median_filter : Image -> Z -> result Image
}.

Class GenericFilter (Image F : Type) := {
  generic_filter : Image -> (list F -> result F) -> Q -> result Image
}.

(** What [kuwahara] takes from numpy: [np.var] and [np.mean] of the
    entries of a two-dimensional array of floats, and [np.argmin] of a
    vector of floats. *)
Class Statistics (F : Type) := {
  np_var : list (list F) -> F;
  np_mean : list (list F) -> F;
  np_argmin : list F -> nat
}.

Section MedianShadows.
Context {Image : Type} `{!NdImage Image}.

(** [medianFilShadows(M, siz, loop)]: every turn of the loop filters
    [M] itself. *)
Definition medianFilShadows (M : Image) (siz loop : Z) : result Image :=
  foldM (fun _ _ => median_filter M siz) (Np.arange 0 loop) M.

End MedianShadows.

(** The numerical side of [L0_smoothing]: [perdecomp(I)[0]] of the
    repository, and the body of the loop (lines 454-476), which computes
    the next image from the periodic image, the current image, [lamb]
    and a [beta] that is not zero. *)
Class L0Numerics (Image : Type) := {
  perdecomp : Image -> Image;
  l0_update : Image -> Image -> Q -> Q -> Image
}.

(** What one turn of the loop of [anistropic_diffusion_scalar] computes
    before it changes the image (lines 359-401): the differences of the
    image with its neighbours, by [diff_compass] of the repository, each
    weighted by [diffusion_strength_1], for a real two-dimensional
    image, [K] and [n]. *)
Class Diffusion := {
  diffusion_update : list (list Q) -> Q -> Q -> result (list (list Q))
}.

Module ShadowFilters.

Section Filters.
Context {Image F : Type} `{!NdImage Image} `{!GenericFilter Image F}
  `{!Statistics F} `{!L0Numerics Image} `{!Diffusion}.

(** [iterative_median_filter(I, tsize, loop)] *)
Definition iterative_median_filter (I : Image) (tsize loop : Z)
  : result Image :=
  foldM (fun I _ => median_filter I tsize) (Np.arange 0 loop) I.

(** [np.reshape(buffer, (d, d))]; the message of the [ValueError] is
    given without the sizes it quotes. *)
Definition reshape {A} (d : Z) (buffer : list A) : result (list (list A)) :=
  if Z.of_nat (length buffer) =? d * d
  then Ok (map (fun i => take (Z.to_nat d) (drop (Z.to_nat (i * d)) buffer))
               (Np.arange 0 d))
  else Raise (ValueError "cannot reshape array").

(** [kuwahara(buffer)]: the mean of that one of the four corner blocks
    of the window which [np.argmin] picks among their variances. *)
Definition kuwahara (buffer : list F) : result F :=
  let d := Z.sqrt (Z.of_nat (length buffer)) in
  let d_sub := (d - 1) / 2 + 1 in
  buffer ← reshape d buffer;
  let r_a := Np.slice2 0 (- d_sub + 1) 0 (- d_sub + 1) buffer in
  let r_b := Np.slice2 (d_sub - 1) d 0 (- d_sub + 1) buffer in
  let r_c := Np.slice2 0 (- d_sub + 1) (d_sub - 1) d buffer in
  let r_d := Np.slice2 (d_sub - 1) d (d_sub - 1) d buffer in
  let var_abcd := [np_var r_a; np_var r_b; np_var r_c; np_var r_d] in
  let bar_abcd := [np_mean r_a; np_mean r_b; np_mean r_c; np_mean r_d] in
  let idx_abcd := np_argmin var_abcd in
  match bar_abcd !! idx_abcd with
  | Some bar => Ok bar
  | None => Raise IndexError
  end.

(** [np.remainder(x, y)] for [y > 0] *)
Definition remainder (x y : Q) : Q :=
  (x - inject_Z (Qfloor (x / y)) * y)%Q.

(** [kuwahara_filter(I, tsize)] *)
Definition kuwahara_filter (I : Image) (tsize : Q) : result Image :=
  if negb (Qeq_bool (remainder tsize 1) 0)
  then Raise (AssertionError "please provide square kernel")
  else if negb (Qeq_bool (remainder (tsize - 1) 2) 0)
  then Raise (AssertionError "kernel dimension should be odd")
  else if negb (Qle_bool 3 tsize)
  then Raise (AssertionError "kernel should be big enough")
  else generic_filter I kuwahara tsize.

(** numpy broadcasting of one axis to the extent [n]: an axis of
    extent [n] is taken as it is, an axis of extent one is repeated. *)
Definition broadcast {A} (n : nat) (l : list A) : option (list A) :=
  if Nat.eqb (length l) n then Some l
  else match l with
       | [x] => Some (replicate n x)
       | _ => None
       end.

(** [I_new[1:-1, 1:-1] += upd] *)
Definition iadd_inner (I_new upd : list (list Q))
  : result (list (list Q)) :=
  let '(m, n) := Np.shape2 I_new in
  match rows ← mapM (broadcast (Z.to_nat (n - 2))) upd;
        broadcast (Z.to_nat (m - 2)) rows with
  | None => Raise (ValueError "operands could not be broadcast together")
  | Some upd =>
      Ok (imap (fun i row =>
                  if (1 <=? Z.of_nat i) && (Z.of_nat i <? m - 1) then
                    imap (fun j x =>
                            if (1 <=? Z.of_nat j) && (Z.of_nat j <? n - 1)
                            then (x + Np.at2 0 upd (Z.of_nat i - 1)
                                              (Z.of_nat j - 1))%Q
                            else x) row
                  else row) I_new)
  end.

(** [anistropic_diffusion_scalar(I, iter, K, s, n)] for a real
    two-dimensional [I].  [1/n] on line 355 divides two Python numbers
    and raises when [n] is zero, before the loop is entered. *)
Definition anistropic_diffusion_scalar (I : list (list Q)) (iter : Z)
    (K s n : Q) : result (list (list Q)) :=
  let I_new := I in
  if Qeq_bool n 0 then Raise ZeroDivisionError
  else
    let s := Qmin s (1 / n) in
    foldM (fun I_new _ =>
             I_update ← diffusion_update I_new K n;
             iadd_inner I_new (map (map (Qmult s)) I_update))
          (Np.arange 0 iter) I_new.

(** The loop of [L0_smoothing] (lines 453-477) started with [beta];
    [fuel] bounds the number of times its test is evaluated, and [None]
    says that the loop is still running when that bound is reached.
    [lamb/beta] on line 459 divides two Python numbers and raises when
    [beta] is zero.  [beta] is a rational and the product
    [beta * kappa] is exact, where the program rounds it to a float:
    for [kappa] below one the float reaches zero after many turns,
    which the rational never does. *)
Fixpoint L0_loop (fuel : nat) (I0 I : Image) (lamb kappa beta_max beta : Q)
  : outcome Image :=
  match fuel with
  | O => None
  | S fuel =>
      if Qltb beta beta_max
      then if Qeq_bool beta 0 then Some (Raise ZeroDivisionError)
           else L0_loop fuel I0 (l0_update I0 I lamb beta) lamb kappa
                        beta_max (beta * kappa)%Q
      else Some (Ok I)
  end.

(** [L0_smoothing(I, lamb, kappa, beta_max)] *)
Definition L0_smoothing (fuel : nat) (I : Image) (lamb kappa beta_max : Q)
  : outcome Image :=
  let I := perdecomp I in
  L0_loop fuel I I lamb kappa beta_max (2 * lamb)%Q.

End Filters.

End ShadowFilters.

(** * Reference instances

    Executable stand-ins for the external functions, on which the
    definitions above are run in the examples. *)

Module Reference.

(** [np.histogram] with [b] equal-width bins between the smallest and
    the largest datum (widened by one half on each side when they
    coincide), the last bin closed on the right. *)
Definition qmin (l : list Q) : Q :=
  foldr (fun x acc => if Qltb x acc then x else acc) (hd 0%Q l) l.
Definition qmax (l : list Q) : Q :=
  foldr (fun x acc => if Qltb acc x then x else acc) (hd 0%Q l) l.

Definition hist_range (data : list Q) : Q * Q :=
  let lo := qmin data in
  let hi := qmax data in
  if Qeq_bool lo hi then (lo - (1 # 2), hi + (1 # 2))%Q else (lo, hi).

Definition bin_of (lo hi : Q) (b : Z) (x : Q) : Z :=
  Z.min (Qfloor ((x - lo) * inject_Z b / (hi - lo))%Q) (b - 1).

Definition histogram_ref (data : list Q) (b : Z) : list Z * list Q :=
  let '(lo, hi) := hist_range data in
  (map (fun k => Z.of_nat (length (filter (fun x => bin_of lo hi b x = k) data)))
       (Np.arange 0 b),
   map (fun k => Qred (lo + inject_Z k * (hi - lo) / inject_Z b)%Q)
       (Np.arange 0 (b + 1))).

(** The least [b] with [b >= 1.6 * (log2 mn + 1)], that is with
    [2 ^ (5 b - 8) >= mn ^ 8]. *)
Definition sturges_bins_ref (mn : Q) : Z :=
  (Z.log2_up (Qceiling mn ^ 8) + 12) / 5.

(** Every foreground pixel in one component. *)
Definition label_ref (mask : list (list bool)) : list (list Z) :=
  map (map (fun b : bool => if b then 1 else 0)) mask.

(** One superpixel per image, and its mean intensity. *)
Definition slic_ref (M : list (list Q)) (mn : Q) : list (list Z) :=
  map (map (fun _ => 1)) M.
Definition avg_ref (SupPix : list (list Z)) (M : list (list Q))
  : list (list Q) :=
  let data := concat M in
  let mean := Qred (foldr Qplus 0 data / inject_Z (Z.of_nat (length data)))%Q in
  map (map (fun _ => mean)) M.

#[export] Instance segmentation : Segmentation := {|
  histogram := histogram_ref;
  sturges_bins := sturges_bins_ref;
  measure_label := label_ref;
  slic := slic_ref;
  label2rgb_avg := avg_ref
|}.

(** Sines and cosines of the azimuths used in the examples: exact at
    0 degrees, and to five places at -100 degrees. *)
#[export] Instance trig : Trig := {|
  cos_deg a := if Qeq_bool a 0 then 1
               else if Qeq_bool a (-100) then - (17365 # 100000) else 0;
  sin_deg a := if Qeq_bool a 0 then 0
               else if Qeq_bool a (-100) then - (98481 # 100000) else 0
|}%Q.

(** A feature per value that occurs under the mask, made of the pixels
    that carry it: the connected regions, when every label is
    connected. *)
Definition masked_values (labels : list (list Z)) (msk : list (list bool))
  : list Z :=
  omap (fun ij : Z * Z => Np.get2 labels ij.1 ij.2) (Np.nonzero2 msk).

Definition shapes_ref (labels : list (list Z)) (msk : list (list bool))
  : list (list (Z * Z) * Z) :=
  map (fun v => (filter (fun ij : Z * Z => Np.get2 labels ij.1 ij.2 = Some v)
                        (Np.nonzero2 msk), v))
      (Np.unique (masked_values labels msk)).

(** The part of a ray inside a region one pixel wide, for a ray that
    starts at a corner of one of its pixels and leaves through the
    opposite side: from the start, one unit to the east. *)
Definition intersection_ref (region : list (Z * Z)) (ray : (Q * Q) * (Q * Q))
  : result geometry :=
  Ok (LineString [ray.1; (Qred (ray.1.1 + 1), ray.1.2)]).

#[export] Instance regions : Vectorizer (list (Z * Z)) := {|
  shapes := shapes_ref;
  intersection := intersection_ref;
  buffer0 := id
|}.

(** Ridge pixels are the boundary pixels the orientation field marks:
    an erosion that leaves nothing, and an orientation of +1
    everywhere. *)
#[export] Instance morphology : Morphology := {|
  binary_erosion := map (map (fun _ => false));
  binary_erosion_3x3 := map (map (fun _ => false));
  castOrientation msk sunAz := map (map (fun _ => 1%Q)) msk
|}.

(** A stand-in for the statistics of numpy, a float being a rational
    or nan ([None]): the exact mean and variance, which are nan for a
    block without entries or with a nan among them, and for [np.argmin]
    the position of the first nan if there is one, otherwise of the
    first smallest entry. *)
Definition mean_ref (block : list (list (option Q))) : option Q :=
  l ← mapM id (concat block);
  match l with
  | [] => None
  | _ :: _ => Some (Qred (foldr Qplus 0 l / inject_Z (Z.of_nat (length l))))%Q
  end.

Definition var_ref (block : list (list (option Q))) : option Q :=
  mu ← mean_ref block;
  mean_ref (map (map (fmap (fun x => (x - mu) ^ 2)%Q)) block).

Fixpoint nan_index (l : list (option Q)) : option nat :=
  match l with
  | [] => None
  | None :: _ => Some 0%nat
  | Some _ :: l' => S <$> nan_index l'
  end.

Definition argmin_ref (l : list (option Q)) : nat :=
  match nan_index l with
  | Some i => i
  | None => (argmin (omap id l)).1
  end.

#[export] Instance exact : Statistics (option Q) := {|
  np_var := var_ref;
  np_mean := mean_ref;
  np_argmin := argmin_ref
|}.

(** Filters that leave a trace: the image is the list of the calls
    made on it, each with its arguments.  The Kuwahara filter is the
    one of [ShadowFilters], over a generic filter that leaves a
    trace. *)
#[export] Instance traced_windows
  : GenericFilter (list (string * list Q)) (option Q) := {|
  generic_filter I f size := Ok (I ++ [("generic_filter", [size])])
|}.

#[export] Instance tracing : Filters (list (string * list Q)) := {|
  mean_shift_filter I quantile :=
    Some (Ok (I ++ [("mean_shift_filter", [quantile])]));
  kuwahara_filter I tsize := Some (ShadowFilters.kuwahara_filter I tsize);
  iterative_median_filter I tsize loop :=
    Some (Ok (I ++ [("iterative_median_filter", [tsize; loop])]));
  anistropic_diffusion_scalar I iter K s n :=
    Some (Ok (I ++ [("anistropic_diffusion_scalar", [iter; K; s; n])]));
  L0_smoothing I lamb kappa :=
    Some (Ok (I ++ [("L0_smoothing", [lamb; kappa])]))
|}.

(** A stand-in for the window solve on images held as lists of rows:
    the window of a sample point is flat when the two images agree at
    the point; otherwise the velocity is their difference there. *)
#[export] Instance pointwise : LucasKanade (list (list Q)) := {|
  window_flow I1 I2 window_size sigma iIm jIm :=
    let a := Np.at2 0%Q I1 iIm jIm in
    let b := Np.at2 0%Q I2 iIm jIm in
    if Qeq_bool a b then None else Some ((Qred (b - a), 0), (1, 1))%Q
|}.


(** A stand-in for the refinement step on "images" that are lists of
    numbers: the head of the first is the residual of every iteration,
    the second is the parameter update, and an empty first image has
    too few samples. *)
#[export] Instance scripted : GaussNewton (list Q) := {|
  refine I1 I2 p :=
    match I1 with
    | [] => IllPosed
    | r :: _ => Solved I2 (Some r)
    end
|}.

(** A stand-in for the refinement step that runs out of samples: the
    first image lists the residuals of the successive iterations, the
    second is the parameter update, whose fifth entry is one, so that
    the fifth parameter counts the iterations done; when the residuals
    are used up the problem is ill-posed. *)
#[export] Instance exhausting : GaussNewton (list Q) := {|
  refine I1 I2 p :=
    match I1 !! Z.to_nat (Qfloor (nth 4 p 0%Q)) with
    | None => IllPosed
    | Some r => Solved I2 (Some r)
    end
|}.

(** The median filter of size three on a row of pixels, the row being
    reflected at its two ends: a stand-in for [ndimage.median_filter],
    whatever the size asked for.  The row is also the one window of
    [generic_filter]: the filtered image is the value computed from
    it, and is empty when that value is nan. *)
Definition median3 (a b c : Q) : Q :=
  let lo := if Qltb b a then b else a in
  let hi := if Qltb b a then a else b in
  if Qltb c lo then lo else if Qltb hi c then hi else c.

Definition median_row (l : list Q) : list Q :=
  imap (fun i x => median3 (nth (i - 1) l x) x (nth (S i) l x)) l.

#[export] Instance rows : NdImage (list Q) := {|
  median_filter I size := Ok (median_row I)
|}.

#[export] Instance one_window : GenericFilter (list Q) (option Q) := {|
  generic_filter I f size :=
    v ← f (map Some I); Ok (match v with Some q => [q] | None => [] end)
|}.

(** A stand-in for the numerics of [L0_smoothing]: the image is the
    number of updates made on it. *)
#[export] Instance stepping : L0Numerics nat := {|
  perdecomp I := I;
  l0_update I0 I lamb beta := S I
|}.

(** A stand-in for the update of the diffusion: one at every pixel of
    the interior. *)
#[export] Instance unit_update : Diffusion := {|
  diffusion_update I K n :=
    Ok (replicate (length I - 2) (replicate (length (hd [] I) - 2) 1%Q))
|}.

End Reference.

(** * Properties *)

(** ** The valley detector *)

(** With one neighbour (or none) the masks [concavP] and [concavM] are
    never computed, and the function raises whatever the histogram. *)
Lemma findValley_one_neighbor {A} (values : list Z) (base : list A) k :
  k <= 1 -> findValley values base k = Raise UnboundLocalError.
Proof.
  intros Hk. unfold findValley.
  destruct (k >? 1) eqn:E; [apply Z.gtb_lt in E; lia | reflexivity].
Qed.

(** *** What the valley finder computes *)

Section ValleyDetectorProperties.
Context {A : Type}.

Lemma lookup_nth (l : list Z) (i : nat) :
  (i < length l)%nat -> l !! i = Some (nth i l 0).
Proof.
  intros Hi. destruct (nth_lookup_or_length l i 0) as [E | E]; [done | lia].
Qed.

(** [np.roll]: position [j] of the rolled vector holds the count at
    [j - s], read cyclically. *)
Lemma roll_lookup (s : Z) (values : list Z) (j : nat) :
  (j < length values)%nat ->
  Np.roll s values !! j = Some (count_at values (Z.of_nat j - s)).
Proof.
  intros Hj. unfold Np.roll, count_at.
  set (n := Z.of_nat (length values)).
  assert (Hn : 0 < n) by (unfold n; lia).
  destruct (n =? 0) eqn:E; [apply Z.eqb_eq in E; lia |].
  pose proof (Z.mod_pos_bound s n Hn) as Hs.
  rewrite <- Zminus_mod_idemp_r.
  set (sm := s mod n) in *.
  destruct (decide (Z.of_nat j < sm)) as [Hlt | Hge].
  - rewrite lookup_app_l by (rewrite length_drop; unfold n in *; lia).
    rewrite lookup_drop.
    replace (Z.of_nat j - sm) with (Z.of_nat j - sm + n + (-1) * n) by ring.
    rewrite Z_mod_plus_full, Z.mod_small by lia.
    replace (Z.to_nat (Z.of_nat j - sm + n)) with (Z.to_nat (n - sm) + j)%nat
      by lia.
    apply lookup_nth. unfold n in *. lia.
  - rewrite lookup_app_r by (rewrite length_drop; unfold n in *; lia).
    rewrite length_drop, lookup_take_lt by (unfold n in *; lia).
    rewrite Z.mod_small by lia.
    replace (j - (length values - Z.to_nat (n - sm)))%nat
      with (Z.to_nat (Z.of_nat j - sm)) by (unfold n in *; lia).
    apply lookup_nth. unfold n in *. lia.
Qed.

Lemma length_roll {B} (s : Z) (l : list B) : length (Np.roll s l) = length l.
Proof.
  unfold Np.roll. destruct (_ =? 0); [done |].
  rewrite length_app, length_drop, length_take. lia.
Qed.

(** [np.diff] along the stacking axis pairs each row with the next. *)
Lemma diff_rises_map (f : nat -> list Z) (s k : nat) :
  Np.diff_rises (map f (seq s (S k)))
  = map (fun i => Np.rises (f i) (f (S i))) (seq s k).
Proof.
  revert s. induction k as [|k IH]; intros s; [done |].
  cbn [seq map]. rewrite <- IH. reflexivity.
Qed.

(** [np.all] along the stacking axis, column by column. *)
Lemma all_axis0_length (n : nat) (rows : list (list bool)) :
  Forall (fun row => length row = n) rows ->
  length (Np.all_axis0 n rows) = n.
Proof.
  intros Hrows. unfold Np.all_axis0.
  induction Hrows as [|row rows Hrow Hrows IH]; simpl.
  - apply length_replicate.
  - unfold Np.and_rows at 1. rewrite length_zip_with. lia.
Qed.

Lemma all_axis0_lookup (n : nat) (rows : list (list bool)) (j : nat) :
  (j < n)%nat ->
  Forall (fun row => length row = n) rows ->
  Np.all_axis0 n rows !! j
  = Some (forallb (fun row => default false (row !! j)) rows).
Proof.
  intros Hj Hrows. unfold Np.all_axis0.
  induction Hrows as [|row rows Hrow Hrows IH]; simpl.
  - by apply lookup_replicate_2.
  - unfold Np.and_rows at 1. rewrite lookup_zip_with, IH.
    destruct (lookup_lt_is_Some_2 row j) as [b ->]; [lia |]. done.
Qed.

Lemma wall_rise_lengths (sgn : Z) (values : list Z) (rows : list nat) :
  Forall (fun r => length r = length values)
         (map (wall_rise sgn values) rows).
Proof.
  apply Forall_forall. intros r Hr.
  apply list_elem_of_In, in_map_iff in Hr as (i & <- & _).
  unfold wall_rise, Np.rises. rewrite length_zip_with, !length_roll. lia.
Qed.

Lemma concav_length (sgn : Z) (values : list Z) (k : nat) :
  length (concav sgn values (S k)) = length values.
Proof.
  unfold concav, wall. rewrite diff_rises_map.
  apply (all_axis0_length _ (map (wall_rise sgn values) (seq 0 k))),
    wall_rise_lengths.
Qed.

(** The mask [concavP] (for [sgn = 1]) or [concavM] (for [sgn = -1]) at
    bin [j]. *)
Lemma concav_lookup (sgn : Z) (values : list Z) (k j : nat) :
  (j < length values)%nat ->
  concav sgn values (S k) !! j
  = Some (forallb (fun i : nat =>
                     count_at values (Z.of_nat j - sgn * (Z.of_nat i + 1))
                     <? count_at values (Z.of_nat j - sgn * (Z.of_nat i + 2)))
                  (seq 0 k)).
Proof.
  intros Hj. unfold concav, wall. rewrite diff_rises_map.
  assert (Hrow : forall i, wall_rise sgn values i !! j
                 = Some (count_at values (Z.of_nat j - sgn * (Z.of_nat i + 1))
                         <? count_at values
                              (Z.of_nat j - sgn * (Z.of_nat i + 2)))).
  { intros i. unfold wall_rise, Np.rises.
    rewrite lookup_zip_with, !roll_lookup by done. simpl.
    do 3 f_equal. lia. }
  change (Np.all_axis0 (length values)
            (map (wall_rise sgn values) (seq 0 k)) !! j
          = Some (forallb
                    (fun i : nat =>
                       count_at values (Z.of_nat j - sgn * (Z.of_nat i + 1))
                       <? count_at values
                            (Z.of_nat j - sgn * (Z.of_nat i + 2)))
                    (seq 0 k))).
  rewrite (all_axis0_lookup _ _ j Hj (wall_rise_lengths _ _ _)).
  f_equal. induction (seq 0 k) as [|i rest IH]; [done |].
  simpl. by rewrite Hrow, IH.
Qed.

(** The mask [selec] before it is sliced. *)
Lemma selec_lookup (values : list Z) (k j : nat) :
  (j < length values)%nat ->
  Np.and_rows (concav 1 values (S k)) (concav (-1) values (S k)) !! j
  = Some (walls_descend values (S k) j).
Proof.
  intros Hj. unfold Np.and_rows. rewrite lookup_zip_with.
  rewrite !concav_lookup by done.
  simpl. f_equal. unfold walls_descend.
  replace (S k - 1)%nat with k by lia.
  induction (seq 0 k) as [|i rest IH]; [done |].
  cbn [forallb]. rewrite <- IH.
  replace (Z.of_nat j - 1 * (Z.of_nat i + 1)) with (Z.of_nat j - Z.of_nat i - 1)
    by lia.
  replace (Z.of_nat j - 1 * (Z.of_nat i + 2)) with (Z.of_nat j - Z.of_nat i - 2)
    by lia.
  replace (Z.of_nat j - -1 * (Z.of_nat i + 1)) with (Z.of_nat j + Z.of_nat i + 1)
    by lia.
  replace (Z.of_nat j - -1 * (Z.of_nat i + 2)) with (Z.of_nat j + Z.of_nat i + 2)
    by lia.
  destruct (_ <? _), (_ <? _), (forallb _ _), (forallb _ _); done.
Qed.

(** Boolean indexing of one stretch of [base] by the same stretch of
    the mask. *)
Lemma mask_select_stretch (base : list A) (selec : list bool) (a len : nat) :
  (a + len <= length base)%nat -> (a + len <= length selec)%nat ->
  Np.mask_select (take len (drop a base)) (take len (drop a selec))
  = omap (fun j => if default false (selec !! j) then base !! j else None)
         (seq a len).
Proof.
  revert a. induction len as [|len IH]; intros a Hb Hs; [done |].
  destruct (lookup_lt_is_Some_2 base a) as [x Hx]; [lia |].
  destruct (lookup_lt_is_Some_2 selec a) as [b Hb']; [lia |].
  rewrite (drop_S _ _ _ Hx), (drop_S _ _ _ Hb').
  cbn [take seq omap list_omap Np.mask_select].
  rewrite Hb', Hx. fold (@omap list _ nat A). rewrite <- IH by lia.
  by destruct b.
Qed.

Lemma slice_neg_stop {B} (l : list B) (a c : nat) :
  Np.slice (Z.of_nat a) (- Z.of_nat (S c)) l
  = take (length l - S c - a) (drop a l).
Proof.
  unfold Np.slice, Np.slice_bound.
  destruct (Z.of_nat a <? 0) eqn:Ea; [apply Z.ltb_lt in Ea; lia |].
  destruct (- Z.of_nat (S c) <? 0) eqn:Ec; [| apply Z.ltb_ge in Ec; lia].
  destruct (decide (a <= length l)%nat) as [Hle | Hgt].
  - replace (Z.to_nat (Z.min (Z.of_nat a) (Z.of_nat (length l)))) with a by lia.
    f_equal. lia.
  - rewrite !drop_ge by lia. by rewrite !take_nil.
Qed.

(** With at least two neighbours and the bin edges of the histogram as
    [base], [findValley] returns, in order, the left edge of every bin
    [j] from [neighbors - 1] to [len(values) - neighbors - 2] on whose
    two sides the counts descend towards it, the histogram being read
    cyclically; the count of the bin itself is not looked at. *)
Theorem findValley_computes (values : list Z) (base : list A) (k : nat) :
  (2 <= k)%nat ->
  length base = S (length values) ->
  findValley values base (Z.of_nat k)
  = Ok (omap (fun j => if walls_descend values k j then base !! j else None)
             (seq (k - 1) (length values - 2 * k))).
Proof.
  intros Hk Hbase. unfold findValley.
  destruct (Z.of_nat k >? 1) eqn:E;
    [| rewrite Z.gtb_ltb in E; apply Z.ltb_ge in E; lia].
  rewrite Nat2Z.id. clear E.
  destruct k as [|k]; [lia |].
  set (selec := Np.and_rows _ _).
  assert (Hsel : forall j, (j < length values)%nat ->
                           selec !! j = Some (walls_descend values (S k) j)).
  { intros j Hj. by apply selec_lookup. }
  assert (Hlen : length selec = length values).
  { unfold selec, Np.and_rows.
    rewrite length_zip_with, !concav_length. lia. }
  replace (Z.of_nat (S k) - 1) with (Z.of_nat k) by lia.
  replace (- (Z.of_nat (S k) + 1)) with (- Z.of_nat (S (S k))) by lia.
  replace (- (Z.of_nat (S k) + 2)) with (- Z.of_nat (S (S (S k)))) by lia.
  rewrite !slice_neg_stop, Hlen, Hbase.
  replace (S k - 1)%nat with k by lia.
  replace (S (length values) - S (S (S k)) - k)%nat
    with (length values - 2 * S k)%nat by lia.
  replace (length values - S (S k) - k)%nat
    with (length values - 2 * S k)%nat by lia.
  set (len := (length values - 2 * S k)%nat).
  unfold Np.bool_index.
  rewrite !length_take, !length_drop, Hlen, Hbase.
  replace (len `min` (S (length values) - k) =? len `min` (length values - k))%nat
    with true by (symmetry; apply Nat.eqb_eq; lia).
  destruct (decide (len = 0%nat)) as [-> | Hpos]; [done |].
  replace (len `min` (length values - k) =? 0)%nat
    with false by (symmetry; apply Nat.eqb_neq; lia).
  f_equal. rewrite mask_select_stretch by lia.
  apply list_omap_ext, Forall_Forall2_diag, Forall_forall.
  intros j Hj. apply list_elem_of_In, in_seq in Hj.
  rewrite Hsel by lia. reflexivity.
Qed.

End ValleyDetectorProperties.

(** The reading above on the three histograms of the examples: what
    keeps the bins 1, 2, and 3 to 5 is the order of their neighbours. *)
Example walls_descend_examples :
  walls_descend [1; 2; 3; 4; 5] 2 1 = true
  /\ walls_descend [5; 4; 9; 4; 5; 6] 2 2 = true
  /\ walls_descend [9; 7; 5; 3; 1; 3; 5; 7; 9] 2 3 = true.
Proof. repeat split. Qed.

(** C1.  The claim is that [findValley] returns exactly the bins that
    are strict local minima below their [k] neighbours on either side,
    and nothing on a strictly monotonic histogram.  The program
    returns, for [k >= 2], the left edges of the bins whose [k]
    neighbours on each side are in descending order towards the bin,
    the histogram being read cyclically and the count of the bin
    itself not being looked at.  So on the strictly increasing counts
    [1,2,3,4,5] with two neighbours it returns the bin edge [1]; on
    [5,4,9,4,5,6] it returns the edge of the bin holding the local
    maximum [9]; on a single strict V it returns three bins; and with
    one neighbour it raises. *)
Theorem findValley_reports_non_minima :
  (forall (values : list Z) (base : list Q) (k : nat),
      (2 <= k)%nat -> length base = S (length values) ->
      findValley values base (Z.of_nat k)
      = Ok (omap (fun j => if walls_descend values k j then base !! j
                           else None)
                 (seq (k - 1) (length values - 2 * k))))
  /\ findValley [1; 2; 3; 4; 5] [0; 1; 2; 3; 4; 5]%Q 2 = Ok [1%Q]
  /\ findValley [5; 4; 9; 4; 5; 6] [0; 1; 2; 3; 4; 5; 6]%Q 2 = Ok [2%Q]
  /\ findValley [9; 7; 5; 3; 1; 3; 5; 7; 9]
                [0; 1; 2; 3; 4; 5; 6; 7; 8; 9]%Q 2 = Ok [3; 4; 5]%Q
  /\ findValley [9; 7; 5; 3; 1; 3; 5; 7; 9]
                [0; 1; 2; 3; 4; 5; 6; 7; 8; 9]%Q 1 = Raise UnboundLocalError.
Proof.
  split; [intros; by apply findValley_computes |].
  repeat split; vm_compute; reflexivity.
Qed.

(** ** The shadow labeler *)

Section ShadowLabelerProperties.
Context `{Segmentation}.

Lemma py_max_empty : py_max [] = Raise ThresholdNotFound.
Proof. reflexivity. Qed.

Lemma py_max_nonempty x l : exists v, py_max (x :: l) = Ok v.
Proof. simpl. eauto. Qed.

(** C4.  When the valley finder returns the empty set, both labelers,
    [sturge] and [getShadowPolygon], fail with [ThresholdNotFound]:
    the histogram was built, no valley came back, and taking the
    maximum of no valleys raises; no label image is produced. *)
Theorem no_valley_ThresholdNotFound (M : list (list Q)) (sizPix thres : Q) :
  (forall bins values base,
      sturges (inject_Z (Z.of_nat (length (concat M)))) = Ok bins ->
      histogram (concat M) bins = (values, base) ->
      findValley values base 2 = Ok [] ->
      sturge M = Raise ThresholdNotFound)
  /\
  (forall bins values base,
      let mn := inject_Z (Qceiling (inject_Z (shape_prod M) / sizPix)) in
      sturges mn = Ok bins ->
      histogram (concat (label2rgb_avg (slic M mn) M)) bins
        = (values, base) ->
      findValley values base 2 = Ok [] ->
      getShadowPolygon M sizPix thres = Raise ThresholdNotFound).
Proof.
  split.
  - intros bins values base Hb Hh Hv. unfold sturge.
    rewrite Hb. simpl. rewrite Hh, Hv. reflexivity.
  - intros bins values base mn Hb Hh Hv. unfold getShadowPolygon.
    fold mn. rewrite Hb. simpl. rewrite Hh, Hv. reflexivity.
Qed.

End ShadowLabelerProperties.

(** On a constant 2 x 2 image all four pixels fall into the middle one
    of five bins, no valley is found, and both labelers raise. *)
Lemma no_valley_ThresholdNotFound_witness :
  sturge (H := Reference.segmentation) [[1; 1]; [1; 1]]%Q
    = Raise ThresholdNotFound
  /\ getShadowPolygon (H := Reference.segmentation) [[1; 1]; [1; 1]]%Q 1 0
    = Raise ThresholdNotFound.
Proof.
  split.
  - eapply (proj1 (no_valley_ThresholdNotFound [[1; 1]; [1; 1]]%Q 1 0));
      vm_compute; reflexivity.
  - eapply (proj2 (no_valley_ThresholdNotFound [[1; 1]; [1; 1]]%Q 1 0));
      vm_compute; reflexivity.
Defined.


(** ** The raster ridge/cast pairer *)

Section RidgeCastProperties.
Context `{Trig} `{Morphology}.

Lemma fold_min_le (l : list Z) (a : Z) :
  fold_left Z.min l a <= a /\ forall y, y ∈ l -> fold_left Z.min l a <= y.
Proof.
  revert a. induction l as [|x l IH]; intros a; simpl.
  - split; [lia | intros y Hy; inversion Hy].
  - destruct (IH (Z.min a x)) as [Ha Hl]. split; [lia |].
    intros y Hy. apply elem_of_cons in Hy as [-> | Hy]; [lia | auto].
Qed.

Lemma fold_min_elem (l : list Z) (a : Z) :
  fold_left Z.min l a = a \/ fold_left Z.min l a ∈ l.
Proof.
  revert a. induction l as [|x l IH]; intros a; simpl; [by left |].
  destruct (IH (Z.min a x)) as [E | E].
  - rewrite E. destruct (Z.min_spec a x) as [[_ ->] | [_ ->]];
      [by left | right; left].
  - right. by right.
Qed.

Lemma amin_le (l : list Z) (x : Z) : x ∈ l -> Np.amin l <= x.
Proof.
  destruct l as [|a l]; [intros Hx; inversion Hx |].
  intros Hx. simpl. destruct (fold_min_le l a) as [Ha Hl].
  apply elem_of_cons in Hx as [-> | Hx]; auto.
Qed.

Lemma amin_elem (l : list Z) : l ≠ [] -> Np.amin l ∈ l.
Proof.
  destruct l as [|a l]; [done |]. intros _. simpl.
  destruct (fold_min_elem l a) as [-> | E]; [left | by right].
Qed.

(** The selection keeps nothing only when there was no hit. *)
Lemma closest_nil (ridgeI ridgeJ : Z) (hits : list (Z * Z)) :
  closest ridgeI ridgeJ hits = [] <-> hits = [].
Proof.
  split; [| by intros ->].
  unfold closest. case_match eqn:E; [| done].
  intros Hf. destruct hits as [|h hits]; [done | exfalso].
  assert (Hin : Np.amin (map (sqdist ridgeI ridgeJ) (h :: hits))
                ∈ map (sqdist ridgeI ridgeJ) (h :: hits)) by by apply amin_elem.
  apply list_elem_of_fmap in Hin as (c & Hc & Hin).
  eapply (filter_nil_not_elem_of _ _ c); [exact Hf | | exact Hin].
  cbv beta. congruence.
Qed.

(** The first pixel the selection keeps is a hit at minimal distance
    from the ridge pixel, and every hit before it in scan order lies
    strictly farther away. *)
Lemma closest_first_nearest (ridgeI ridgeJ : Z) (hits : list (Z * Z)) :
  hits ≠ [] ->
  exists c rest l1 l2,
    closest ridgeI ridgeJ hits = c :: rest
    /\ hits = l1 ++ c :: l2
    /\ (forall h, h ∈ hits -> sqdist ridgeI ridgeJ c <= sqdist ridgeI ridgeJ h)
    /\ (forall h, h ∈ l1 -> sqdist ridgeI ridgeJ c < sqdist ridgeI ridgeJ h).
Proof.
  intros Hne.
  destruct (closest ridgeI ridgeJ hits) as [|c rest] eqn:Ec;
    [by apply closest_nil in Ec |].
  exists c, rest. unfold closest in Ec. case_match eqn:E.
  - set (d := Np.amin (map (sqdist ridgeI ridgeJ) hits)) in *.
    assert (Hmin : forall h, h ∈ hits -> d <= sqdist ridgeI ridgeJ h).
    { intros h Hh. apply amin_le, list_elem_of_fmap. eauto. }
    assert (Hc : sqdist ridgeI ridgeJ c = d).
    { assert (Hin : c ∈ filter (fun p => sqdist ridgeI ridgeJ p = d) hits)
        by (rewrite Ec; left).
      by apply list_elem_of_filter in Hin as [? _]. }
    destruct (head_filter_Some (fun p => sqdist ridgeI ridgeJ p = d) hits c)
      as (l1 & l2 & -> & Hl1); [by rewrite Ec |].
    exists l1, l2. rewrite Hc. repeat split; [done |].
    intros h Hh. rewrite Forall_forall in Hl1.
    assert (d <= sqdist ridgeI ridgeJ h).
    { apply Hmin, elem_of_app. by left. }
    specialize (Hl1 h Hh). lia.
  - subst hits. exists [], rest. repeat split.
    + intros h Hh. apply Z.ltb_ge in E.
      destruct rest; [| rewrite !length_cons in E; lia].
      apply list_elem_of_singleton in Hh as ->. lia.
    + intros h Hh. inversion Hh.
Qed.

(** What one turn of the loop writes when the rasterised line has a
    receiver pixel on it: the ridge cell receives [x], the nearest
    receiver (the first one in scan order among the nearest) [-x]. *)
Lemma cast_pixel_paired subOrient subAz subWhe m n labImin labJmin
    shadowIdx x ridgeI ridgeJ p0 line subCast :
  filter (fun p => inside m n p = true)
         (cast_line m n ridgeI ridgeJ (Np.at2 0%Q subAz ridgeI ridgeJ))
    = p0 :: line ->
  Np.put_ones m n (Np.zeros2 m n) (p0 :: line) = Ok subCast ->
  cast_hits subOrient subCast subWhe ≠ [] ->
  exists castI castJ l1 l2,
    cast_hits subOrient subCast subWhe = l1 ++ (castI, castJ) :: l2
    /\ (forall h, h ∈ cast_hits subOrient subCast subWhe ->
          sqdist ridgeI ridgeJ (castI, castJ) <= sqdist ridgeI ridgeJ h)
    /\ (forall h, h ∈ l1 ->
          sqdist ridgeI ridgeJ (castI, castJ) < sqdist ridgeI ridgeJ h)
    /\ cast_pixel subOrient subAz subWhe m n labImin labJmin shadowIdx x
                  (ridgeI, ridgeJ)
       = Np.set2 (Np.set2 shadowIdx (ridgeI + labImin) (ridgeJ + labJmin)
                          (Np.int16 x))
                 (castI + labImin) (castJ + labJmin) (Np.int16 (- x)).
Proof.
  intros Hline Hput Hhits.
  destruct (closest_first_nearest ridgeI ridgeJ _ Hhits)
    as ([castI castJ] & rest & l1 & l2 & Hc & Hsplit & Hmin & Hfirst).
  exists castI, castJ, l1, l2. repeat split; try done.
  unfold cast_pixel. rewrite Hline, Hput, Hc. reflexivity.
Qed.

(** A ridge pixel whose line meets no receiver pixel leaves the output
    as it was. *)
Lemma cast_pixel_no_hit subOrient subAz subWhe m n labImin labJmin
    shadowIdx x ridgeI ridgeJ :
  (forall subCast,
      Np.put_ones m n (Np.zeros2 m n)
        (filter (fun p => inside m n p = true)
           (cast_line m n ridgeI ridgeJ (Np.at2 0%Q subAz ridgeI ridgeJ)))
        = Ok subCast ->
      cast_hits subOrient subCast subWhe = []) ->
  cast_pixel subOrient subAz subWhe m n labImin labJmin shadowIdx x
             (ridgeI, ridgeJ) = shadowIdx.
Proof.
  intros Hno. unfold cast_pixel.
  destruct (filter _ _) as [|p0 line]; [done |].
  destruct (Np.put_ones _ _ _ _) as [subCast |] eqn:Hput; [| done].
  rewrite (Hno subCast eq_refl). reflexivity.
Qed.

(** The in-bounds filter lets the row index [m] and the column index
    [n] through, neither of which addresses an [m x n] array. *)
Lemma inside_admits_outside (m n : Z) :
  0 <= m -> 0 <= n ->
  inside m n (m, n) = true
  /\ Np.valid_index m m = false /\ Np.valid_index n n = false.
Proof.
  intros Hm Hn. unfold inside, Np.valid_index. repeat split.
  - repeat (apply andb_true_intro; split); lia.
  - apply andb_false_iff. right. lia.
  - apply andb_false_iff. right. lia.
Qed.

(** Writing a zero into an array of zeros changes nothing. *)
Lemma set2_zeros (mL nL i j : Z) :
  Np.set2 (Np.zeros2 mL nL) i j 0 = Np.zeros2 mL nL.
Proof.
  unfold Np.set2, Np.zeros2.
  apply list_eq. intros k.
  destruct (decide (k = Z.to_nat i)) as [-> | Hne].
  - rewrite list_lookup_alter_eq.
    destruct (replicate (Z.to_nat mL) _ !! Z.to_nat i) as [row |] eqn:E;
      [| done].
    apply lookup_replicate_1 in E as [-> _]. simpl. f_equal.
    apply list_insert_id'. intros Hj. rewrite length_replicate in Hj.
    by apply lookup_replicate_2.
  - by rewrite list_lookup_alter_ne.
Qed.

(** The turn of the loop with the counter at zero leaves an output
    array of zeros as it is, whatever the region and the ridge pixel:
    it writes nothing, or it writes [+0] and [-0]. *)
Lemma cast_pixel_counter_zero subOrient subAz subWhe m n labImin labJmin
    (mL nL : Z) (ridge : Z * Z) :
  cast_pixel subOrient subAz subWhe m n labImin labJmin (Np.zeros2 mL nL)
             0 ridge = Np.zeros2 mL nL.
Proof.
  destruct ridge as [ridgeI ridgeJ]. unfold cast_pixel.
  destruct (filter _ _) as [|p0 line]; [done |].
  destruct (Np.put_ones _ _ _ _) as [subCast |]; [| done].
  destruct (closest _ _ _) as [|[castI castJ] rest]; [done |].
  change (Np.int16 0) with 0. change (Np.int16 (- 0)) with 0.
  by rewrite !set2_zeros.
Qed.

End RidgeCastProperties.

(** C2.  The claim is that every ridge pixel whose cast line meets a
    receiver pixel gets exactly one recorded pair, with the nearest
    receiver.  The pair is recorded by writing the loop counter [x] on
    the ridge cell and [-x] on the receiver cell of an array of zeros,
    and the counter starts at zero: whatever the region, the turn for
    its first ridge pixel leaves an array of zeros as it was.  In the
    3 x 3 region below, lit from azimuth 0, the ridge pixels (1,0) and
    (2,1) have the receivers (0,1) and (0,2) on their lines; the output
    holds the second pair only. *)
Theorem first_ridge_pixel_leaves_no_pair :
  (forall (T : Trig) subOrient subAz subWhe m n labImin labJmin mL nL ridge,
      cast_pixel subOrient subAz subWhe m n labImin labJmin
                 (Np.zeros2 mL nL) 0 ridge = Np.zeros2 mL nL)
  /\
  let subMsk := [[false; true; true]; [true; true; false]; [false; true; false]] in
  let subOrient := [[0; -1; -1]; [1; 0; 0]; [0; 1; 0]] in
  let subAz := replicate 3 (replicate 3 0%Q) in
  let subWhe := Np.nonzero2 subMsk in
  (exists subCast,
      Np.put_ones 3 3 (Np.zeros2 3 3)
        (filter (fun p => inside 3 3 p = true)
                (cast_line (H := Reference.trig) 3 3 1 0 0)) = Ok subCast
      /\ cast_hits subOrient subCast subWhe = [(0, 1)])
  /\ cast_pixel (H := Reference.trig) subOrient subAz subWhe 3 3 0 0
                (Np.zeros2 3 3) 0 (1, 0) = Np.zeros2 3 3
  /\ cast_region (H := Reference.trig) subMsk subOrient subAz 0 0
                 (Np.zeros2 3 3)
     = [[0; 0; -1]; [0; 0; 0]; [0; 1; 0]].
Proof.
  split; [intros; apply cast_pixel_counter_zero |].
  cbv zeta. split; [eexists; split |]; [vm_compute; reflexivity .. |].
  split; vm_compute; reflexivity.
Qed.

(** C9.  The claim is that every index kept by the in-bounds filter
    addresses the [m x n] sub-image, so that the [IndexError] branch is
    never taken.  The filter keeps rows up to [m] and columns up to [n]
    inclusive, and a line with a point in row [m] raises on
    rasterisation.  In a 2 x 5 sub-image, for the ridge pixel (1,4)
    under azimuth -100 degrees, the line passes the filter whole, its
    first point lies in row 2, the assignment raises, and the turn of
    the loop ends without a pair although the receiver (1,1) is on the
    line. *)
Theorem cast_line_leaves_sub_image :
  (forall m n c line,
      0 <= m -> 0 <= c <= n ->
      inside m n (m, c) = true
      /\ Np.put_ones m n (Np.zeros2 m n) ((m, c) :: line) = Raise IndexError)
  /\
  let subOrient := [[0; 0; 0; 0; 0]; [0; -1; 0; 0; 1]] in
  let subAz := [[0; 0; 0; 0; 0]; [0; 0; 0; 0; -100]]%Q in
  let line := filter (fun p => inside 2 5 p = true)
                     (cast_line (H := Reference.trig) 2 5 1 4 (-100)) in
  line = [(2, 0); (1, 1); (1, 2); (1, 3)]
  /\ Np.valid_index 2 2 = false
  /\ Np.put_ones 2 5 (Np.zeros2 2 5) line = Raise IndexError
  /\ cast_pixel (H := Reference.trig) subOrient subAz [(1, 1); (1, 4)] 2 5 0 0
                (Np.zeros2 2 5) 1 (1, 4) = Np.zeros2 2 5.
Proof.
  split.
  - intros m n c line Hm Hc. split.
    + unfold inside. repeat (apply andb_true_intro; split); lia.
    + unfold Np.put_ones. cbn [forallb].
      replace (Np.valid_index m m) with false; [done |].
      symmetry. apply andb_false_iff. right. lia.
  - cbv zeta. repeat split; vm_compute; reflexivity.
Qed.

(** ** The vector pairer *)

Lemma get2_map {A B} (f : A -> B) (a : list (list A)) (i j : Z) :
  Np.get2 (map (map f) a) i j = f <$> Np.get2 a i j.
Proof.
  unfold Np.get2. destruct ((i <? 0) || (j <? 0)); [done |].
  change (map (map f) a) with (map f <$> a). rewrite list_lookup_fmap.
  destruct (a !! Z.to_nat i) as [row |]; simpl; [| done].
  change (map f row) with (f <$> row). by rewrite list_lookup_fmap.
Qed.

(** [np.nonzero] lists cells that hold [True]. *)
Lemma elem_of_nonzero2 (a : list (list bool)) (i j : Z) :
  (i, j) ∈ Np.nonzero2 a -> Np.get2 a i j = Some true.
Proof.
  unfold Np.nonzero2. rewrite list_elem_of_In, in_concat.
  intros (l & Hl & Hij). apply list_elem_of_In in Hl, Hij.
  apply elem_of_lookup_imap in Hl as (k & row & -> & Hrow).
  apply list_elem_of_omap in Hij as ([j' b] & Hjb & Hsome).
  apply elem_of_lookup_imap in Hjb as (k' & b' & [= -> ->] & Hb).
  destruct b'; [| done]. injection Hsome as <- <-.
  unfold Np.get2.
  destruct ((Z.of_nat k <? 0) || (Z.of_nat k' <? 0)) eqn:E.
  { apply orb_true_iff in E as [E | E]; apply Z.ltb_lt in E; lia. }
  rewrite !Nat2Z.id, Hrow. simpl. exact Hb.
Qed.


Lemma elem_of_insert_sorted (x y : Z) (l : list Z) :
  y ∈ Np.insert_sorted x l -> y = x \/ y ∈ l.
Proof.
  induction l as [|z l IH]; simpl.
  - intros Hy. left. by apply list_elem_of_singleton in Hy.
  - destruct (x <? z); [| destruct (x =? z)].
    + intros Hy. apply elem_of_cons in Hy as [-> | Hy]; auto.
    + auto.
    + intros Hy. apply elem_of_cons in Hy as [-> | Hy]; [right; left |].
      destruct (IH Hy); [by left | right; by right].
Qed.

Lemma elem_of_unique (x : Z) (l : list Z) : x ∈ Np.unique l -> x ∈ l.
Proof.
  induction l as [|z l IH]; simpl; [done |].
  intros Hx. apply elem_of_insert_sorted in Hx as [-> | Hx];
    [left | right; auto].
Qed.

Lemma shapes_ref_masked : shapes_masked (H := Reference.regions).
Proof.
  intros labels msk shp val Hin.
  apply list_elem_of_In, list_elem_of_fmap in Hin as (v & [= -> ->] & Hv).
  apply elem_of_unique, list_elem_of_omap in Hv as ([i j] & Hij & Hv).
  exists i, j. split; [by apply elem_of_nonzero2 | exact Hv].
Qed.

Section PolygonCastProperties.
Context `{Trig} `{Morphology} {Polygon : Type} `{!Vectorizer Polygon}.
Hypothesis masked : shapes_masked.

Lemma label_mask_get (labels : list (list Z)) (i j : Z) :
  Np.get2 (label_mask labels) i j = (fun l => 1 <? l) <$> Np.get2 labels i j.
Proof. apply get2_map. Qed.

(** Every feature the loop body runs on carries a label above one. *)
Lemma polygons_above_one (labels : list (list Z)) (shp : Polygon) (val : Z) :
  (shp, val) ∈ polygons labels ->
  1 < val /\ exists i j, Np.get2 labels i j = Some val.
Proof.
  unfold polygons. rewrite list_elem_of_filter, list_elem_of_In.
  intros [_ Hin]. apply masked in Hin as (i & j & Hm & Hl).
  rewrite label_mask_get, Hl in Hm. simpl in Hm.
  split; [| eauto]. injection Hm as Hm. by apply Z.ltb_lt.
Qed.

Lemma polygons_none (labels : list (list Z)) :
  (forall i j l, Np.get2 labels i j = Some l -> l <= 1) ->
  polygons labels = [].
Proof.
  intros Hle. destruct (polygons labels) as [|[shp val] ps] eqn:E; [done |].
  assert (Hin : (shp, val) ∈ polygons labels) by (rewrite E; left).
  apply polygons_above_one in Hin as (Hgt & i & j & Hl).
  apply Hle in Hl. lia.
Qed.

(** C5.  The claim is that every region with a positive label, label 1
    included, is vectorised and has its ridge pixels paired.  The mask
    handed to the vectoriser is [labels > 1], where the raster pairer
    takes [labeling >= 1]: no feature with the value 1 reaches the loop
    body, and a label image whose one shadow region carries label 1
    yields the empty list. *)
Theorem label_one_is_not_vectorized :
  (forall labels (shp : Polygon), (shp, 1) ∉ polygons labels)
  /\ (forall sunZn sunAz geoTransform,
        listOccluderAndCasted [[0; 1; 1]; [0; 1; 1]] sunZn sunAz geoTransform
        = Ok []).
Proof.
  split.
  - intros labels shp Hin. apply polygons_above_one in Hin as [Hgt _]. lia.
  - intros sunZn sunAz geoTransform. unfold listOccluderAndCasted.
    rewrite polygons_none; [reflexivity |].
    intros i j l. unfold Np.get2.
    destruct ((i <? 0) || (j <? 0)); [done |].
    destruct (Z.to_nat i) as [|[|[|?]]]; simpl; try done;
      destruct (Z.to_nat j) as [|[|[|?]]]; simpl; intros [= <-]; lia.
Qed.

(** *** Nearest candidate *)

Lemma dist_lt_false (a b : option Q) : dist_lt a b = false <-> dle b a.
Proof.
  destruct a as [x |], b as [y |]; simpl; try done.
  unfold Qltb. rewrite negb_false_iff. apply Qle_bool_iff.
Qed.

Lemma dist_lt_true (a b : option Q) : dist_lt a b = true -> dle a b.
Proof.
  destruct a as [x |], b as [y |]; simpl; try done.
  unfold Qltb. rewrite negb_true_iff. intros E.
  destruct (Qlt_le_dec x y) as [Hlt | Hle]; [by apply Qlt_le_weak |].
  apply Qle_bool_iff in Hle. congruence.
Qed.

Lemma dle_refl (a : option Q) : dle a a.
Proof. destruct a; simpl; [apply Qle_refl | done]. Qed.

Lemma dle_trans (a b c : option Q) : dle a b -> dle b c -> dle a c.
Proof.
  destruct a, b, c; simpl; try done. apply Qle_trans.
Qed.

Lemma dist_eq_refl (a : option Q) : dist_eq a a = true.
Proof. destruct a; simpl; [by apply Qeq_bool_iff | done]. Qed.

Lemma fold_min_dist_le (ds : list (option Q)) (d : option Q) :
  let r := fold_left (fun acc e => if dist_lt e acc then e else acc) ds d in
  dle r d /\ forall e, e ∈ ds -> dle r e.
Proof.
  revert d. induction ds as [|x ds IH]; intros d; simpl.
  - split; [apply dle_refl | intros e He; inversion He].
  - destruct (IH (if dist_lt x d then x else d)) as [Hd Hds].
    destruct (dist_lt x d) eqn:E.
    + split; [eapply dle_trans; [exact Hd | by apply dist_lt_true] |].
      intros e He. apply elem_of_cons in He as [-> | He]; auto.
    + split; [done |]. intros e He.
      apply elem_of_cons in He as [-> | He]; [| auto].
      eapply dle_trans; [exact Hd | by apply dist_lt_false].
Qed.

Lemma fold_min_dist_elem (ds : list (option Q)) (d : option Q) :
  fold_left (fun acc e => if dist_lt e acc then e else acc) ds d ∈ d :: ds.
Proof.
  revert d. induction ds as [|x ds IH]; intros d; simpl; [left |].
  specialize (IH (if dist_lt x d then x else d)).
  apply elem_of_cons in IH as [-> | IH]; [| by do 2 right].
  destruct (dist_lt x d); [right; left | left].
Qed.

Lemma min_dist_elem (dists : list (option Q)) :
  dists ≠ [] -> min_dist dists ∈ dists.
Proof. destruct dists; [done | intros _; apply fold_min_dist_elem]. Qed.

Lemma min_dist_le (dists : list (option Q)) (e : option Q) :
  e ∈ dists -> dle (min_dist dists) e.
Proof.
  destruct dists as [|d ds]; [intros He; inversion He |].
  intros He. destruct (fold_min_dist_le ds d) as [Hd Hds].
  apply elem_of_cons in He as [-> | He]; auto.
Qed.

Lemma index_of_lookup (v : option Q) (dists : list (option Q)) :
  v ∈ dists ->
  exists d, dists !! index_of v dists = Some d /\ dist_eq d v = true.
Proof.
  induction dists as [|d ds IH]; [intros Hv; inversion Hv |].
  intros Hv. simpl. destruct (dist_eq d v) eqn:E; [by exists d |].
  apply elem_of_cons in Hv as [-> | Hv]; [by rewrite dist_eq_refl in E |].
  exact (IH Hv).
Qed.

Lemma lookup_map {A B} (f : A -> B) (l : list A) (i : nat) :
  map f l !! i = f <$> l !! i.
Proof. change (map f l) with (f <$> l). apply list_lookup_fmap. Qed.

(** The point [cast_record] converts: with a candidate at non-zero
    distance, a nearest one among those. *)
Lemma nearest_nondegenerate (ridgeI ridgeJ : Z) (castEnd : list (Q * Q)) :
  nondegenerate ridgeI ridgeJ castEnd ≠ [] ->
  let dists := map degenerate_to_inf (map (sqdist_to ridgeI ridgeJ) castEnd) in
  let casted := nth (index_of (min_dist dists) dists) castEnd (0, 0)%Q in
  casted ∈ nondegenerate ridgeI ridgeJ castEnd
  /\ forall c, c ∈ nondegenerate ridgeI ridgeJ castEnd ->
       (sqdist_to ridgeI ridgeJ casted <= sqdist_to ridgeI ridgeJ c)%Q.
Proof.
  intros Hne dists casted.
  set (dist c := degenerate_to_inf (sqdist_to ridgeI ridgeJ c)).
  assert (Hd : forall i, dists !! i = dist <$> castEnd !! i).
  { intros i. unfold dists. rewrite !lookup_map. by destruct (castEnd !! i). }
  assert (Hfin : forall c, dist c ≠ None -> dist c = Some (sqdist_to ridgeI ridgeJ c)).
  { intros c. unfold dist, degenerate_to_inf. by destruct (Qeq_bool _ 0). }
  (* some candidate is at a finite distance, so the minimum is finite *)
  destruct (nondegenerate ridgeI ridgeJ castEnd) as [|c0 cs] eqn:Ecs; [done |].
  assert (Hc0 : c0 ∈ nondegenerate ridgeI ridgeJ castEnd) by (rewrite Ecs; left).
  rewrite <- Ecs in *. clear Ecs cs Hne.
  apply list_elem_of_filter in Hc0 as [Hc0 Hin0].
  assert (Hd0 : dist c0 ∈ dists).
  { apply list_elem_of_lookup_1 in Hin0 as [i Hi].
    apply (list_elem_of_lookup_2 _ i). by rewrite Hd, Hi. }
  assert (Hdne : dists ≠ []) by (intros E; rewrite E in Hd0; inversion Hd0).
  destruct (index_of_lookup _ _ (min_dist_elem _ Hdne)) as (d & Hidx & Heq).
  rewrite Hd in Hidx.
  destruct (castEnd !! index_of (min_dist dists) dists) as [c |] eqn:Ec;
    [| done].
  injection Hidx as <-.
  assert (casted = c) as -> by by apply nth_lookup_Some.
  pose proof (min_dist_le _ _ Hd0) as Hle0.
  rewrite (Hfin c0 Hc0) in Hle0.
  destruct (min_dist dists) as [m |] eqn:Em; [| done].
  assert (Hc : dist c ≠ None) by (intros E; by rewrite E in Heq).
  split.
  - apply list_elem_of_filter. split; [exact Hc |].
    by eapply list_elem_of_lookup_2.
  - intros c' Hc'. apply list_elem_of_filter in Hc' as [Hc' Hin'].
    assert (Hd' : dist c' ∈ dists).
    { apply list_elem_of_lookup_1 in Hin' as [i Hi].
      apply (list_elem_of_lookup_2 _ i). by rewrite Hd, Hi. }
    pose proof (min_dist_le _ _ Hd') as Hle. rewrite Em in Hle.
    rewrite (Hfin c' Hc') in Hle. rewrite (Hfin c Hc) in Heq.
    simpl in Heq, Hle. apply Qeq_bool_iff in Heq. by rewrite Heq.
Qed.

(** C6, as amended.  For a ridge pixel whose sun angles can be read and
    whose ray intersects the polygon in the coordinate list [castEnd],
    a record is appended to the output list if and only if [castEnd]
    holds at least two points, the points at zero distance from the
    ridge point counted with the others.  The record carries the
    geocoded ridge pixel and its sun angles, and, when some point lies
    at non-zero distance, the geocoded coordinates of a nearest one
    among those. *)
Theorem cast_vertex_appends_on_two_points
    (sunZn sunAz : list (list Q)) (geoTransform : list Q)
    (polygoon : Polygon) (castList : list CastPair) (ridgeI ridgeJ : Z)
    (az zn : Q) (g : geometry) (castEnd : list (Q * Q)) :
  Np.get2 sunAz ridgeI ridgeJ = Some az ->
  Np.get2 sunZn ridgeI ridgeJ = Some zn ->
  intersection polygoon (cast_ray ridgeI ridgeJ az) = Ok g ->
  flatten_geometry g = Ok castEnd ->
  ((length castEnd < 2)%nat ->
     cast_vertex sunZn sunAz geoTransform (polygoon, castList)
                 (ridgeI, ridgeJ) = Ok (polygoon, castList))
  /\ ((2 <= length castEnd)%nat ->
      exists row,
        cast_vertex sunZn sunAz geoTransform (polygoon, castList)
                    (ridgeI, ridgeJ) = Ok (polygoon, castList ++ [row])
        /\ ridgeX row = geo_x geoTransform (inject_Z ridgeI) (inject_Z ridgeJ)
        /\ ridgeY row = geo_y geoTransform (inject_Z ridgeI) (inject_Z ridgeJ)
        /\ azimuth row = az /\ zenith row = zn
        /\ (nondegenerate ridgeI ridgeJ castEnd ≠ [] ->
            exists c,
              c ∈ nondegenerate ridgeI ridgeJ castEnd
              /\ (forall c', c' ∈ nondegenerate ridgeI ridgeJ castEnd ->
                    (sqdist_to ridgeI ridgeJ c <= sqdist_to ridgeI ridgeJ c')%Q)
              /\ castX row = geo_x geoTransform c.2 c.1
              /\ castY row = geo_y geoTransform c.2 c.1)).
Proof.
  intros Haz Hzn Hint Hflat.
  assert (Hstep : cast_vertex sunZn sunAz geoTransform (polygoon, castList)
                    (ridgeI, ridgeJ)
                  = row ← cast_record castEnd ridgeI ridgeJ az sunZn
                                      geoTransform;
                    match row with
                    | Some row => Ok (polygoon, castList ++ [row])
                    | None => Ok (polygoon, castList)
                    end).
  { unfold cast_vertex. rewrite Haz, Hint. simpl. by rewrite Hflat. }
  rewrite Hstep. unfold cast_record. rewrite Hzn. split.
  - intros Hlen. destruct (1 <? _) eqn:E; [apply Z.ltb_lt in E; lia | done].
  - intros Hlen. destruct (1 <? _) eqn:E; [| apply Z.ltb_ge in E; lia].
    eexists. split; [reflexivity |]. simpl. repeat split.
    intros Hne.
    destruct (nearest_nondegenerate ridgeI ridgeJ castEnd Hne) as [Hin Hmin].
    eexists. split; [exact Hin |]. split; [exact Hmin | by split].
Qed.

End PolygonCastProperties.

(** C6, as stated.  The claim counts the intersection points after
    the zero-distance ones are excluded and asks for at least two.  For
    the ridge point (0,0) and the intersection [(0,0), (3,0)], the
    segment from the ridge point to where the ray leaves the polygon,
    one point is left after the exclusion, and a record is appended
    all the same, with the cast point (3,0). *)
Lemma record_with_one_candidate_left :
  length (nondegenerate 0 0 [(0, 0); (3, 0)]%Q) = 1%nat
  /\ exists row,
      cast_record [(0, 0); (3, 0)]%Q 0 0 0 [[30%Q]] [0; 1; 0; 0; 0; -1]%Q
        = Ok (Some row)
      /\ (castX row == 3)%Q /\ (castY row == 0)%Q.
Proof. split; [reflexivity |]. eexists. split; [reflexivity |]. by split. Qed.

(** On the reference vectoriser: a label image with one region of
    label 1 gives no pair, and the same region under label 2 gives one
    pair per pixel. *)
Lemma label_one_is_not_vectorized_witness :
  (forall labels (shp : list (Z * Z)),
      (shp, 1) ∉ polygons (Vectorizer0 := Reference.regions) labels)
  /\ listOccluderAndCasted (H := Reference.trig)
        (H0 := Reference.morphology) (Vectorizer0 := Reference.regions)
        [[0; 1; 1]; [0; 1; 1]] [] [] [0; 1; 0; 0; 0; -1]%Q = Ok []
  /\ length (match listOccluderAndCasted (H := Reference.trig)
               (H0 := Reference.morphology) (Vectorizer0 := Reference.regions)
               [[0; 2]; [0; 2]] [[0; 0]; [0; 0]]%Q [[0; 0]; [0; 0]]%Q
               [0; 1; 0; 0; 0; -1]%Q with Ok l => l | Raise _ => [] end) = 2%nat.
Proof.
  pose proof (label_one_is_not_vectorized (H := Reference.trig)
                (H0 := Reference.morphology) shapes_ref_masked) as [H1 H2].
  split; [exact H1 |]. split; [apply H2 | vm_compute; reflexivity].
Defined.

(** On the reference vectoriser, for the ridge pixel (0,1) of the
    region of label 2 in a 2 x 2 image: the intersection is the segment
    from (1,0) to (2,0), and the pair is appended. *)
Lemma cast_vertex_appends_on_two_points_witness :
  exists row,
    cast_vertex (H := Reference.trig) (Vectorizer0 := Reference.regions)
      [[30; 30]; [30; 30]]%Q [[0; 0]; [0; 0]]%Q [0; 1; 0; 0; 0; -1]%Q
      ([(0, 1); (1, 1)], []) (0, 1)
    = Ok ([(0, 1); (1, 1)], [row])
    /\ azimuth row = 0%Q /\ zenith row = 30%Q.
Proof.
  destruct (cast_vertex_appends_on_two_points (H := Reference.trig)
              (Vectorizer0 := Reference.regions)
              [[30; 30]; [30; 30]]%Q [[0; 0]; [0; 0]]%Q [0; 1; 0; 0; 0; -1]%Q
              [(0, 1); (1, 1)] [] 0 1 0%Q 30%Q
              (LineString [(1, 0); (2, 0)]%Q) [(1, 0); (2, 0)]%Q
              eq_refl eq_refl eq_refl eq_refl) as [_ Happ].
  destruct (Happ (le_n 2)) as (row & Hrow & _ & _ & Haz & Hzn & _).
  exists row. by repeat split.
Defined.

(** ** The enhancement entry point *)

Section ShadowEnhancerProperties.
Context {Image : Type} `{!Filters Image}.

(** C3, as amended.  [enhance_shadows] calls the mean-shift filter for
    the methods "mean" and "mean-shift", the Kuwahara filter for
    "kuwahara", the iterative median filter for "median", anisotropic
    diffusion for "anistropic" and "anistropic-diffusion" (so spelled),
    and L0 smoothing for "L0" and "L0smoothing", each on the image and
    with the options given or their defaults, and the outcome of that
    call is its own: it returns what the filter returns, raises what
    the filter raises, and does not return when the filter does not.
    For every other method name that does not occur inside "kuwahara"
    or "median" it fails with [InvalidMethod] and calls no filter. *)
Theorem enhance_shadows_dispatch (Shw : Image) (method : string)
    (kwargs : gmap string Q) :
  (method = "mean" \/ method = "mean-shift" ->
     enhance_shadows Shw method kwargs
     = mean_shift_filter Shw (kwarg kwargs "quantile" (1 # 10)))
  /\ (method = "kuwahara" ->
     enhance_shadows Shw method kwargs
     = kuwahara_filter Shw (kwarg kwargs "tsize" 5))
  /\ (method = "median" ->
     enhance_shadows Shw method kwargs
     = iterative_median_filter Shw (kwarg kwargs "tsize" 5)
                               (kwarg kwargs "loop" 50))
  /\ (method = "anistropic" \/ method = "anistropic-diffusion" ->
     enhance_shadows Shw method kwargs
     = anistropic_diffusion_scalar Shw
         (kwarg kwargs "iter" 10) (kwarg kwargs "K" (15 # 100))
         (kwarg kwargs "s" (25 # 100)) (kwarg kwargs "n" 4))
  /\ (method = "L0" \/ method = "L0smoothing" ->
     enhance_shadows Shw method kwargs
     = L0_smoothing Shw (kwarg kwargs "lamb" (2 # 100))
                    (kwarg kwargs "kappa" 2))
  /\ (method ∉ method_names ->
     str_in method "kuwahara" = false ->
     str_in method "median" = false ->
     enhance_shadows Shw method kwargs = Some (Raise InvalidMethod)).
Proof.
  repeat split.
  - by intros [-> | ->].
  - by intros ->.
  - by intros ->.
  - by intros [-> | ->].
  - by intros [-> | ->].
  - intros Hnot Hk Hm. unfold enhance_shadows, method_names in *.
    rewrite Hk, Hm. rewrite !not_elem_of_cons in Hnot.
    rewrite !bool_decide_eq_false_2; [done | ..];
      rewrite !not_elem_of_cons; tauto.
Qed.

End ShadowEnhancerProperties.

(** C3, as stated.  The claim names the methods mean, kuwahara, median,
    anisotropic and L0, and has every other name fail.  The method
    "anisotropic" fails with [InvalidMethod], and "mean-shift", which
    is not among the five, has the mean-shift filter applied. *)
Lemma enhance_shadows_anisotropic_rejected :
  enhance_shadows (Filters0 := Reference.tracing) [] "anisotropic" ∅
    = Some (Raise InvalidMethod)
  /\ enhance_shadows (Filters0 := Reference.tracing) [] "mean-shift" ∅
    = Some (Ok [("mean_shift_filter", [1 # 10])]).
Proof. split; vm_compute; reflexivity. Qed.

(** On the filters that leave a trace: the median filter is called with
    the loop count given, the Kuwahara filter of [ShadowFilters] passes
    the image on for a kernel of five and raises for a kernel of four,
    which [enhance_shadows] then raises too, and "sobel" is no
    method. *)
Lemma enhance_shadows_dispatch_witness :
  enhance_shadows (Filters0 := Reference.tracing) [] "median"
                  {[ "loop" := 3%Q ]}
    = Some (Ok [("iterative_median_filter", [5; 3]%Q)])
  /\ enhance_shadows (Filters0 := Reference.tracing) [] "kuwahara" ∅
    = Some (Ok [("generic_filter", [5%Q])])
  /\ enhance_shadows (Filters0 := Reference.tracing) [] "kuwahara"
                     {[ "tsize" := 4%Q ]}
    = Some (Raise (AssertionError "kernel dimension should be odd"))
  /\ enhance_shadows (Filters0 := Reference.tracing) [] "sobel" ∅
    = Some (Raise InvalidMethod).
Proof.
  split; [| split; [| split]].
  - destruct (enhance_shadows_dispatch (Filters0 := Reference.tracing)
                [] "median" {[ "loop" := 3%Q ]}) as (_ & _ & Hmedian & _).
    apply Hmedian. reflexivity.
  - destruct (enhance_shadows_dispatch (Filters0 := Reference.tracing)
                [] "kuwahara" ∅) as (_ & Hkuwahara & _).
    rewrite Hkuwahara by reflexivity. vm_compute. reflexivity.
  - destruct (enhance_shadows_dispatch (Filters0 := Reference.tracing)
                [] "kuwahara" {[ "tsize" := 4%Q ]}) as (_ & Hkuwahara & _).
    rewrite Hkuwahara by reflexivity. vm_compute. reflexivity.
  - destruct (enhance_shadows_dispatch (Filters0 := Reference.tracing)
                [] "sobel" ∅) as (_ & _ & _ & _ & _ & Hother).
    apply Hother; [| reflexivity | reflexivity].
    unfold method_names. rewrite !not_elem_of_cons.
    repeat split; try discriminate. apply not_elem_of_nil.
Defined.

(** ** The simple Lucas-Kanade estimator *)

Section SimpleOpticalFlowProperties.
Context {Image : Type} `{!LucasKanade Image}.

Lemma fold_raised {S X} (f : S -> X -> result S) (l : list X) (e : exn) :
  fold_left (fun r x => st ← r; f st x) l (Raise e) = Raise e.
Proof. induction l; simpl; auto. Qed.

(** In a turn of the loop on a grid, with [Vgrd] still the tuple of
    line 112, a window with variation ends in an exception: the item
    assignment to [Ugrd] is out of bounds, or the one to [Vgrd] hits
    the tuple. *)
Lemma flow_step_grid (I1 I2 : Image) window_size sigma rows sampleJ
    (U : list (list Q)) (iIdx : nat) :
  let st := (PyArr U, PyTuple [U], PyArr U, PyArr U) in
  flow_step I1 I2 window_size sigma (SArr2 rows) sampleJ st iIdx = Ok st
  \/ exists e, flow_step I1 I2 window_size sigma (SArr2 rows) sampleJ st iIdx
               = Raise e.
Proof.
  intros st. unfold flow_step, st.
  destruct (flat (SArr2 rows) !! iIdx) as [iIm |]; [| eauto].
  destruct (flat sampleJ !! iIdx) as [jIm |]; [| eauto].
  destruct (window_flow _ _ _ _ _ _) as [[nu epsilon] |]; [| by left].
  right. unfold setitem. simpl. repeat case_match; simpl; eauto.
Qed.

Lemma flow_grid_fold (I1 I2 : Image) window_size sigma rows sampleJ
    (U : list (list Q)) (todo : list nat) :
  let st := (PyArr U, PyTuple [U], PyArr U, PyArr U) in
  let r := fold_left
             (fun r iIdx =>
                st ← r;
                flow_step I1 I2 window_size sigma (SArr2 rows) sampleJ st iIdx)
             todo (Ok st) in
  r = Ok st \/ exists e, r = Raise e.
Proof.
  intros st. cbv zeta.
  set (f := fun (r : result flow_state) (iIdx : nat) =>
              st ← r;
              flow_step I1 I2 window_size sigma (SArr2 rows) sampleJ st iIdx).
  induction todo as [|i todo IH]; [by left |].
  cbn [fold_left].
  assert (Hf : f (Ok st) i
               = flow_step I1 I2 window_size sigma (SArr2 rows) sampleJ st i)
    by reflexivity.
  rewrite Hf.
  destruct (flow_step_grid I1 I2 window_size sigma rows sampleJ U i)
    as [E | [e E]]; fold st in E; rewrite E; [exact IH |].
  right. exists e. apply fold_raised.
Qed.

End SimpleOpticalFlowProperties.

(** C8.  The claim is that on a two-dimensional grid of sample points
    the estimator returns four arrays without raising.  Line 112 binds
    [Vgrd] to a tuple holding an array, so on every grid the call
    either raises or returns the initial values with that tuple in
    second place; it never returns four arrays.  On a 1 x 1 grid over
    two 3 x 3 images that differ at the sample point it raises
    [TypeError]; over two equal images it returns the tuple. *)
Theorem grid_flow_never_four_arrays :
  (forall (Image : Type) (LK : LucasKanade Image) (I1 I2 : Image)
          window_size rows sampleJ sigma,
      let r := simple_optical_flow I1 I2 window_size (SArr2 rows)
                                   sampleJ sigma in
      (r = Ok (flow_init (SArr2 rows) (as_array sampleJ))
       \/ exists e, r = Raise e)
      /\ forall U V E1 E2, r <> Ok (PyArr U, PyArr V, PyArr E1, PyArr E2))
  /\ simple_optical_flow (LucasKanade0 := Reference.pointwise)
        [[0; 0; 0]; [0; 0; 0]; [0; 0; 0]]%Q
        [[0; 0; 0]; [0; 1; 0]; [0; 0; 0]]%Q 3
        (SArr2 [[1]]) (SArr2 [[1]]) 0 = Raise TypeError
  /\ simple_optical_flow (LucasKanade0 := Reference.pointwise)
        [[0; 0; 0]; [0; 0; 0]; [0; 0; 0]]%Q
        [[0; 0; 0]; [0; 0; 0]; [0; 0; 0]]%Q 3
        (SArr2 [[1]]) (SArr2 [[1]]) 0
      = Ok (PyArr [[0%Q]], PyTuple [[[0%Q]]], PyArr [[0%Q]], PyArr [[0%Q]]).
Proof.
  split; [| split; vm_compute; reflexivity].
  intros Image LK I1 I2 window_size rows sampleJ sigma r.
  assert (Hr : r = Ok (flow_init (SArr2 rows) (as_array sampleJ))
               \/ exists e, r = Raise e).
  { apply (flow_grid_fold I1 I2 window_size sigma rows (as_array sampleJ)). }
  split; [exact Hr |].
  intros U V E1 E2 Habs. destruct Hr as [Hr | [e Hr]]; rewrite Hr in Habs.
  - discriminate Habs.
  - discriminate Habs.
Qed.

(** ** The Hough estimator *)

Section HoughProperties.
Context {F Image G : Type} `{!HoughNumerics F Image G}.

Lemma elem_of_arange (start stop k : Z) :
  start <= k < stop -> k ∈ Np.arange start stop.
Proof.
  intros Hk. unfold Np.arange. apply list_elem_of_In, in_map_iff.
  exists (Z.to_nat (k - start)). split; [lia |].
  apply in_seq. lia.
Qed.


End HoughProperties.


(** ** The affine estimator *)

Lemma Qltb_lt (x y : Q) : Qltb x y = true <-> (x < y)%Q.
Proof.
  unfold Qltb. rewrite negb_true_iff. split.
  - intros E. destruct (Qlt_le_dec x y) as [Hlt | Hle]; [done |].
    apply Qle_bool_iff in Hle. congruence.
  - intros Hlt. destruct (Qle_bool y x) eqn:E; [| done].
    apply Qle_bool_iff in E. exfalso. by apply (Qlt_not_le x y).
Qed.

Lemma Qltb_ge (x y : Q) : Qltb x y = false <-> (y <= x)%Q.
Proof. unfold Qltb. rewrite negb_false_iff. apply Qle_bool_iff. Qed.

(** [np.where]: the first index it returns is the first [True]. *)
Lemma nonzero_from_nil (i : nat) (mask : list bool) :
  Np.nonzero_from i mask = [] -> forall j, mask !! j = Some true -> False.
Proof.
  revert i. induction mask as [|b mask IH]; intros i Hnil j Hj; [done |].
  simpl in Hnil. destruct b; [done |].
  destruct j as [|j]; [done |]. exact (IH _ Hnil j Hj).
Qed.

Lemma nonzero_from_head (i k : nat) (ks : list nat) (mask : list bool) :
  Np.nonzero_from i mask = k :: ks ->
  (i <= k)%nat /\ mask !! (k - i)%nat = Some true
  /\ forall j, (j < k - i)%nat -> mask !! j = Some true -> False.
Proof.
  revert i. induction mask as [|b mask IH]; intros i Hhd; [done |].
  simpl in Hhd. destruct b.
  - injection Hhd as <- _. rewrite Nat.sub_diag. repeat split; [lia | lia].
  - destruct (IH _ Hhd) as (Hle & Hk & Hfirst).
    replace (k - i)%nat with (S (k - S i)) by lia.
    repeat split; [lia | exact Hk |].
    intros [|j] Hj; [done |]. simpl. apply Hfirst. lia.
Qed.

Lemma slice_drop_last {A} (l : list A) :
  Np.slice 0 (-1) l = take (length l - 1) l.
Proof.
  unfold Np.slice, Np.slice_bound. simpl.
  replace (Z.to_nat (Z.min 0 (Z.of_nat (length l)))) with 0%nat by lia.
  rewrite drop_0. f_equal. lia.
Qed.

(** The residual before position [j], with [1e3] before the first. *)
Lemma lookup_previous (res : list Q) (j : nat) :
  (j < length res)%nat ->
  (1000%Q :: Np.slice 0 (-1) res) !! j = (1000%Q :: res) !! j.
Proof.
  intros Hj. destruct j as [|j]; [done |]. simpl.
  rewrite slice_drop_last. apply lookup_take_lt. lia.
Qed.

Lemma lookup_rise (res : list Q) (j : nat) (b : bool) :
  zip_with (fun r prev => Qltb prev r) res (1000%Q :: Np.slice 0 (-1) res) !! j
    = Some b ->
  exists r prev, res !! j = Some r /\ (1000%Q :: res) !! j = Some prev
                 /\ b = Qltb prev r.
Proof.
  intros Hb. apply lookup_zip_with_Some in Hb as (r & prev & -> & Hr & Hp).
  exists r, prev. repeat split; [done |].
  rewrite <- lookup_previous; [done |]. by eapply lookup_lt_Some.
Qed.

(** The accepted residuals form a prefix of the sequence in which no
    entry lies above its predecessor ([1e3] for the first), and which
    stops at the first entry that does. *)
Lemma accepted_descending_prefix (res : list Q) :
  exists k,
    accepted res = take k res /\ (k <= length res)%nat
    /\ (forall j r prev, (j < k)%nat -> res !! j = Some r ->
          (1000%Q :: res) !! j = Some prev -> (r <= prev)%Q)
    /\ ((k < length res)%nat ->
        exists r prev, res !! k = Some r /\ (1000%Q :: res) !! k = Some prev
                       /\ (prev < r)%Q).
Proof.
  unfold accepted, up_idx, Np.nonzero.
  set (mask := zip_with _ res _).
  assert (Hmask : forall j r prev, res !! j = Some r ->
             (1000%Q :: res) !! j = Some prev ->
             mask !! j = Some (Qltb prev r)).
  { intros j r prev Hr Hp. unfold mask. apply lookup_zip_with_Some.
    exists r, prev. repeat split; [done |].
    rewrite lookup_previous; [done |]. by eapply lookup_lt_Some. }
  destruct (Np.nonzero_from 0 mask) as [|k ks] eqn:E.
  - exists (length res). rewrite take_ge by lia. repeat split; [lia | | lia].
    intros j r prev _ Hr Hp. apply Qltb_ge.
    destruct (Qltb prev r) eqn:Elt; [exfalso | done].
    eapply (nonzero_from_nil _ _ E j). rewrite (Hmask j r prev); congruence.
  - destruct (nonzero_from_head _ _ _ _ E) as (_ & Hk & Hfirst).
    rewrite Nat.sub_0_r in Hk, Hfirst.
    destruct (lookup_rise _ _ _ Hk) as (r & prev & Hr & Hp & Hlt).
    exists k. repeat split.
    + apply Nat.lt_le_incl. by eapply lookup_lt_Some.
    + intros j r' prev' Hj Hr' Hp'. apply Qltb_ge.
      destruct (Qltb prev' r') eqn:Elt; [exfalso | done].
      apply (Hfirst j Hj). rewrite (Hmask j r' prev'); congruence.
    + intros _. exists r, prev. repeat split; [done | done |].
      by apply Qltb_lt.
Qed.

(** Immediate divergence: nothing is accepted exactly when there is no
    iteration or the first residual lies above [1e3]. *)
Lemma accepted_nil (res : list Q) :
  accepted res = [] <-> res = [] \/ exists r, res !! 0%nat = Some r /\ (1000 < r)%Q.
Proof.
  destruct (accepted_descending_prefix res) as (k & -> & Hk & Hdesc & Hstop).
  split.
  - intros Hnil. destruct res as [|r res]; [by left | right].
    destruct k as [|k]; [| done].
    destruct Hstop as (r' & prev & Hr & Hp & Hlt); [simpl; lia |].
    simpl in Hr, Hp. exists r. split; [done |]. congruence.
  - intros [-> | (r & Hr & Hlt)]; [by rewrite take_nil |].
    destruct k as [|k]; [done | exfalso].
    apply (Qlt_not_le _ _ Hlt). by apply (Hdesc 0%nat r 1000%Q); [lia | |].
Qed.

Lemma argmin_from_spec (l : list Q) (best : nat) (vbest : Q) (i : nat) :
  let '(b, v) := argmin_from best vbest i l in
  (b = best /\ v = vbest /\ forall x, x ∈ l -> (vbest <= x)%Q)
  \/ ((i <= b)%nat /\ l !! (b - i)%nat = Some v /\ (v < vbest)%Q
      /\ (forall x, x ∈ l -> (v <= x)%Q)
      /\ forall j y, (j < b - i)%nat -> l !! j = Some y -> (v < y)%Q).
Proof.
  revert best vbest i. induction l as [|x l IH]; intros best vbest i; simpl.
  - left. repeat split. intros x Hx. inversion Hx.
  - destruct (Qltb x vbest) eqn:E.
    + apply Qltb_lt in E. specialize (IH i x (S i)).
      destruct (argmin_from i x (S i) l) as [b v]. right.
      destruct IH as [(-> & -> & Hmin) | (Hle & Hb & Hlt & Hmin & Hfirst)].
      * rewrite Nat.sub_diag. repeat split; [lia | done | |].
        -- intros y Hy. apply elem_of_cons in Hy as [-> | Hy];
             [apply Qle_refl | auto].
        -- intros j y Hj. lia.
      * replace (b - i)%nat with (S (b - S i)) by lia.
        repeat split; [lia | done | by eapply Qlt_trans | |].
        -- intros y Hy. apply elem_of_cons in Hy as [-> | Hy];
             [by apply Qlt_le_weak | auto].
        -- intros [|j] y Hj Hy; simpl in Hy; [congruence |].
           eapply Hfirst; [| exact Hy]. lia.
    + apply Qltb_ge in E. specialize (IH best vbest (S i)).
      destruct (argmin_from best vbest (S i) l) as [b v].
      destruct IH as [(-> & -> & Hmin) | (Hle & Hb & Hlt & Hmin & Hfirst)].
      * left. repeat split. intros y Hy.
        apply elem_of_cons in Hy as [-> | Hy]; auto.
      * right. replace (b - i)%nat with (S (b - S i)) by lia.
        repeat split; [lia | done | done | |].
        -- intros y Hy. apply elem_of_cons in Hy as [-> | Hy]; [| auto].
           apply Qlt_le_weak. by eapply Qlt_le_trans.
        -- intros [|j] y Hj Hy; simpl in Hy.
           ++ injection Hy as <-. by eapply Qlt_le_trans.
           ++ eapply Hfirst; [| exact Hy]. lia.
Qed.

(** [np.argmin] and [np.min]: the position and value of the first
    smallest entry. *)
Lemma argmin_spec (l : list Q) :
  l ≠ [] ->
  let '(i, r) := argmin l in
  l !! i = Some r
  /\ (forall x, x ∈ l -> (r <= x)%Q)
  /\ forall j y, (j < i)%nat -> l !! j = Some y -> (r < y)%Q.
Proof.
  destruct l as [|x l]; [done |]. intros _. unfold argmin.
  pose proof (argmin_from_spec l 0 x 1) as Hspec.
  destruct (argmin_from 0 x 1 l) as [b v].
  destruct Hspec as [(-> & -> & Hmin) | (Hle & Hb & Hlt & Hmin & Hfirst)].
  - repeat split; [| intros j y Hj; lia].
    intros y Hy. apply elem_of_cons in Hy as [-> | Hy];
      [apply Qle_refl | auto].
  - destruct b as [|b]; [lia |]. simpl in Hb. rewrite Nat.sub_0_r in Hb.
    repeat split; [done | |].
    + intros y Hy. apply elem_of_cons in Hy as [-> | Hy];
        [by apply Qlt_le_weak | auto].
    + intros [|j] y Hj Hy; simpl in Hy; [congruence |].
      eapply Hfirst; [| exact Hy]. simpl. lia.
Qed.

Section AffineProperties.
Context {Image : Type} `{!GaussNewton Image}.

(** The loop keeps one row per iteration in [p_stack] and in [res]. *)
Lemma affine_loop_lengths (I1 I2 : Image) (todo : list nat)
    (st st' : affine_state) :
  affine_loop I1 I2 todo st = Ok st' ->
  length (p_stack st') = length (p_stack st)
  /\ length (res st') = length (res st).
Proof.
  revert st. induction todo as [|i todo IH]; intros st; simpl.
  - by intros [= ->].
  - unfold affine_step.
    destruct (refine I1 I2 (p st)) as [|update residual| |e]; simpl.
    + by intros [= ->].
    + intros Hloop. destruct (IH _ Hloop) as [-> ->].
      unfold affine_update. simpl.
      rewrite length_insert. split; [done |].
      destruct residual; [apply length_insert | done].
    + destruct (dp st) as [update|]; simpl; [| done].
      intros Hloop. destruct (IH _ Hloop) as [-> ->].
      unfold affine_update. simpl. by rewrite length_insert.
    + done.
Qed.

(** An exception of the numerical libraries inside the loop is the
    outcome of the call. *)
Lemma affine_loop_raised (I1 I2 : Image) (iteration : nat) (e : exn) :
  affine_loop I1 I2 (seq 0 iteration) (affine_init iteration) = Raise e ->
  affine_optical_flow I1 I2 iteration = Raise e.
Proof. intros Hloop. unfold affine_optical_flow. by rewrite Hloop. Qed.

(** Once the refinement is ill-posed the loop stops, wherever it is
    entered. *)
Lemma affine_loop_ill_posed (I1 I2 : Image) (todo : list nat)
    (st : affine_state) :
  refine I1 I2 (p st) = IllPosed -> affine_loop I1 I2 todo st = Ok st.
Proof.
  intros Hill. destruct todo as [|i todo]; [done |].
  simpl. unfold affine_step. by rewrite Hill.
Qed.

Lemma affine_loop_app (I1 I2 : Image) (l1 l2 : list nat) (st : affine_state) :
  affine_loop I1 I2 (l1 ++ l2) st
  = st' ← affine_loop I1 I2 l1 st; affine_loop I1 I2 l2 st'.
Proof.
  revert st. induction l1 as [|i l1 IH]; intros st; [done |].
  simpl. unfold affine_step.
  destruct (refine I1 I2 (p st)) as [|update residual| |e] eqn:E; simpl.
  - symmetry. by apply affine_loop_ill_posed.
  - apply IH.
  - destruct (dp st) as [update|]; simpl; [apply IH | done].
  - done.
Qed.

(** The loop writes the rows of the iterations it runs and no other. *)
Lemma affine_loop_frame (I1 I2 : Image) (todo : list nat)
    (st st' : affine_state) (j : nat) :
  affine_loop I1 I2 todo st = Ok st' -> j ∉ todo ->
  res st' !! j = res st !! j /\ p_stack st' !! j = p_stack st !! j.
Proof.
  revert st. induction todo as [|i todo IH]; intros st; simpl.
  - by intros [= ->].
  - unfold affine_step.
    destruct (refine I1 I2 (p st)) as [|update residual| |e]; simpl.
    + by intros [= ->].
    + intros Hloop Hj. apply not_elem_of_cons in Hj as [Hji Hj].
      destruct (IH _ Hloop Hj) as [-> ->].
      unfold affine_update. simpl. split.
      * destruct residual; [| done]. by apply list_lookup_insert_ne.
      * by apply list_lookup_insert_ne.
    + destruct (dp st) as [update|]; simpl; [| done].
      intros Hloop Hj. apply not_elem_of_cons in Hj as [Hji Hj].
      destruct (IH _ Hloop Hj) as [-> ->].
      unfold affine_update. simpl. split; [done |].
      by apply list_lookup_insert_ne.
    + done.
Qed.

(** What the loop leaves in the rows of iteration [j]: with [st_j] the
    state in which the loop reaches that iteration, or in which it has
    stopped before it, the parameter row is [p + dp] and the residual
    the one of [lstsq], or zero when none was stored; the rows of an
    iteration that is not carried out are left as they were created,
    zero. *)
Lemma affine_loop_rows (I1 I2 : Image) (iteration j : nat)
    (st : affine_state) :
  affine_loop I1 I2 (seq 0 iteration) (affine_init iteration) = Ok st ->
  (j < iteration)%nat ->
  exists st_j,
    affine_loop I1 I2 (seq 0 j) (affine_init iteration) = Ok st_j
    /\ match refine I1 I2 (p st_j) with
       | IllPosed =>
           st = st_j /\ p_stack st !! j = Some (replicate 6 0%Q)
           /\ res st !! j = Some 0%Q
       | Solved update residual =>
           p_stack st !! j = Some (zip_with Qplus (p st_j) update)
           /\ res st !! j = Some (default 0%Q residual)
       | Passed =>
           exists update,
             dp st_j = Some update
             /\ p_stack st !! j = Some (zip_with Qplus (p st_j) update)
             /\ res st !! j = Some 0%Q
       | Failed _ => False
       end.
Proof.
  intros Hloop Hj.
  replace iteration with (j + S (iteration - S j))%nat in Hloop at 1 by lia.
  rewrite seq_app, affine_loop_app in Hloop.
  destruct (affine_loop I1 I2 (seq 0 j) (affine_init iteration))
    as [st_j|e] eqn:Ej; [| done].
  exists st_j. split; [done |].
  destruct (affine_loop_lengths _ _ _ _ _ Ej) as [Hlp Hlr].
  cbn [affine_init p_stack res] in Hlp, Hlr.
  rewrite length_replicate in Hlp. rewrite length_replicate in Hlr.
  destruct (affine_loop_frame _ _ _ _ _ j Ej) as [Hres0 Hrow0].
  { intros Hin%elem_of_seq. lia. }
  cbn [affine_init p_stack res] in Hres0, Hrow0.
  rewrite lookup_replicate_2 in Hres0 by done.
  rewrite lookup_replicate_2 in Hrow0 by done.
  assert (Hnot : j ∉ seq (S j) (iteration - S j)).
  { intros Hin%elem_of_seq. lia. }
  cbn [mbind result_bind] in Hloop. simpl in Hloop.
  unfold affine_step in Hloop.
  destruct (refine I1 I2 (p st_j)) as [|update residual| |e]; simpl in Hloop.
  - injection Hloop as <-. done.
  - destruct (affine_loop_frame _ _ _ _ _ j Hloop Hnot) as [-> ->].
    unfold affine_update. simpl. split.
    + apply list_lookup_insert_eq. lia.
    + destruct residual as [r|]; simpl; [| done].
      apply list_lookup_insert_eq. lia.
  - destruct (dp st_j) as [update|]; simpl in Hloop; [| done].
    destruct (affine_loop_frame _ _ _ _ _ j Hloop Hnot) as [-> ->].
    unfold affine_update. simpl. exists update. repeat split; [| done].
    apply list_lookup_insert_eq. lia.
  - done.
Qed.

End AffineProperties.

(** C7.  Of a run of [affine_optical_flow] whose loop ends without an
    exception, in the state [st]:
    - the rows of iteration [j] hold the parameters [p + dp] computed
      in that iteration and its residual (zero when [lstsq] gave none),
      and the rows of an iteration that was not carried out, the loop
      having left at [break] before, hold zero parameters and a zero
      residual;
    - when the accepted prefix of the residual rows is empty, the
      identity transform, zero displacement and zero confidence are
      returned, and nothing is raised;
    - otherwise the parameter row at the first smallest residual of the
      accepted prefix is used, rows of iterations that were not carried
      out included.
    So for a pair of images whose first two iterations give the
    residuals 7 and 4 and whose third iteration has fewer than six
    samples left, five iterations being asked for, the residual rows
    end as 7, 4, 0, 0, 0, all of them are accepted, and the function
    returns the identity with zero displacement and zero confidence,
    where the parameters of the iteration of smallest residual, the
    second, give the displacement (2, 0) with residual 4. *)
Theorem affine_selects_rows_never_computed :
  (forall (Image : Type) (GN : GaussNewton Image) (I1 I2 : Image)
          (iteration : nat) (st : affine_state),
      affine_loop I1 I2 (seq 0 iteration) (affine_init iteration) = Ok st ->
      (forall j, (j < iteration)%nat ->
         exists st_j,
           affine_loop I1 I2 (seq 0 j) (affine_init iteration) = Ok st_j
           /\ match refine I1 I2 (p st_j) with
              | IllPosed =>
                  st = st_j /\ p_stack st !! j = Some (replicate 6 0%Q)
                  /\ res st !! j = Some 0%Q
              | Solved update residual =>
                  p_stack st !! j = Some (zip_with Qplus (p st_j) update)
                  /\ res st !! j = Some (default 0%Q residual)
              | Passed =>
                  exists update,
                    dp st_j = Some update
                    /\ p_stack st !! j
                       = Some (zip_with Qplus (p st_j) update)
                    /\ res st !! j = Some 0%Q
              | Failed _ => False
              end)
      /\ (accepted (res st) = [] ->
          affine_optical_flow I1 I2 iteration
          = Ok (0, 0, [[1; 0]; [0; 1]], 0)%Q)
      /\ (accepted (res st) ≠ [] ->
          exists i r row,
            accepted (res st) !! i = Some r /\ res st !! i = Some r
            /\ p_stack st !! i = Some row
            /\ (forall x, x ∈ accepted (res st) -> (r <= x)%Q)
            /\ (forall j y, (j < i)%nat ->
                  accepted (res st) !! j = Some y -> (r < y)%Q)
            /\ affine_optical_flow I1 I2 iteration = from_row row r))
  /\ (exists st,
        affine_loop (GaussNewton0 := Reference.exhausting)
          [7; 4]%Q [0; 0; 0; 0; 1; 0]%Q (seq 0 5) (affine_init 5) = Ok st
        /\ res st = [7; 4; 0; 0; 0]%Q
        /\ p_stack st !! 1%nat = Some [0; 0; 0; 0; 2; 0]%Q
        /\ p_stack st !! 2%nat = Some [0; 0; 0; 0; 0; 0]%Q
        /\ accepted (res st) = [7; 4; 0; 0; 0]%Q)
  /\ affine_optical_flow (GaussNewton0 := Reference.exhausting)
       [7; 4]%Q [0; 0; 0; 0; 1; 0]%Q 5
     = Ok (0, 0, [[1; 0]; [0; 1]], 0)%Q
  /\ from_row [0; 0; 0; 0; 2; 0]%Q 4 = Ok (2, 0, [[1; 0]; [0; 1]], 4)%Q.
Proof.
  split; [| split; [| split]].
  - intros Image GN I1 I2 iteration st Hloop. split; [| split].
    + intros j Hj. by apply affine_loop_rows.
    + intros Hacc. unfold affine_optical_flow, affine_select.
      rewrite Hloop. simpl. by rewrite Hacc.
    + intros Hne. unfold affine_optical_flow, affine_select.
      rewrite Hloop. simpl.
      pose proof (argmin_spec _ Hne) as Hmin.
      destruct (argmin (accepted (res st))) as [i r].
      destruct Hmin as (Hi & Hmin & Hfirst).
      destruct (accepted_descending_prefix (res st)) as (k & Hk & _).
      assert (Hres : res st !! i = Some r).
      { rewrite Hk in Hi. apply lookup_take_Some in Hi as [Hi _]. exact Hi. }
      destruct (affine_loop_lengths _ _ _ _ _ Hloop) as [Hlp Hlr].
      cbn [affine_init p_stack res] in Hlp, Hlr.
      rewrite length_replicate in Hlp. rewrite length_replicate in Hlr.
      assert (Hrow : is_Some (p_stack st !! i)).
      { apply lookup_lt_is_Some. rewrite Hlp, <- Hlr.
        by eapply lookup_lt_Some. }
      destruct Hrow as [row Hrow].
      exists i, r, row. repeat split; try done.
      destruct (accepted (res st)); [done |].
      by rewrite (nth_lookup_Some _ _ _ _ Hrow).
  - eexists. split; [vm_compute; reflexivity |]. by vm_compute.
  - vm_compute. reflexivity.
  - vm_compute. reflexivity.
Qed.

(** * Further properties

    Properties of the same functions that the statements above leave
    open, and of the other functions of the three modules. *)

(** ** The valley detector and the labelers *)

Lemma length_and_rows (a b : list bool) :
  length (Np.and_rows a b) = Nat.min (length a) (length b).
Proof. apply length_zip_with. Qed.

(** X1.  The docstring of [findValley] asks for the vector of central
    values as [base], one per bin.  With a [base] as long as [values]
    and [k >= 2] neighbours, the index vector is one shorter than the
    boolean mask as soon as the histogram has more than [2 k] bins, and
    the function raises [IndexError]; with at most [2 k] bins both are
    empty and it returns no valley. *)
Theorem findValley_bin_centres {A} (values : list Z) (base : list A) (k : nat) :
  (2 <= k)%nat -> length base = length values ->
  findValley values base (Z.of_nat k)
  = if (2 * k <? length values)%nat then Raise IndexError else Ok [].
Proof.
  intros Hk Hlen. unfold findValley.
  destruct (Z.of_nat k >? 1) eqn:E;
    [| rewrite Z.gtb_ltb in E; apply Z.ltb_ge in E; lia].
  rewrite Nat2Z.id.
  replace (Z.of_nat k - 1) with (Z.of_nat (k - 1)) by lia.
  replace (- (Z.of_nat k + 1)) with (- Z.of_nat (S k)) by lia.
  replace (- (Z.of_nat k + 2)) with (- Z.of_nat (S (S k))) by lia.
  rewrite !slice_neg_stop. unfold Np.bool_index.
  rewrite !length_take, !length_drop, length_and_rows.
  destruct k as [|k]; [lia |]. rewrite !concav_length, Hlen.
  destruct (2 * S k <? length values)%nat eqn:En.
  - apply Nat.ltb_lt in En.
    rewrite (proj2 (Nat.eqb_neq _ 0)) by lia.
    by rewrite (proj2 (Nat.eqb_neq _ _)) by lia.
  - apply Nat.ltb_ge in En.
    by rewrite (proj2 (Nat.eqb_eq _ 0)) by lia.
Qed.

Lemma findValley_bin_centres_witness :
  findValley [9; 7; 5; 3; 1; 3; 5; 7; 9] [1; 2; 3; 4; 5; 6; 7; 8; 9]%Q 2
    = Raise IndexError
  /\ findValley [5; 1; 5; 7] [1; 2; 3; 4]%Q 2 = Ok [].
Proof.
  split.
  - exact (findValley_bin_centres [9; 7; 5; 3; 1; 3; 5; 7; 9]
             [1; 2; 3; 4; 5; 6; 7; 8; 9]%Q 2 (le_n 2) eq_refl).
  - exact (findValley_bin_centres [5; 1; 5; 7] [1; 2; 3; 4]%Q 2 (le_n 2)
             eq_refl).
Defined.

Section FewBins.
Context `{Segmentation}.

(** X2.  A histogram of at most four bins has no valley, whatever its
    counts: when [np.histogram] returns at most four counts (and one
    edge more), [sturge] and [getShadowPolygon] fail with the
    [ValueError] of [max] on an empty sequence. *)
Theorem few_bins_give_no_threshold (M : list (list Q)) (sizPix thres : Q) :
  (forall bins values base,
      sturges (inject_Z (Z.of_nat (length (concat M)))) = Ok bins ->
      histogram (concat M) bins = (values, base) ->
      length base = S (length values) -> (length values <= 4)%nat ->
      sturge M = Raise ThresholdNotFound)
  /\
  (forall bins values base,
      let mn := inject_Z (Qceiling (inject_Z (shape_prod M) / sizPix)) in
      sturges mn = Ok bins ->
      histogram (concat (label2rgb_avg (slic M mn) M)) bins
        = (values, base) ->
      length base = S (length values) -> (length values <= 4)%nat ->
      getShadowPolygon M sizPix thres = Raise ThresholdNotFound).
Proof.
  assert (Hnone : forall (values : list Z) (base : list Q),
             length base = S (length values) -> (length values <= 4)%nat ->
             findValley values base 2 = Ok []).
  { intros values base Hb Hv.
    pose proof (findValley_computes values base 2 ltac:(lia) Hb) as Hc.
    change (Z.of_nat 2) with 2 in Hc. rewrite Hc.
    by replace (length values - 2 * 2)%nat with 0%nat by lia. }
  split.
  - intros bins values base Hbins Hhist Hb Hv. unfold sturge.
    rewrite Hbins. simpl. rewrite Hhist, (Hnone _ _ Hb Hv). reflexivity.
  - intros bins values base mn Hbins Hhist Hb Hv. unfold getShadowPolygon.
    fold mn. rewrite Hbins. simpl. rewrite Hhist, (Hnone _ _ Hb Hv).
    reflexivity.
Qed.

End FewBins.

Lemma few_bins_give_no_threshold_witness :
  sturge (H := Reference.segmentation) [[1; 7]]%Q = Raise ThresholdNotFound
  /\ getShadowPolygon (H := Reference.segmentation)
       [[1; 7; 3; 9]; [2; 8; 4; 6]]%Q 4 0 = Raise ThresholdNotFound.
Proof.
  destruct (few_bins_give_no_threshold (H := Reference.segmentation)
              [[1; 7]]%Q 1 0) as [Hs _].
  destruct (few_bins_give_no_threshold (H := Reference.segmentation)
              [[1; 7; 3; 9]; [2; 8; 4; 6]]%Q 4 0) as [_ Hg].
  split.
  - eapply Hs; [reflexivity | vm_compute; reflexivity | reflexivity
               | simpl; lia].
  - eapply Hg; [reflexivity | vm_compute; reflexivity | reflexivity
               | simpl; lia].
Defined.

(** ** The raster pairer *)

Section RidgeCastFrame.
Context `{Trig} `{Morphology}.

Lemma set2_shaped {A} (m n : nat) (a : list (list A)) (i j : Z) (v : A) :
  length a = m /\ Forall (fun row => length row = n) a ->
  length (Np.set2 a i j v) = m
  /\ Forall (fun row => length row = n) (Np.set2 a i j v).
Proof.
  intros [Hm Hn]. split.
  - unfold Np.set2. by rewrite length_alter.
  - unfold Np.set2. apply Forall_alter; [done |].
    intros row _ Hrow. by rewrite length_insert.
Qed.

Lemma cast_pixel_shaped (mL nL : nat) subOrient subAz subWhe m n labImin
    labJmin shadowIdx x ridge :
  length shadowIdx = mL /\ Forall (fun row => length row = nL) shadowIdx ->
  length (cast_pixel subOrient subAz subWhe m n labImin labJmin
                     shadowIdx x ridge) = mL
  /\ Forall (fun row => length row = nL)
            (cast_pixel subOrient subAz subWhe m n labImin labJmin
                        shadowIdx x ridge).
Proof.
  intros Hs. unfold cast_pixel. destruct ridge as [ridgeI ridgeJ].
  destruct (filter _ _) as [|p0 line]; [done |].
  destruct (Np.put_ones _ _ _ _) as [subCast|e]; [| done].
  destruct (closest _ _ _) as [|[castI castJ] rest]; [done |].
  by do 2 apply (set2_shaped mL nL).
Qed.

Lemma fold_left_invariant {S X} (P : S -> Prop) (f : S -> X -> S)
    (l : list X) (s : S) :
  (forall s x, P s -> P (f s x)) -> P s -> P (fold_left f l s).
Proof.
  intros Hf. revert s. induction l as [|x l IH]; intros s Hs; simpl; auto.
Qed.

Lemma cast_region_shaped (mL nL : nat) subMsk subOrient subAz labImin labJmin
    shadowIdx :
  length shadowIdx = mL /\ Forall (fun row => length row = nL) shadowIdx ->
  length (cast_region subMsk subOrient subAz labImin labJmin shadowIdx) = mL
  /\ Forall (fun row => length row = nL)
            (cast_region subMsk subOrient subAz labImin labJmin shadowIdx).
Proof.
  intros Hs. unfold cast_region. destruct (Np.shape2 subMsk) as [m n].
  apply (fold_left_invariant
           (fun a : list (list Z) =>
              length a = mL /\ Forall (fun row => length row = nL) a));
    [| done].
  intros s x. apply cast_pixel_shaped.
Qed.

(** X3.  The array returned by [labelOccluderAndCasted] has the shape of
    [labeling]: as many rows, each as long as the first row of
    [labeling]. *)
Theorem labelOccluderAndCasted_keeps_shape (labeling : list (list Z))
    (sunAz : list (list Q)) :
  length (labelOccluderAndCasted labeling sunAz) = length labeling
  /\ Forall (fun row => length row = length (hd [] labeling))
            (labelOccluderAndCasted labeling sunAz).
Proof.
  unfold labelOccluderAndCasted. cbn [Np.shape2].
  apply (fold_left_invariant
           (fun a : list (list Z) =>
              length a = length labeling
              /\ Forall (fun row => length row = length (hd [] labeling)) a)).
  - intros s i. apply cast_region_shaped.
  - unfold Np.zeros2. rewrite !Nat2Z.id. split.
    + apply length_replicate.
    + apply Forall_replicate, length_replicate.
Qed.

Lemma fold_left_fixed {S X} (f : S -> X -> S) (l : list X) (s : S) :
  (forall x, x ∈ l -> f s x = s) -> fold_left f l s = s.
Proof.
  induction l as [|x l IH]; intros Hf; simpl; [done |].
  rewrite Hf by (left). apply IH. intros y Hy. apply Hf. by right.
Qed.

Lemma get2_nonneg {A} (a : list (list A)) (i j : Z) (x : A) :
  Np.get2 a i j = Some x -> 0 <= i /\ 0 <= j.
Proof.
  unfold Np.get2. destruct (i <? 0) eqn:Ei; [done |].
  destruct (j <? 0) eqn:Ej; [done |].
  apply Z.ltb_ge in Ei, Ej. done.
Qed.

Lemma slice_empty {A} (x : Z) (l : list A) : Np.slice x x l = [].
Proof. unfold Np.slice. by rewrite Z.sub_diag. Qed.

Lemma amin_const (l : list Z) (r : Z) :
  (forall x, x ∈ l -> x = r) -> 0 <= r -> Np.amin l = foldr Z.max 0 l.
Proof.
  intros Hall Hr. destruct l as [|x l]; [done |].
  assert (x = r) as -> by (apply Hall; left).
  assert (Hl : forall y, y ∈ l -> y = r)
    by (intros y Hy; apply Hall; by right).
  clear Hall. simpl.
  assert (Hboth : fold_left Z.min l r = r
                  /\ Z.max r (foldr Z.max 0 l) = r).
  { induction l as [|y l IH]; simpl; [split; [done | lia] |].
    rewrite (Hl y) by left. rewrite Z.min_id.
    destruct IH as [IH1 IH2]; [intros z Hz; apply Hl; by right |].
    split; [done | lia]. }
  destruct Hboth as [Hmin Hmax].
  by rewrite Hmin, Hmax.
Qed.

Lemma nonzero2_empty_rows (a : list (list bool)) :
  Forall (fun row => row = []) a -> Np.nonzero2 a = [].
Proof.
  unfold Np.nonzero2. intros Ha.
  assert (Hg : forall g : nat -> Z,
             concat (imap (fun i row => Np.nonzero_row (g i) row) a) = []).
  { induction Ha as [|row a -> _ IH]; intros g; [done |].
    cbn. apply (IH (fun i => g (S i))). }
  apply (Hg Z.of_nat).
Qed.

Lemma cast_region_empty subMsk subOrient subAz labImin labJmin shadowIdx :
  Np.nonzero2 subMsk = [] ->
  cast_region subMsk subOrient subAz labImin labJmin shadowIdx = shadowIdx.
Proof.
  intros Hnil. unfold cast_region. rewrite Hnil.
  by destruct (Np.shape2 subMsk).
Qed.

(** X4.  The sub-images of a region are cut with the largest row and
    column index of the region as exclusive bounds.  A region all of
    whose pixels lie in one row, or in one column, has an empty
    sub-image (which [binary_erosion] is taken to accept) and no ridge
    pixel: when every labelled region is of that kind,
    [labelOccluderAndCasted] returns zeros. *)
Theorem thin_regions_are_never_paired (labeling : list (list Z))
    (sunAz : list (list Q)) :
  (forall l, l ≠ 0 ->
     (exists r, forall i j, Np.get2 labeling i j = Some l -> i = r)
     \/ (exists c, forall i j, Np.get2 labeling i j = Some l -> j = c)) ->
  labelOccluderAndCasted labeling sunAz
  = Np.zeros2 (Z.of_nat (length labeling))
              (Z.of_nat (length (hd [] labeling))).
Proof.
  intros Hthin. unfold labelOccluderAndCasted. cbn [Np.shape2].
  apply fold_left_fixed. intros l Hl.
  apply list_elem_of_filter in Hl as [Hl0 _].
  set (selec := map (map (fun l0 => l0 =? l)) labeling).
  assert (Hsel : forall i j, (i, j) ∈ Np.nonzero2 selec ->
             Np.get2 labeling i j = Some l /\ 0 <= i /\ 0 <= j).
  { intros i j Hij. apply elem_of_nonzero2 in Hij.
    pose proof (get2_nonneg _ _ _ _ Hij) as Hpos.
    unfold selec in Hij. rewrite get2_map in Hij.
    destruct (Np.get2 labeling i j) as [l'|] eqn:E; [| done].
    simpl in Hij. injection Hij as Hij. apply Z.eqb_eq in Hij. by subst. }
  apply cast_region_empty.
  destruct (Hthin l Hl0) as [[r Hr] | [c Hc]].
  - assert (Hmm : Np.amin (map fst (Np.nonzero2 selec))
                  = foldr Z.max 0 (map fst (Np.nonzero2 selec))).
    { destruct (decide (Np.nonzero2 selec = [])) as [-> | Hne]; [done |].
      assert (exists p, p ∈ Np.nonzero2 selec) as [[i0 j0] Hp].
      { destruct (Np.nonzero2 selec) as [|p ?]; [done | exists p; left]. }
      apply (amin_const _ r).
      - intros x Hx. apply list_elem_of_fmap in Hx as ([i j] & -> & Hij).
        apply Hsel in Hij as [Hij _]. by apply (Hr i j).
      - destruct (Hsel i0 j0 Hp) as (Hg & Hi & _).
        by rewrite <- (Hr i0 j0 Hg). }
    rewrite Hmm. unfold Np.slice2. by rewrite slice_empty.
  - assert (Hmm : Np.amin (map snd (Np.nonzero2 selec))
                  = foldr Z.max 0 (map snd (Np.nonzero2 selec))).
    { destruct (decide (Np.nonzero2 selec = [])) as [-> | Hne]; [done |].
      assert (exists p, p ∈ Np.nonzero2 selec) as [[i0 j0] Hp].
      { destruct (Np.nonzero2 selec) as [|p ?]; [done | exists p; left]. }
      apply (amin_const _ c).
      - intros x Hx. apply list_elem_of_fmap in Hx as ([i j] & -> & Hij).
        apply Hsel in Hij as [Hij _]. by apply (Hc i j).
      - destruct (Hsel i0 j0 Hp) as (Hg & _ & Hj).
        by rewrite <- (Hc i0 j0 Hg). }
    rewrite Hmm. apply nonzero2_empty_rows. unfold Np.slice2.
    apply Forall_forall. intros row Hrow.
    apply list_elem_of_fmap in Hrow as (row' & -> & _). apply slice_empty.
Qed.

End RidgeCastFrame.

Lemma thin_regions_are_never_paired_witness :
  labelOccluderAndCasted (H := Reference.trig) (H0 := Reference.morphology)
    [[1; 1; 2]] [[0; 0; 0]]%Q
  = [[0; 0; 0]].
Proof.
  apply (thin_regions_are_never_paired (H := Reference.trig)
           (H0 := Reference.morphology) [[1; 1; 2]] [[0; 0; 0]]%Q).
  intros l _. left. exists 0. intros i j. unfold Np.get2.
  destruct (i <? 0) eqn:Ei; [done |]. apply Z.ltb_ge in Ei.
  destruct (Z.to_nat i) as [|k] eqn:Ek; [lia |].
  by destruct (j <? 0).
Defined.

Lemma elem_of_zip_map {A B} (f : A -> B) (l : list A) (a : A) (b : B) :
  (a, b) ∈ zip l (map f l) <-> a ∈ l /\ b = f a.
Proof.
  induction l as [|x l IH]; simpl.
  - split; [intros Hin; inversion Hin | intros [Hin _]; inversion Hin].
  - rewrite !elem_of_cons, IH. split.
    + intros [[= -> ->] | [Hin ->]]; auto.
    + intros [[-> | Hin] ->]; auto.
Qed.

Lemma elem_of_zip_map_l {A B} (f : A -> B) (l : list A) (a : A) (b : B) :
  (b, a) ∈ zip (map f l) l <-> a ∈ l /\ b = f a.
Proof.
  induction l as [|x l IH]; simpl.
  - split; [intros Hin; inversion Hin | intros [Hin _]; inversion Hin].
  - rewrite !elem_of_cons, IH. split.
    + intros [[= -> ->] | [Hin ->]]; auto.
    + intros [[-> | Hin] ->]; auto.
Qed.

Lemma elem_of_arange_iff (start stop k : Z) :
  k ∈ Np.arange start stop <-> start <= k < stop.
Proof.
  split; [| apply elem_of_arange].
  unfold Np.arange. intros Hin.
  apply list_elem_of_fmap in Hin as (i & -> & Hi).
  apply elem_of_seq in Hi. lia.
Qed.

Section CastLineAnchor.
Context `{Trig}.

(** X5.  For a sun direction of at most 90 degrees in absolute value
    the cast line is laid through the absolute row (or column) index
    times the slope, not through the ridge pixel: the ridge pixel lies
    on its own cast line exactly when that product rounds to zero. *)
Theorem cast_line_anchor (m n ridgeI ridgeJ : Z) (sunDir : Q) :
  (Qabs sunDir <= 90)%Q ->
  0 <= ridgeI < m -> 0 <= ridgeJ < n ->
  ((ridgeI, ridgeJ) ∈ cast_line m n ridgeI ridgeJ sunDir
   <-> if Qltb (- sin_deg sunDir) (- cos_deg sunDir)
       then Np.round (inject_Z ridgeI * - sin_deg sunDir) = 0
       else Np.round (inject_Z ridgeJ * - cos_deg sunDir) = 0).
Proof.
  intros Hdir HI HJ. unfold cast_line.
  apply Qltb_ge in Hdir. rewrite Hdir.
  destruct (Qltb (- sin_deg sunDir) (- cos_deg sunDir)).
  - rewrite (elem_of_zip_map
               (fun r => Np.round (inject_Z r * - sin_deg sunDir) + ridgeJ)),
      elem_of_arange_iff.
    split; [intros [_ Heq]; lia | intros Heq; split; lia].
  - rewrite (elem_of_zip_map_l
               (fun c => Np.round (inject_Z c * - cos_deg sunDir) + ridgeI)),
      elem_of_arange_iff.
    split; [intros [_ Heq]; lia | intros Heq; split; lia].
Qed.

End CastLineAnchor.

Lemma cast_line_anchor_witness :
  ((1, 1) ∉ cast_line (H := Reference.trig) 3 3 1 1 0)
  /\ cast_line (H := Reference.trig) 3 3 1 1 0 = [(0, 1); (-1, 2)].
Proof.
  split; [| reflexivity].
  intros Hin.
  apply (cast_line_anchor (H := Reference.trig) 3 3 1 1 0) in Hin;
    [discriminate | discriminate | lia | lia].
Defined.

(** ** The vector pairer *)

(** [foldM] runs the body on the elements in turn and stops at the
    first exception. *)
Lemma foldM_cons {A B} (f : A -> B -> result A) (b : B) (l : list B)
    (a : A) :
  foldM f (b :: l) a = a' ← f a b; foldM f l a'.
Proof.
  unfold foldM. simpl. destruct (f a b) as [a'|e]; simpl; [done |].
  apply fold_raised.
Qed.

Lemma foldM_invariant {A B} (P : A -> Prop) (f : A -> B -> result A)
    (l : list B) (a a' : A) :
  (forall a b a', b ∈ l -> P a -> f a b = Ok a' -> P a') ->
  P a -> foldM f l a = Ok a' -> P a'.
Proof.
  revert a. induction l as [|b l IH]; intros a Hf Ha.
  - by intros [= <-].
  - rewrite foldM_cons. destruct (f a b) as [a1|e] eqn:E; [| done]. simpl.
    apply IH.
    + intros a2 b2 a3 Hb. apply Hf. by right.
    + eapply Hf; [left | exact Ha | exact E].
Qed.

Section PolygonCastRecords.
Context `{Trig} `{Morphology} {Polygon : Type} `{!Vectorizer Polygon}.

(** One turn of the loop over the ridge pixels leaves the list as it is
    or appends one record, made from the ridge pixel of that turn. *)
Lemma cast_vertex_cases (sunZn sunAz : list (list Q)) (geoTransform : list Q)
    (polygoon polygoon' : Polygon) (castList castList' : list CastPair)
    (ridgeI ridgeJ : Z) :
  cast_vertex sunZn sunAz geoTransform (polygoon, castList) (ridgeI, ridgeJ)
    = Ok (polygoon', castList') ->
  castList' = castList
  \/ exists row,
       castList' = castList ++ [row]
       /\ ridgeX row = geo_x geoTransform (inject_Z ridgeI) (inject_Z ridgeJ)
       /\ ridgeY row = geo_y geoTransform (inject_Z ridgeI) (inject_Z ridgeJ)
       /\ Np.get2 sunAz ridgeI ridgeJ = Some (azimuth row)
       /\ Np.get2 sunZn ridgeI ridgeJ = Some (zenith row).
Proof.
  unfold cast_vertex.
  destruct (Np.get2 sunAz ridgeI ridgeJ) as [az|] eqn:Eaz;
    [| intros [= _ <-]; by left].
  set (first := match intersection polygoon _ with
                | Raise TopologicalError => _ | _ => _ end).
  destruct first as [[pol g]|e]; simpl; [| done].
  destruct (flatten_geometry g) as [castEnd|e]; simpl; [| done].
  unfold cast_record.
  destruct (1 <? Z.of_nat (length castEnd)); simpl;
    [| intros [= _ <-]; by left].
  destruct (Np.get2 sunZn ridgeI ridgeJ) as [zn|] eqn:Ezn; simpl; [| done].
  intros [= _ <-]. right. eexists. by repeat split.
Qed.

(** X6.  Every record that [listOccluderAndCasted] returns stems from a
    ridge pixel of one of the vectorised polygons: its ridge
    coordinates are the geotransform of that pixel, and its azimuth and
    zenith are the entries of [sunAz] and [sunZn] at that pixel. *)
Theorem every_record_has_its_ridge_pixel (labels : list (list Z))
    (sunZn sunAz : list (list Q)) (geoTransform : list Q)
    (castList : list CastPair) (row : CastPair) :
  listOccluderAndCasted labels sunZn sunAz geoTransform = Ok castList ->
  row ∈ castList ->
  exists (shp : Polygon) val ridgeI ridgeJ,
    (shp, val) ∈ polygons labels
    /\ (ridgeI, ridgeJ)
         ∈ ridge_of labels
             (map (map Np.sign)
                (castOrientation
                   (map (map (fun b : bool => if b then 1%Q else 0%Q))
                        (label_mask labels)) sunAz)) val
    /\ ridgeX row = geo_x geoTransform (inject_Z ridgeI) (inject_Z ridgeJ)
    /\ ridgeY row = geo_y geoTransform (inject_Z ridgeI) (inject_Z ridgeJ)
    /\ Np.get2 sunAz ridgeI ridgeJ = Some (azimuth row)
    /\ Np.get2 sunZn ridgeI ridgeJ = Some (zenith row).
Proof.
  unfold listOccluderAndCasted.
  set (mskOrient := map (map Np.sign) _).
  set (Good := fun row : CastPair =>
         exists (shp : Polygon) val ridgeI ridgeJ,
           (shp, val) ∈ polygons labels
           /\ (ridgeI, ridgeJ) ∈ ridge_of labels mskOrient val
           /\ ridgeX row
              = geo_x geoTransform (inject_Z ridgeI) (inject_Z ridgeJ)
           /\ ridgeY row
              = geo_y geoTransform (inject_Z ridgeI) (inject_Z ridgeJ)
           /\ Np.get2 sunAz ridgeI ridgeJ = Some (azimuth row)
           /\ Np.get2 sunZn ridgeI ridgeJ = Some (zenith row)).
  intros Hrun. revert row.
  change (forall row, row ∈ castList -> Good row).
  eapply (foldM_invariant (fun l => forall row, row ∈ l -> Good row));
    [| | exact Hrun].
  - intros l [shp val] l' Hsv Hl.
    cbn beta iota.
    destruct (foldM (cast_vertex _ _ _) _ _) as [[pol l1]|e] eqn:E; simpl;
      [| done].
    intros [= <-].
    refine (foldM_invariant
              (fun st : Polygon * list CastPair =>
                 forall row, row ∈ st.2 -> Good row)
              _ _ _ (pol, l1) _ Hl E).
    intros [p0 l0] [ridgeI ridgeJ] [p2 l2] Hridge Hl0 Hstep. simpl in *.
    apply cast_vertex_cases in Hstep as [-> | (new & -> & HX & HY & Haz & Hzn)];
      [exact Hl0 |].
    intros row Hrow.
    apply elem_of_app in Hrow as [Hrow | Hrow]; [by apply Hl0 |].
    apply list_elem_of_singleton in Hrow as ->.
    exists shp, val, ridgeI, ridgeJ. by repeat split.
  - intros row Hrow. inversion Hrow.
Qed.

(** X7.  A ridge pixel outside [sunAz] is passed over and leaves polygon
    and list as they are; a ridge pixel inside [sunAz] but outside
    [sunZn] whose intersection holds at least two points raises
    [IndexError]. *)
Theorem sun_angles_out_of_bounds (sunZn sunAz : list (list Q))
    (geoTransform : list Q) (polygoon : Polygon) (castList : list CastPair)
    (ridgeI ridgeJ : Z) :
  (Np.get2 sunAz ridgeI ridgeJ = None ->
     cast_vertex sunZn sunAz geoTransform (polygoon, castList)
                 (ridgeI, ridgeJ) = Ok (polygoon, castList))
  /\ (forall az g castEnd,
        Np.get2 sunAz ridgeI ridgeJ = Some az ->
        Np.get2 sunZn ridgeI ridgeJ = None ->
        intersection polygoon (cast_ray ridgeI ridgeJ az) = Ok g ->
        flatten_geometry g = Ok castEnd ->
        (2 <= length castEnd)%nat ->
        cast_vertex sunZn sunAz geoTransform (polygoon, castList)
                    (ridgeI, ridgeJ) = Raise IndexError).
Proof.
  split.
  - intros Haz. unfold cast_vertex. by rewrite Haz.
  - intros az g castEnd Haz Hzn Hg Hflat Hlen. unfold cast_vertex.
    rewrite Haz, Hg. simpl. rewrite Hflat. simpl. unfold cast_record.
    destruct (1 <? Z.of_nat (length castEnd)) eqn:E;
      [| apply Z.ltb_ge in E; lia].
    by rewrite Hzn.
Qed.

End PolygonCastRecords.

Lemma every_record_has_its_ridge_pixel_witness :
  exists castList row (shp : list (Z * Z)) val ridgeI ridgeJ,
    listOccluderAndCasted (H := Reference.trig) (H0 := Reference.morphology)
      (Vectorizer0 := Reference.regions)
      [[0; 2]; [0; 2]] [[30; 30]; [30; 30]]%Q [[0; 0]; [0; 0]]%Q
      [0; 1; 0; 0; 0; -1]%Q = Ok castList
    /\ row ∈ castList
    /\ (shp, val) ∈ polygons (Vectorizer0 := Reference.regions)
                      [[0; 2]; [0; 2]]
    /\ Np.get2 [[0; 0]; [0; 0]]%Q ridgeI ridgeJ = Some (azimuth row)
    /\ Np.get2 [[30; 30]; [30; 30]]%Q ridgeI ridgeJ = Some (zenith row).
Proof.
  assert (Hrun : exists l, listOccluderAndCasted (H := Reference.trig)
             (H0 := Reference.morphology) (Vectorizer0 := Reference.regions)
             [[0; 2]; [0; 2]] [[30; 30]; [30; 30]]%Q [[0; 0]; [0; 0]]%Q
             [0; 1; 0; 0; 0; -1]%Q = Ok l /\ exists r l', l = r :: l').
  { eexists. split; [vm_compute; reflexivity |]. by eexists _, _. }
  destruct Hrun as (l & Hrun & r & l' & ->).
  destruct (every_record_has_its_ridge_pixel (H := Reference.trig)
              (H0 := Reference.morphology) (Vectorizer0 := Reference.regions)
              _ _ _ _ _ r Hrun ltac:(left))
    as (shp & val & ridgeI & ridgeJ & Hp & _ & _ & _ & Haz & Hzn).
  exists (r :: l'), r, shp, val, ridgeI, ridgeJ.
  repeat split; [exact Hrun | left | exact Hp | exact Haz | exact Hzn].
Defined.

(** ** The enhancement entry point and the filters *)

(** [str_in] is the substring test. *)
Lemma prefix_spec (a b : string) :
  String.prefix a b = true <-> exists post, b = (a +:+ post)%string.
Proof.
  revert b. induction a as [|c a IH]; intros b.
  - split; [intros _; by exists b | intros _; by destruct b].
  - destruct b as [|c' b]; simpl;
      [split; [done | intros [post Hp]; done] |].
    destruct (Ascii.ascii_dec c c') as [<- | Hne].
    + rewrite IH. split; intros [post Hp]; exists post; [by rewrite Hp |].
      by injection Hp.
    + split; [done | intros [post Hp]]. injection Hp as Hc _. by destruct Hne.
Qed.

Lemma str_in_spec (a b : string) :
  str_in a b = true
  <-> exists pre post, b = (pre +:+ a +:+ post)%string.
Proof.
  induction b as [|c b IH]; cbn [str_in].
  - rewrite orb_false_r, prefix_spec. split.
    + intros [post Hp]. by exists EmptyString, post.
    + intros (pre & post & Hp). destruct pre; [by exists post | done].
  - rewrite orb_true_iff, prefix_spec, IH. split.
    + intros [[post Hp] | (pre & post & Hp)].
      * by exists EmptyString, post.
      * exists (String c pre), post. by rewrite Hp.
    + intros (pre & post & Hp). destruct pre as [|c' pre].
      * left. by exists post.
      * right. exists pre, post. by injection Hp.
Qed.

Section SubstringDispatch.
Context {Image : Type} `{!Filters Image}.

(** X8.  The tests [method in ('kuwahara')] and [method in ('median')]
    are substring tests.  For every method name that occurs inside
    "kuwahara", the empty name included, [enhance_shadows] calls the
    Kuwahara filter, and for every name that occurs inside "median"
    but not inside "kuwahara" the iterative median filter; the outcome
    of that call, a value or an exception, is the outcome of
    [enhance_shadows]. *)
Theorem enhance_shadows_accepts_substrings (Shw : Image) (method : string)
    (kwargs : gmap string Q) :
  ((exists pre post, "kuwahara" = (pre +:+ method +:+ post)%string) ->
     enhance_shadows Shw method kwargs
     = kuwahara_filter Shw (kwarg kwargs "tsize" 5))
  /\ ((exists pre post, "median" = (pre +:+ method +:+ post)%string) ->
      ~ (exists pre post, "kuwahara" = (pre +:+ method +:+ post)%string) ->
      enhance_shadows Shw method kwargs
      = iterative_median_filter Shw (kwarg kwargs "tsize" 5)
                                (kwarg kwargs "loop" 50)).
Proof.
  split.
  - intros Hsub. apply str_in_spec in Hsub. unfold enhance_shadows.
    destruct (bool_decide (method ∈ ["mean"; "mean-shift"])) eqn:E.
    + apply bool_decide_eq_true in E.
      rewrite !elem_of_cons in E.
      destruct E as [-> | [-> | E]]; [done | done | inversion E].
    + by rewrite Hsub.
  - intros Hsub Hnot. apply str_in_spec in Hsub. unfold enhance_shadows.
    destruct (bool_decide (method ∈ ["mean"; "mean-shift"])) eqn:E.
    + apply bool_decide_eq_true in E.
      rewrite !elem_of_cons in E.
      destruct E as [-> | [-> | E]]; [done | done | inversion E].
    + destruct (str_in method "kuwahara") eqn:Ek.
      * destruct Hnot. by apply str_in_spec.
      * by rewrite Hsub.
Qed.

End SubstringDispatch.

(** On the filters that leave a trace: the empty name and "a" reach
    the Kuwahara filter of [ShadowFilters], which passes the image on
    for the default kernel and raises for a kernel of two, and "me"
    reaches the median filter. *)
Lemma enhance_shadows_accepts_substrings_witness :
  enhance_shadows (Filters0 := Reference.tracing) [] "" ∅
    = Some (Ok [("generic_filter", [5%Q])])
  /\ enhance_shadows (Filters0 := Reference.tracing) [] "a"
                     {[ "tsize" := 2%Q ]}
     = Some (Raise (AssertionError "kernel dimension should be odd"))
  /\ enhance_shadows (Filters0 := Reference.tracing) [] "me" ∅
     = Some (Ok [("iterative_median_filter", [5; 50]%Q)]).
Proof.
  destruct (enhance_shadows_accepts_substrings
              (Filters0 := Reference.tracing) [] "" ∅) as [Hempty _].
  destruct (enhance_shadows_accepts_substrings
              (Filters0 := Reference.tracing) [] "a" {[ "tsize" := 2%Q ]})
    as [Ha _].
  destruct (enhance_shadows_accepts_substrings
              (Filters0 := Reference.tracing) [] "me" ∅) as [_ Hme].
  split; [| split].
  - rewrite Hempty by (by exists "", "kuwahara"). vm_compute. reflexivity.
  - rewrite Ha by (by exists "kuw", "hara"). vm_compute. reflexivity.
  - apply Hme; [by exists "", "dian" |].
    intros Hsub. apply str_in_spec in Hsub. discriminate.
Defined.

Lemma foldM_app {A B} (f : A -> B -> result A) (l1 l2 : list B) (a : A) :
  foldM f (l1 ++ l2) a = a' ← foldM f l1 a; foldM f l2 a'.
Proof.
  revert a. induction l1 as [|b l1 IH]; intros a; [done |].
  rewrite <- app_comm_cons, !foldM_cons.
  destruct (f a b) as [a1|e]; simpl; [apply IH | done].
Qed.

Lemma foldM_same_length {A B} (g : A -> result A) (l1 l2 : list B) (a : A) :
  length l1 = length l2 ->
  foldM (fun x _ => g x) l1 a = foldM (fun x _ => g x) l2 a.
Proof.
  revert l2 a. induction l1 as [|b1 l1 IH]; intros [|b2 l2] a Hlen;
    try done.
  rewrite !foldM_cons. destruct (g a) as [a1|e]; simpl; [| done].
  apply IH. simpl in Hlen. lia.
Qed.

Lemma length_arange (start stop : Z) :
  length (Np.arange start stop) = Z.to_nat (stop - start).
Proof. unfold Np.arange. by rewrite length_map, length_seq. Qed.

Section MedianProperties.
Context {Image : Type} `{!NdImage Image}.

Lemma foldM_constant {B} (r : result Image) (l : list B) (a : Image) :
  foldM (fun _ _ => r) l a = match l with [] => Ok a | _ :: _ => r end.
Proof.
  destruct l as [|b l]; [done |]. rewrite foldM_cons.
  destruct r as [a1|e]; simpl; [| done].
  induction l as [|b' l IH]; [done |]. by rewrite foldM_cons.
Qed.

(** X9.  [medianFilShadows] does not iterate: for every [loop >= 1] it
    returns [median_filter(M, siz)], filtered once, and for [loop <= 0]
    it returns [M]; it agrees with [iterative_median_filter] run for
    [min(loop, 1)] turns. *)
Theorem medianFilShadows_filters_once (M : Image) (siz loop : Z) :
  medianFilShadows M siz loop
  = (if 0 <? loop then median_filter M siz else Ok M)
  /\ medianFilShadows M siz loop
     = ShadowFilters.iterative_median_filter M siz (Z.min loop 1).
Proof.
  assert (Hfirst : medianFilShadows M siz loop
                   = if 0 <? loop then median_filter M siz else Ok M).
  { unfold medianFilShadows. rewrite foldM_constant.
    pose proof (length_arange 0 loop) as Hlen.
    destruct (0 <? loop) eqn:E.
    - apply Z.ltb_lt in E.
      destruct (Np.arange 0 loop); [simpl in Hlen; lia | done].
    - apply Z.ltb_ge in E.
      destruct (Np.arange 0 loop); [done | simpl in Hlen; lia]. }
  split; [exact Hfirst |]. rewrite Hfirst.
  unfold ShadowFilters.iterative_median_filter.
  destruct (0 <? loop) eqn:E.
  - apply Z.ltb_lt in E. rewrite Z.min_r by lia.
    change (Np.arange 0 1) with [0]. rewrite foldM_cons.
    by destruct (median_filter M siz).
  - apply Z.ltb_ge in E.
    pose proof (length_arange 0 (Z.min loop 1)) as Hlen.
    destruct (Np.arange 0 (Z.min loop 1)); [done | simpl in Hlen; lia].
Qed.

(** X10.  [iterative_median_filter] with [a + b] turns is
    [iterative_median_filter] with [b] turns on the result of [a]
    turns, an exception of the first being the outcome. *)
Theorem iterative_median_filter_composes (I : Image) (tsize a b : Z) :
  0 <= a -> 0 <= b ->
  ShadowFilters.iterative_median_filter I tsize (a + b)
  = I' ← ShadowFilters.iterative_median_filter I tsize a;
    ShadowFilters.iterative_median_filter I' tsize b.
Proof.
  intros Ha Hb. unfold ShadowFilters.iterative_median_filter.
  rewrite <- foldM_app. apply foldM_same_length.
  rewrite length_app, !length_arange. lia.
Qed.

End MedianProperties.

Lemma iterative_median_filter_composes_witness :
  ShadowFilters.iterative_median_filter (NdImage0 := Reference.rows)
    [1; 9; 2; 8; 3]%Q 3 (1 + 2)
  = I' ← ShadowFilters.iterative_median_filter (NdImage0 := Reference.rows)
           [1; 9; 2; 8; 3]%Q 3 1;
    ShadowFilters.iterative_median_filter (NdImage0 := Reference.rows) I' 3 2.
Proof.
  apply (iterative_median_filter_composes (NdImage0 := Reference.rows)); lia.
Defined.

Lemma medianFilShadows_filters_once_witness :
  medianFilShadows (NdImage0 := Reference.rows) [1; 9; 2; 8; 3]%Q 3 50
  = Ok [1; 2; 8; 3; 3]%Q
  /\ ShadowFilters.iterative_median_filter (NdImage0 := Reference.rows)
       [1; 9; 2; 8; 3]%Q 3 50 = Ok [1; 2; 3; 3; 3]%Q.
Proof.
  split.
  - rewrite (proj1 (medianFilShadows_filters_once
                      (NdImage0 := Reference.rows) [1; 9; 2; 8; 3]%Q 3 50)).
    reflexivity.
  - vm_compute. reflexivity.
Defined.

(** Slices that run to the end, and slices that stop short of it. *)
Lemma slice_from {A} (i : nat) (l : list A) :
  (i <= length l)%nat ->
  Np.slice (Z.of_nat i) (Z.of_nat (length l)) l = take (length l - i) (drop i l).
Proof.
  intros Hi. unfold Np.slice, Np.slice_bound.
  destruct (Z.of_nat i <? 0) eqn:Ea; [apply Z.ltb_lt in Ea; lia |].
  destruct (Z.of_nat (length l) <? 0) eqn:Eb; [apply Z.ltb_lt in Eb; lia |].
  f_equal; [lia | f_equal; lia].
Qed.

Lemma slice_until {A} (c : nat) (l : list A) :
  (0 < c <= length l)%nat ->
  Np.slice 0 (- Z.of_nat c) l = take (length l - c) l.
Proof.
  intros Hc. destruct c as [|c]; [lia |].
  change 0 with (Z.of_nat 0). rewrite (slice_neg_stop l 0 c).
  rewrite drop_0. f_equal. lia.
Qed.

Section Kuwahara.
Context {F : Type} `{!Statistics F}.

Lemma reshape_square (n : nat) (buffer : list F) :
  length buffer = (n * n)%nat ->
  ShadowFilters.reshape (Z.of_nat n) buffer
  = Ok (map (fun i => take n (drop (i * n) buffer)) (seq 0 n)).
Proof.
  intros Hlen. unfold ShadowFilters.reshape.
  rewrite Hlen, Nat2Z.inj_mul, Z.eqb_refl. f_equal.
  unfold Np.arange. rewrite map_map, Z.sub_0_r, !Nat2Z.id.
  apply map_ext. intros i. f_equal; f_equal. lia.
Qed.

(** X11.  On a window of [n x n] entries, given row by row, [kuwahara]
    returns [np.mean] of one of four blocks of the window, the one at
    the position [np.argmin] gives for the four values of [np.var], in
    the order A, B, C, D of the blocks.  For [n >= 3] the blocks are
    squares of side [n - (n - 1) / 2] in the four corners of the window:
    A starts at row and column 0, B at row [(n - 1) / 2] and column 0,
    C at row 0 and column [(n - 1) / 2], D at row and column
    [(n - 1) / 2].  For [n <= 2] the blocks A and C have no rows, B has
    [n] rows without entries, and D is the window.  [np.argmin] is
    taken to answer with a position of its argument. *)
Theorem kuwahara_returns_block_mean (buffer : list F) (n : nat) :
  (forall l : list F, l ≠ [] -> (np_argmin l < length l)%nat) ->
  length buffer = (n * n)%nat ->
  let rows := map (fun i => take n (drop (i * n) buffer)) (seq 0 n) in
  let o := ((n - 1) / 2)%nat in
  let k := (n - o)%nat in
  let block i j :=
    map (fun row => take k (drop j row)) (take k (drop i rows)) in
  let blocks := if (3 <=? n)%nat
                then [block 0 0; block o 0; block 0 o; block o o]%nat
                else [[]; replicate n []; []; rows] in
  exists b, blocks !! np_argmin (map np_var blocks) = Some b
            /\ ShadowFilters.kuwahara buffer = Ok (np_mean b).
Proof.
  intros Hidx Hlen rows o k block blocks.
  assert (Hrow : Forall (fun row => length row = n) rows).
  { apply Forall_forall. intros row Hin.
    apply list_elem_of_fmap in Hin as (i & -> & Hi). apply elem_of_seq in Hi.
    rewrite length_take, length_drop. nia. }
  assert (Hrows : length rows = n).
  { unfold rows. by rewrite length_map, length_seq. }
  unfold ShadowFilters.kuwahara.
  rewrite Hlen, Nat2Z.inj_mul, Z.sqrt_square by lia.
  rewrite (reshape_square n buffer Hlen). fold rows. cbn [mbind result_bind].
  set (d_sub := (Z.of_nat n - 1) / 2 + 1).
  assert (Hpick : forall a b c d : list (list F),
             exists blk, [a; b; c; d] !! np_argmin (map np_var [a; b; c; d])
                         = Some blk
                         /\ match [np_mean a; np_mean b; np_mean c; np_mean d]
                                  !! np_argmin [np_var a; np_var b;
                                                np_var c; np_var d] with
                            | Some bar => Ok bar
                            | None => Raise IndexError
                            end = Ok (np_mean blk)).
  { intros a b c d. cbn [map].
    pose proof (Hidx [np_var a; np_var b; np_var c; np_var d] ltac:(done))
      as Hlt.
    destruct (np_argmin _) as [|[|[|[|i]]]]; simpl in Hlt; [| | | | lia];
      eexists; (split; [reflexivity | reflexivity]). }
  destruct (3 <=? n)%nat eqn:En.
  - apply Nat.leb_le in En.
    assert (Ho : Z.of_nat o = d_sub - 1).
    { unfold o, d_sub. rewrite Nat2Z.inj_div, Nat2Z.inj_sub by lia.
      change (Z.of_nat 2) with 2. change (Z.of_nat 1) with 1. lia. }
    assert (Hon : (2 * o < n)%nat).
    { unfold o. pose proof (Nat.div_mod_eq (n - 1) 2).
      pose proof (Nat.mod_upper_bound (n - 1) 2). lia. }
    assert (Ho1 : (1 <= o)%nat).
    { unfold o. apply (Nat.div_le_lower_bound (n - 1) 2 1); lia. }
    assert (Hlo : forall A (l : list A), length l = n ->
               Np.slice 0 (- d_sub + 1) l = take k (drop 0 l)).
    { intros A l Hl. replace (- d_sub + 1) with (- Z.of_nat o) by lia.
      rewrite slice_until by lia. rewrite Hl. reflexivity. }
    assert (Hhi : forall A (l : list A), length l = n ->
               Np.slice (d_sub - 1) (Z.of_nat n) l = take k (drop o l)).
    { intros A l Hl. rewrite <- Ho, <- Hl, slice_from by lia.
      by rewrite Hl. }
    assert (Hcols : forall (g : list F -> list F) (h : list F -> list F)
                           (l : list (list F)),
               (forall row, length row = n -> g row = h row) ->
               Forall (fun row => length row = n) l -> map g l = map h l).
    { intros g h l Hgh Hall. induction Hall as [|row l Hr Hl IH]; [done |].
      simpl. by rewrite IH, Hgh. }
    assert (Hsub : forall i, Forall (fun row => length row = n)
                               (take k (drop i rows))).
    { intros i. eapply Forall_take, Forall_drop, Hrow. }
    assert (Ha : Np.slice2 0 (- d_sub + 1) 0 (- d_sub + 1) rows = block 0%nat 0%nat).
    { unfold Np.slice2, block. rewrite (Hlo _ rows Hrows).
      apply Hcols; [| apply Hsub]. intros row Hr. by apply Hlo. }
    assert (Hb : Np.slice2 (d_sub - 1) (Z.of_nat n) 0 (- d_sub + 1) rows
                 = block o 0%nat).
    { unfold Np.slice2, block. rewrite (Hhi _ rows Hrows).
      apply Hcols; [| apply Hsub]. intros row Hr. by apply Hlo. }
    assert (Hc : Np.slice2 0 (- d_sub + 1) (d_sub - 1) (Z.of_nat n) rows
                 = block 0%nat o).
    { unfold Np.slice2, block. rewrite (Hlo _ rows Hrows).
      apply Hcols; [| apply Hsub]. intros row Hr. by apply Hhi. }
    assert (Hd : Np.slice2 (d_sub - 1) (Z.of_nat n) (d_sub - 1) (Z.of_nat n) rows
                 = block o o).
    { unfold Np.slice2, block. rewrite (Hhi _ rows Hrows).
      apply Hcols; [| apply Hsub]. intros row Hr. by apply Hhi. }
    rewrite Ha, Hb, Hc, Hd. apply Hpick.
  - apply Nat.leb_gt in En.
    assert (Hcase : Np.slice2 0 (- d_sub + 1) 0 (- d_sub + 1) rows = []
                    /\ Np.slice2 (d_sub - 1) (Z.of_nat n) 0 (- d_sub + 1) rows
                       = replicate n []
                    /\ Np.slice2 0 (- d_sub + 1) (d_sub - 1) (Z.of_nat n) rows
                       = []
                    /\ Np.slice2 (d_sub - 1) (Z.of_nat n) (d_sub - 1)
                                 (Z.of_nat n) rows = rows).
    { destruct n as [|[|[|n]]]; [| | | lia].
      - by destruct buffer.
      - by destruct buffer as [|x [|]].
      - by destruct buffer as [|x1 [|x2 [|x3 [|x4 [|]]]]]. }
    destruct Hcase as (-> & -> & -> & ->). apply Hpick.
Qed.

End Kuwahara.

(** The stand-in for [np.argmin] answers with a position of its
    argument. *)
Lemma nan_index_None (l : list (option Q)) :
  Reference.nan_index l = None -> length (omap id l) = length l.
Proof.
  induction l as [|[x|] l IH]; simpl; [done | | done].
  intros E. destruct (Reference.nan_index l); [done |].
  cbn. f_equal. by apply IH.
Qed.

Lemma argmin_ref_in_range (l : list (option Q)) :
  l ≠ [] -> (Reference.argmin_ref l < length l)%nat.
Proof.
  intros Hne. unfold Reference.argmin_ref.
  destruct (Reference.nan_index l) as [i|] eqn:E.
  - clear Hne. revert i E. induction l as [|[x|] l IH]; intros i E; [done | |].
    + simpl in E. destruct (Reference.nan_index l) as [j|]; [| done].
      injection E as <-. simpl. specialize (IH j eq_refl). lia.
    + injection E as <-. simpl. lia.
  - rewrite <- (nan_index_None l E).
    assert (Hne' : omap id l ≠ []).
    { intros Hnil. pose proof (nan_index_None l E) as Hlen.
      rewrite Hnil in Hlen. by destruct l. }
    pose proof (argmin_spec _ Hne') as Hmin.
    destruct (argmin (omap id l)) as [i r]. destruct Hmin as [Hi _].
    by eapply lookup_lt_Some.
Qed.

(** On the exact statistics: in the window 1 .. 8, 10 of side three
    the blocks A, B and C have the same variance, and the mean of A is
    returned; in a window of side two the block A is empty, its
    variance is nan, and nan is returned. *)
Lemma kuwahara_returns_block_mean_witness :
  ShadowFilters.kuwahara (Statistics0 := Reference.exact)
    (map Some [1; 2; 3; 4; 5; 6; 7; 8; 10]%Q) = Ok (Some 3%Q)
  /\ ShadowFilters.kuwahara (Statistics0 := Reference.exact)
       (map Some [1; 2; 3; 4]%Q) = Ok None.
Proof.
  split.
  - destruct (kuwahara_returns_block_mean (Statistics0 := Reference.exact)
                (map Some [1; 2; 3; 4; 5; 6; 7; 8; 10]%Q) 3
                argmin_ref_in_range eq_refl) as (b & Hb & ->).
    vm_compute in Hb. by injection Hb as <-.
  - destruct (kuwahara_returns_block_mean (Statistics0 := Reference.exact)
                (map Some [1; 2; 3; 4]%Q) 2 argmin_ref_in_range eq_refl)
      as (b & Hb & ->).
    vm_compute in Hb. by injection Hb as <-.
Defined.

Lemma remainder_integer (z m : Z) (x : Q) :
  0 < m -> (x == inject_Z z)%Q ->
  (ShadowFilters.remainder x (inject_Z m) == inject_Z (z mod m))%Q.
Proof.
  intros Hm Hx. unfold ShadowFilters.remainder.
  assert (Hfl : Qfloor (x / inject_Z m) = z / m).
  { rewrite (Qfloor_comp _ (z # Z.to_pos m)).
    - simpl. by rewrite Z2Pos.id.
    - rewrite Hx. unfold Qeq, Qdiv, Qmult, Qinv, inject_Z. simpl.
      destruct m as [|m|m]; try lia. simpl. lia. }
  rewrite Hfl, Hx, (Z.mod_eq z m) by lia.
  rewrite <- Z.add_opp_r, inject_Z_plus, inject_Z_opp, inject_Z_mult. ring.
Qed.

Lemma remainder_one_zero (x : Q) :
  (ShadowFilters.remainder x 1 == 0)%Q -> exists z, (x == inject_Z z)%Q.
Proof.
  unfold ShadowFilters.remainder. intros Hr. exists (Qfloor (x / 1)). lra.
Qed.

Section KuwaharaGuard.
Context {Image F : Type} `{!GenericFilter Image F} `{!Statistics F}.

(** X12.  [kuwahara_filter] reaches [generic_filter] exactly for the odd
    integers [tsize >= 3].  A [tsize] that is no integer fails with
    'please provide square kernel', an even one with 'kernel dimension
    should be odd', and an odd one below three, such as 1, with 'kernel
    should be big enough'. *)
Theorem kuwahara_filter_kernel_sizes (I : Image) (tsize : Q) :
  ((forall z : Z, ~ (tsize == inject_Z z)%Q) ->
     ShadowFilters.kuwahara_filter I tsize
     = Raise (AssertionError "please provide square kernel"))
  /\ (forall k : Z, (tsize == inject_Z (2 * k))%Q ->
        ShadowFilters.kuwahara_filter I tsize
        = Raise (AssertionError "kernel dimension should be odd"))
  /\ (forall k : Z, (tsize == inject_Z (2 * k + 1))%Q -> k < 1 ->
        ShadowFilters.kuwahara_filter I tsize
        = Raise (AssertionError "kernel should be big enough"))
  /\ (forall k : Z, (tsize == inject_Z (2 * k + 1))%Q -> 1 <= k ->
        ShadowFilters.kuwahara_filter I tsize
        = generic_filter I ShadowFilters.kuwahara tsize).
Proof.
  assert (Hint : forall z, (tsize == inject_Z z)%Q ->
            Qeq_bool (ShadowFilters.remainder tsize 1) 0 = true).
  { intros z Hz. apply Qeq_bool_iff.
    rewrite (remainder_integer z 1 tsize) by (done || lia).
    by rewrite Z.mod_1_r. }
  assert (Hodd : forall z, (tsize == inject_Z z)%Q ->
            Qeq_bool (ShadowFilters.remainder (tsize - 1) 2) 0
            = Z.even (z - 1)).
  { intros z Hz.
    assert (Hr : (ShadowFilters.remainder (tsize - 1) (inject_Z 2)
                  == inject_Z ((z - 1) mod 2))%Q).
    { apply remainder_integer; [lia |].
      rewrite Hz, <- Z.add_opp_r, inject_Z_plus, inject_Z_opp. reflexivity. }
    change (inject_Z 2) with 2%Q in Hr.
    rewrite Zmod_even in Hr.
    destruct (Z.even (z - 1)).
    - apply Qeq_bool_iff. by rewrite Hr.
    - destruct (Qeq_bool (ShadowFilters.remainder (tsize - 1) 2) 0) eqn:E;
        [| done].
      apply Qeq_bool_iff in E. rewrite Hr in E. discriminate. }
  unfold ShadowFilters.kuwahara_filter. repeat split.
  - intros Hno.
    destruct (Qeq_bool (ShadowFilters.remainder tsize 1) 0) eqn:E; [| done].
    apply Qeq_bool_iff, remainder_one_zero in E as [z Hz]. by destruct (Hno z).
  - intros k Hk. rewrite (Hint _ Hk), (Hodd _ Hk). simpl.
    replace (Z.even (2 * k - 1)) with false; [done |].
    symmetry. rewrite <- Z.negb_odd. apply negb_false_iff, Z.odd_spec.
    exists (k - 1). lia.
  - intros k Hk Hlt. rewrite (Hint _ Hk), (Hodd _ Hk). simpl.
    replace (Z.even (2 * k + 1 - 1)) with true
      by (symmetry; apply Z.even_spec; exists k; lia).
    simpl. destruct (Qle_bool 3 tsize) eqn:E; [| done].
    apply Qle_bool_iff in E. rewrite Hk in E.
    change 3%Q with (inject_Z 3) in E. rewrite <- Zle_Qle in E. lia.
  - intros k Hk Hge. rewrite (Hint _ Hk), (Hodd _ Hk). simpl.
    replace (Z.even (2 * k + 1 - 1)) with true
      by (symmetry; apply Z.even_spec; exists k; lia).
    simpl. destruct (Qle_bool 3 tsize) eqn:E; [done |].
    exfalso. apply not_true_iff_false in E. apply E, Qle_bool_iff.
    rewrite Hk. change 3%Q with (inject_Z 3). rewrite <- Zle_Qle. lia.
Qed.

End KuwaharaGuard.

Section L0Loop.
Context {Image : Type} `{!L0Numerics Image}.

Lemma Qeq_bool_positive (x : Q) : (0 < x)%Q -> Qeq_bool x 0 = false.
Proof.
  intros Hx. destruct (Qeq_bool x 0) eqn:E; [| done].
  apply Qeq_bool_iff in E. lra.
Qed.

(** With [kappa] equal to one, [beta] stays what it is. *)
Lemma L0_loop_hangs (fuel : nat) (I0 I : Image) (lamb kappa beta_max beta : Q) :
  (kappa == 1)%Q -> (0 < beta)%Q -> (beta < beta_max)%Q ->
  ShadowFilters.L0_loop fuel I0 I lamb kappa beta_max beta = None.
Proof.
  intros Hk. revert I beta. induction fuel as [|fuel IH]; intros I beta Hb Hlt;
    [done |].
  simpl. apply Qltb_lt in Hlt as Hlt'.
  rewrite Hlt', (Qeq_bool_positive _ Hb). apply IH; rewrite Hk; lra.
Qed.

(** X13.  Three calls of [L0_smoothing] on Python numbers that give no
    image.  With [lamb] zero and [beta_max] positive, [beta] starts at
    zero and the first turn of the loop raises [ZeroDivisionError] at
    [lamb/beta].  With [kappa] zero, [lamb] positive and
    [2 lamb < beta_max], the first turn sets [beta] to zero and the
    second turn raises [ZeroDivisionError].  With [kappa] one, [lamb]
    positive and [2 lamb < beta_max], [beta] stays at [2 lamb] and the
    function is still running at every bound. *)
Theorem L0_smoothing_without_result (I : Image) (lamb kappa beta_max : Q) :
  ((lamb == 0)%Q -> (0 < beta_max)%Q ->
     forall fuel, (1 <= fuel)%nat ->
       ShadowFilters.L0_smoothing fuel I lamb kappa beta_max
       = Some (Raise ZeroDivisionError))
  /\ ((kappa == 0)%Q -> (0 < lamb)%Q -> (2 * lamb < beta_max)%Q ->
      forall fuel, (2 <= fuel)%nat ->
        ShadowFilters.L0_smoothing fuel I lamb kappa beta_max
        = Some (Raise ZeroDivisionError))
  /\ ((kappa == 1)%Q -> (0 < lamb)%Q -> (2 * lamb < beta_max)%Q ->
      forall fuel,
        ShadowFilters.L0_smoothing fuel I lamb kappa beta_max = None).
Proof.
  unfold ShadowFilters.L0_smoothing. split; [| split].
  - intros Hl Hmax [|fuel] Hf; [lia |]. simpl.
    assert (Hlt : Qltb (2 * lamb) beta_max = true) by (apply Qltb_lt; lra).
    assert (Hz : Qeq_bool (2 * lamb) 0 = true) by (apply Qeq_bool_iff; lra).
    by rewrite Hlt, Hz.
  - intros Hk Hl Hmax [|[|fuel]] Hf; [lia | lia |]. simpl.
    assert (Hlt : Qltb (2 * lamb) beta_max = true) by (by apply Qltb_lt).
    assert (Hlt' : Qltb (2 * lamb * kappa) beta_max = true).
    { apply Qltb_lt. rewrite Hk. lra. }
    assert (Hz : Qeq_bool (2 * lamb * kappa) 0 = true).
    { apply Qeq_bool_iff. rewrite Hk. ring. }
    by rewrite Hlt, (Qeq_bool_positive (2 * lamb)), Hlt', Hz by lra.
  - intros Hk Hl Hmax fuel. apply L0_loop_hangs; [done | lra | done].
Qed.

(** [beta] grows at least linearly in the number of turns. *)
Lemma beta_bernoulli (n : nat) (kappa beta : Q) :
  (1 < kappa)%Q -> (0 < beta)%Q ->
  (beta * (1 + inject_Z (Z.of_nat n) * (kappa - 1))
   <= Nat.iter n (fun b => b * kappa) beta)%Q.
Proof.
  intros Hk Hb. induction n as [|n IH].
  - simpl. change (inject_Z (Z.of_nat 0)) with 0%Q. lra.
  - rewrite Nat2Z.inj_succ, <- Z.add_1_r, inject_Z_plus.
    change (inject_Z 1) with 1%Q. simpl.
    set (x := inject_Z (Z.of_nat n)) in *.
    set (b := Nat.iter n _ beta) in *.
    assert (Hx : (0 <= x)%Q).
    { unfold x. change 0%Q with (inject_Z 0). rewrite <- Zle_Qle. lia. }
    assert (H1 : (beta * (1 + x * (kappa - 1)) * kappa <= b * kappa)%Q)
      by (apply Qmult_le_compat_r; lra).
    assert (H2 : (0 <= beta * x * ((kappa - 1) * (kappa - 1)))%Q).
    { apply Qmult_le_0_compat; [apply Qmult_le_0_compat; lra |].
      apply Qmult_le_0_compat; lra. }
    lra.
Qed.

Lemma beta_reaches (kappa beta beta_max : Q) :
  (1 < kappa)%Q -> (0 < beta)%Q ->
  exists n, (beta_max <= Nat.iter n (fun b => b * kappa) beta)%Q.
Proof.
  intros Hk Hb.
  set (c := ((beta_max / beta - 1) / (kappa - 1))%Q).
  exists (Z.to_nat (Qceiling c)).
  eapply Qle_trans; [| by apply beta_bernoulli].
  assert (Hc : (c <= inject_Z (Z.of_nat (Z.to_nat (Qceiling c))))%Q).
  { eapply Qle_trans; [apply Qle_ceiling |]. rewrite <- Zle_Qle. lia. }
  set (x := inject_Z _) in *.
  assert (Hbm : (beta_max == beta * (1 + c * (kappa - 1)))%Q).
  { unfold c. field. split; lra. }
  rewrite Hbm.
  assert (H1 : (c * (kappa - 1) <= x * (kappa - 1))%Q)
    by (apply Qmult_le_compat_r; lra).
  apply Qmult_le_l; [done | lra].
Qed.

Lemma iter_shift (n : nat) (kappa beta : Q) :
  Nat.iter n (fun b => (b * kappa)%Q) (beta * kappa)%Q
  = (Nat.iter (S n) (fun b => (b * kappa)%Q) beta).
Proof. induction n as [|n IH]; [done |]. simpl in *. by rewrite IH. Qed.

(** The loop leaves at the first turn at which [beta] has reached
    [beta_max]. *)
Lemma L0_loop_runs (n : nat) (I0 : Image) (lamb kappa beta_max : Q) :
  (0 < kappa)%Q ->
  forall (I : Image) (beta : Q),
  (0 < beta)%Q ->
  (forall j, (j < n)%nat ->
     (Nat.iter j (fun b => b * kappa) beta < beta_max)%Q) ->
  (beta_max <= Nat.iter n (fun b => b * kappa) beta)%Q ->
  exists img,
    (forall fuel, (n < fuel)%nat ->
       ShadowFilters.L0_loop fuel I0 I lamb kappa beta_max beta
       = Some (Ok img))
    /\ (forall fuel, (fuel <= n)%nat ->
          ShadowFilters.L0_loop fuel I0 I lamb kappa beta_max beta = None).
Proof.
  intros Hk. induction n as [|n IH]; intros I beta Hpos Hbelow Hreach.
  - exists I. split.
    + intros [|fuel] Hf; [lia |]. simpl in *.
      apply Qltb_ge in Hreach. by rewrite Hreach.
    + intros fuel Hf. by replace fuel with 0%nat by lia.
  - destruct (IH (l0_update I0 I lamb beta) (beta * kappa)%Q)
      as (img & H1 & H2).
    + by apply Qmult_lt_0_compat.
    + intros j Hj. rewrite iter_shift. apply Hbelow. lia.
    + by rewrite iter_shift.
    + assert (Hlt : Qltb beta beta_max = true).
      { apply Qltb_lt. apply (Hbelow 0%nat). lia. }
      exists img. split.
      * intros [|fuel] Hf; [lia |]. simpl.
        rewrite Hlt, (Qeq_bool_positive _ Hpos). apply H1. lia.
      * intros [|fuel] Hf; [done |]. simpl.
        rewrite Hlt, (Qeq_bool_positive _ Hpos). apply H2. lia.
Qed.

Lemma first_reach (kappa beta beta_max : Q) (N : nat) :
  (beta_max <= Nat.iter N (fun b => b * kappa) beta)%Q ->
  exists n, (n <= N)%nat
    /\ (beta_max <= Nat.iter n (fun b => b * kappa) beta)%Q
    /\ forall j, (j < n)%nat ->
         (Nat.iter j (fun b => b * kappa) beta < beta_max)%Q.
Proof.
  set (b := fun j => Nat.iter j (fun b => (b * kappa)%Q) beta).
  assert (Hall : forall M,
            (forall j, (j < M)%nat -> (b j < beta_max)%Q)
            \/ exists n, (n < M)%nat /\ (beta_max <= b n)%Q
                 /\ forall j, (j < n)%nat -> (b j < beta_max)%Q).
  { induction M as [|M [Hbelow | (n & Hn & Hr & Hb)]].
    - left. intros j Hj. lia.
    - destruct (Qlt_le_dec (b M) beta_max) as [Hlt | Hle].
      + left. intros j Hj.
        destruct (decide (j = M)) as [-> | Hne]; [done |].
        apply Hbelow. lia.
      + right. exists M. repeat split; [lia | done | done].
    - right. exists n. repeat split; [lia | done | done]. }
  intros HN. destruct (Hall N) as [Hbelow | (n & Hn & Hr & Hb)].
  - exists N. repeat split; done.
  - exists n. repeat split; [lia | done | done].
Qed.

(** X14.  For [lamb > 0] and [kappa > 1] the loop of [L0_smoothing]
    ends: there is a number [n] of turns, the first at which
    [2 lamb kappa^n] has reached [beta_max], such that the function
    returns the same image for every bound above [n] and is still
    running at every bound up to [n]. *)
Theorem L0_smoothing_returns (I : Image) (lamb kappa beta_max : Q) :
  (0 < lamb)%Q -> (1 < kappa)%Q ->
  exists n img,
    (beta_max <= Nat.iter n (fun b => b * kappa) (2 * lamb))%Q
    /\ (forall j, (j < n)%nat ->
          (Nat.iter j (fun b => b * kappa) (2 * lamb) < beta_max)%Q)
    /\ (forall fuel, (n < fuel)%nat ->
          ShadowFilters.L0_smoothing fuel I lamb kappa beta_max
          = Some (Ok img))
    /\ (forall fuel, (fuel <= n)%nat ->
          ShadowFilters.L0_smoothing fuel I lamb kappa beta_max = None).
Proof.
  intros Hl Hk.
  destruct (beta_reaches kappa (2 * lamb) beta_max Hk ltac:(lra)) as [N HN].
  destruct (first_reach _ _ _ _ HN) as (n & _ & Hr & Hb).
  destruct (L0_loop_runs n (perdecomp I) lamb kappa beta_max ltac:(lra)
              (perdecomp I) (2 * lamb)%Q ltac:(lra) Hb Hr)
    as (img & H1 & H2).
  exists n, img. by repeat split.
Qed.

End L0Loop.

(** On one window, the numbers 1 to 9, with the exact statistics. *)
Lemma kuwahara_filter_kernel_sizes_witness :
  ShadowFilters.kuwahara_filter (GenericFilter0 := Reference.one_window)
      (Statistics0 := Reference.exact) [1; 2; 3; 4; 5; 6; 7; 8; 9]%Q 4
    = Raise (AssertionError "kernel dimension should be odd")
  /\ ShadowFilters.kuwahara_filter (GenericFilter0 := Reference.one_window)
       (Statistics0 := Reference.exact) [1; 2; 3; 4; 5; 6; 7; 8; 9]%Q 1
     = Raise (AssertionError "kernel should be big enough")
  /\ ShadowFilters.kuwahara_filter (GenericFilter0 := Reference.one_window)
       (Statistics0 := Reference.exact) [1; 2; 3; 4; 5; 6; 7; 8; 9]%Q (5 # 2)
     = Raise (AssertionError "please provide square kernel")
  /\ exists v,
       ShadowFilters.kuwahara_filter (GenericFilter0 := Reference.one_window)
         (Statistics0 := Reference.exact) [1; 2; 3; 4; 5; 6; 7; 8; 9]%Q 3
       = Ok [v]
       /\ (v == 3)%Q.
Proof.
  split; [| split; [| split]].
  - destruct (kuwahara_filter_kernel_sizes
                (GenericFilter0 := Reference.one_window)
                (Statistics0 := Reference.exact)
                [1; 2; 3; 4; 5; 6; 7; 8; 9]%Q 4) as (_ & Heven & _).
    by apply (Heven 2).
  - destruct (kuwahara_filter_kernel_sizes
                (GenericFilter0 := Reference.one_window)
                (Statistics0 := Reference.exact)
                [1; 2; 3; 4; 5; 6; 7; 8; 9]%Q 1) as (_ & _ & Hsmall & _).
    by apply (Hsmall 0).
  - destruct (kuwahara_filter_kernel_sizes
                (GenericFilter0 := Reference.one_window)
                (Statistics0 := Reference.exact)
                [1; 2; 3; 4; 5; 6; 7; 8; 9]%Q (5 # 2)) as (Hfrac & _).
    apply Hfrac. intros z. unfold Qeq. simpl. lia.
  - destruct (kuwahara_filter_kernel_sizes
                (GenericFilter0 := Reference.one_window)
                (Statistics0 := Reference.exact)
                [1; 2; 3; 4; 5; 6; 7; 8; 9]%Q 3) as (_ & _ & _ & Hodd).
    eexists. rewrite (Hodd 1) by (reflexivity || lia).
    split; [vm_compute; reflexivity | reflexivity].
Defined.

Lemma L0_smoothing_returns_witness :
  exists n img,
    (100000 <= Nat.iter n (fun b => b * 2) (2 * (2 # 100)))%Q
    /\ (forall j, (j < n)%nat ->
          (Nat.iter j (fun b => b * 2) (2 * (2 # 100)) < 100000)%Q)
    /\ (forall fuel, (n < fuel)%nat ->
          ShadowFilters.L0_smoothing (L0Numerics0 := Reference.stepping)
            fuel 0%nat (2 # 100) 2 100000 = Some (Ok img))
    /\ (forall fuel, (fuel <= n)%nat ->
          ShadowFilters.L0_smoothing (L0Numerics0 := Reference.stepping)
            fuel 0%nat (2 # 100) 2 100000 = None).
Proof.
  apply (L0_smoothing_returns (L0Numerics0 := Reference.stepping));
    reflexivity.
Defined.

Lemma L0_default_turns :
  ShadowFilters.L0_smoothing (L0Numerics0 := Reference.stepping) 23 0%nat
    (2 # 100) 2 100000 = Some (Ok 22%nat)
  /\ ShadowFilters.L0_smoothing (L0Numerics0 := Reference.stepping) 22 0%nat
       (2 # 100) 2 100000 = None.
Proof. split; vm_compute; reflexivity. Qed.

Lemma L0_smoothing_without_result_witness :
  ShadowFilters.L0_smoothing (L0Numerics0 := Reference.stepping) 5 0%nat
    0 2 100000 = Some (Raise ZeroDivisionError)
  /\ ShadowFilters.L0_smoothing (L0Numerics0 := Reference.stepping) 5 0%nat
       (2 # 100) 0 100000 = Some (Raise ZeroDivisionError)
  /\ ShadowFilters.L0_smoothing (L0Numerics0 := Reference.stepping) 1000 0%nat
       (2 # 100) 1 100000 = None.
Proof.
  destruct (L0_smoothing_without_result (L0Numerics0 := Reference.stepping)
              0%nat 0 2 100000) as (Hlamb & _ & _).
  destruct (L0_smoothing_without_result (L0Numerics0 := Reference.stepping)
              0%nat (2 # 100) 0 100000) as (_ & Hkappa & _).
  destruct (L0_smoothing_without_result (L0Numerics0 := Reference.stepping)
              0%nat (2 # 100) 1 100000) as (_ & _ & Hone).
  split; [| split].
  - apply Hlamb; [reflexivity | reflexivity | lia].
  - apply Hkappa; [reflexivity | reflexivity | reflexivity | lia].
  - apply Hone; reflexivity.
Defined.

Section DiffusionFrame.
Context `{Diffusion}.

Lemma iadd_inner_frame (I_new upd out : list (list Q)) :
  ShadowFilters.iadd_inner I_new upd = Ok out ->
  length out = length I_new
  /\ (forall i, length <$> out !! i = length <$> I_new !! i)
  /\ (forall i j,
        i = 0 \/ i = Z.of_nat (length I_new) - 1
        \/ j = 0 \/ j = Z.of_nat (length (hd [] I_new)) - 1 ->
        Np.get2 out i j = Np.get2 I_new i j).
Proof.
  unfold ShadowFilters.iadd_inner, Np.shape2.
  destruct (_ ≫= _) as [u|]; [| done]. intros [= <-].
  split; [apply length_imap |]. split.
  - intros i. rewrite list_lookup_imap.
    destruct (I_new !! i) as [row|]; [| done]. simpl.
    destruct (_ && _); [| done]. by rewrite length_imap.
  - intros i j Hij. unfold Np.get2.
    destruct (i <? 0) eqn:Ei; [done |]. destruct (j <? 0) eqn:Ej; [done |].
    apply Z.ltb_ge in Ei, Ej. simpl. rewrite list_lookup_imap.
    destruct (I_new !! Z.to_nat i) as [row|]; [| done]. simpl.
    rewrite Z2Nat.id by done.
    destruct ((1 <=? i) && (i <? Z.of_nat (length I_new) - 1)) eqn:Erow;
      [| done].
    apply andb_true_iff in Erow as [E1 E2].
    apply Z.leb_le in E1. apply Z.ltb_lt in E2.
    rewrite list_lookup_imap.
    destruct (row !! Z.to_nat j) as [x|]; [| done]. simpl.
    rewrite Z2Nat.id by done.
    destruct ((1 <=? j) && (j <? Z.of_nat (length (hd [] I_new)) - 1))
      eqn:Ecol; [| done].
    apply andb_true_iff in Ecol as [E3 E4].
    apply Z.leb_le in E3. apply Z.ltb_lt in E4. lia.
Qed.

Lemma hd_length_lookup (a b : list (list Q)) :
  (forall i, length <$> a !! i = length <$> b !! i) ->
  length a = length b ->
  length (hd [] a) = length (hd [] b).
Proof.
  intros Hrows Hlen. specialize (Hrows 0%nat).
  destruct a as [|ra a], b as [|rb b]; try done.
  simpl in Hrows. by injection Hrows.
Qed.

(** X16.  With [n] zero, [anistropic_diffusion_scalar] raises
    [ZeroDivisionError]; with [n] other than zero and [iter <= 0] it
    returns [I] itself.  Whenever it returns, the result has the rows
    of [I], each of its length, and the first and last row and the
    first and last column hold the values they hold in [I]. *)
Theorem anistropic_diffusion_keeps_border (I : list (list Q)) (iter : Z)
    (K s n : Q) :
  ((n == 0)%Q ->
     ShadowFilters.anistropic_diffusion_scalar I iter K s n
     = Raise ZeroDivisionError)
  /\ (~ (n == 0)%Q -> iter <= 0 ->
      ShadowFilters.anistropic_diffusion_scalar I iter K s n = Ok I)
  /\ forall out,
       ShadowFilters.anistropic_diffusion_scalar I iter K s n = Ok out ->
       length out = length I
       /\ (forall i, length <$> out !! i = length <$> I !! i)
       /\ (forall i j,
             i = 0 \/ i = Z.of_nat (length I) - 1
             \/ j = 0 \/ j = Z.of_nat (length (hd [] I)) - 1 ->
             Np.get2 out i j = Np.get2 I i j).
Proof.
  unfold ShadowFilters.anistropic_diffusion_scalar.
  destruct (Qeq_bool n 0) eqn:En.
  { apply Qeq_bool_iff in En. by repeat split. }
  assert (Hn : ~ (n == 0)%Q).
  { intros Hz. apply Qeq_bool_iff in Hz. congruence. }
  split; [done |]. split.
  - intros _ Hiter. pose proof (length_arange 0 iter) as Hlen.
    destruct (Np.arange 0 iter); [done | simpl in Hlen; lia].
  - intros out.
    apply (foldM_invariant
             (fun I' =>
                length I' = length I
                /\ (forall i, length <$> I' !! i = length <$> I !! i)
                /\ (forall i j,
                      i = 0 \/ i = Z.of_nat (length I) - 1
                      \/ j = 0 \/ j = Z.of_nat (length (hd [] I)) - 1 ->
                      Np.get2 I' i j = Np.get2 I i j))); [| done].
    intros I1 _ I2 _ (Hlen & Hrows & Hborder).
    destruct (diffusion_update I1 K n) as [upd|e]; simpl; [| done].
    intros Hadd. apply iadd_inner_frame in Hadd as (Hlen' & Hrows' & Hborder').
    split; [congruence |]. split.
    + intros i. by rewrite Hrows', Hrows.
    + intros i j Hij. rewrite Hborder'; [by apply Hborder |].
      by rewrite Hlen, (hd_length_lookup I1 I).
Qed.

End DiffusionFrame.

Lemma anistropic_diffusion_keeps_border_witness :
  ShadowFilters.anistropic_diffusion_scalar (H := Reference.unit_update)
    [[1; 2; 3]; [4; 5; 6]; [7; 8; 9]]%Q 2 (15 # 100) (25 # 100) 0
  = Raise ZeroDivisionError
  /\ exists out,
    ShadowFilters.anistropic_diffusion_scalar (H := Reference.unit_update)
      [[1; 2; 3]; [4; 5; 6]; [7; 8; 9]]%Q 2 (15 # 100) (25 # 100) 4 = Ok out
    /\ Np.get2 out 0 1 = Some 2%Q /\ Np.get2 out 1 0 = Some 4%Q
    /\ Np.get2 out 2 2 = Some 9%Q
    /\ exists c, Np.get2 out 1 1 = Some c /\ (c == 11 # 2)%Q.
Proof.
  split.
  { by apply (anistropic_diffusion_keeps_border (H := Reference.unit_update)
                [[1; 2; 3]; [4; 5; 6]; [7; 8; 9]]%Q 2 (15 # 100) (25 # 100)
                0). }
  destruct (anistropic_diffusion_keeps_border (H := Reference.unit_update)
              [[1; 2; 3]; [4; 5; 6]; [7; 8; 9]]%Q 2 (15 # 100) (25 # 100) 4)
    as (_ & _ & Hborder).
  eexists. split; [vm_compute; reflexivity |].
  match goal with
  | |- Np.get2 ?out 0 1 = _ /\ _ =>
      destruct (Hborder out) as (_ & _ & Hb); [vm_compute; reflexivity |]
  end.
  rewrite (Hb 0 1), (Hb 1 0), (Hb 2 2) by (simpl; lia).
  repeat split. by eexists.
Defined.

(** ** The optical-flow estimators *)

Section PointListFlow.
Context {Image : Type} `{!LucasKanade Image}.

Lemma flow_step_point (I1 I2 : Image) window_size sigma sampleI sampleJ
    (st : flow_state) (iIdx : nat) (iIm jIm : Z) :
  ndim sampleI <= 1 ->
  flat sampleI !! iIdx = Some iIm -> flat sampleJ !! iIdx = Some jIm ->
  flow_step I1 I2 window_size sigma sampleI sampleJ st iIdx
  = Ok (match window_flow I1 I2 window_size sigma iIm jIm with
        | Some (nu, epsilon) =>
            (PyNum nu.2, PyNum nu.1, PyNum epsilon.2, PyNum epsilon.1)
        | None => st
        end).
Proof.
  intros Hdim Hi Hj. unfold flow_step. destruct st as [[[U V] E1] E2].
  rewrite Hi, Hj.
  destruct (window_flow _ _ _ _ _ _) as [[nu epsilon]|]; [| done].
  destruct (1 <? ndim sampleI) eqn:E; [apply Z.ltb_lt in E; lia | done].
Qed.

Lemma flow_points_fold (I1 I2 : Image) window_size sigma sampleI sampleJ
    (n : nat) :
  ndim sampleI <= 1 ->
  (n <= length (flat sampleI))%nat ->
  (n <= length (flat sampleJ))%nat ->
  fold_left (fun r iIdx =>
               st ← r;
               flow_step I1 I2 window_size sigma sampleI sampleJ st iIdx)
            (seq 0 n) (Ok (PyNum 0, PyNum 0, PyNum 0, PyNum 0))
  = Ok (match last (omap (fun ij : Z * Z =>
                             window_flow I1 I2 window_size sigma ij.1 ij.2)
                          (take n (zip (flat sampleI) (flat sampleJ)))) with
        | Some (nu, epsilon) =>
            (PyNum nu.2, PyNum nu.1, PyNum epsilon.2, PyNum epsilon.1)
        | None => (PyNum 0, PyNum 0, PyNum 0, PyNum 0)
        end).
Proof.
  intros Hdim. induction n as [|n IH]; intros Hn Hm; [done |].
  rewrite seq_S, fold_left_app, IH by lia. simpl.
  destruct (lookup_lt_is_Some_2 (flat sampleI) n) as [iIm Hi]; [lia |].
  destruct (lookup_lt_is_Some_2 (flat sampleJ) n) as [jIm Hj]; [lia |].
  rewrite (flow_step_point _ _ _ _ _ _ _ _ iIm jIm) by done.
  assert (Hz : zip (flat sampleI) (flat sampleJ) !! n = Some (iIm, jIm)).
  { apply lookup_zip_with_Some. by exists iIm, jIm. }
  rewrite (take_S_r _ _ _ Hz), omap_app. simpl.
  destruct (window_flow _ _ _ _ _ _) as [[nu epsilon]|]; simpl.
  - by rewrite last_snoc.
  - by rewrite app_nil_r.
Qed.

Lemma flat_as_array (s : samples) : flat (as_array s) = flat s.
Proof. by destruct s. Qed.

Lemma ndim_as_array (s : samples) : ndim s <= 1 -> ndim (as_array s) <= 1.
Proof. destruct s; simpl; lia. Qed.

(** X17.  For a single sample point or a one-dimensional array of
    sample points, [simple_optical_flow] returns four numbers: the
    estimate of the last sample whose window is not flat, as
    [(nu[1], nu[0], epsilon[1], epsilon[0])], or four zeros when every
    window is flat.  When [sampleJ] holds fewer points than [sampleI],
    it raises [IndexError]. *)
Theorem point_list_flow_keeps_last_estimate (I1 I2 : Image)
    (window_size : Z) (sampleI sampleJ : samples) (sigma : Q) :
  ndim sampleI <= 1 ->
  ((length (flat sampleI) <= length (flat sampleJ))%nat ->
   simple_optical_flow I1 I2 window_size sampleI sampleJ sigma
   = Ok (match last (omap (fun ij : Z * Z =>
                              window_flow I1 I2 window_size sigma ij.1 ij.2)
                           (zip (flat sampleI) (flat sampleJ))) with
         | Some (nu, epsilon) =>
             (PyNum nu.2, PyNum nu.1, PyNum epsilon.2, PyNum epsilon.1)
         | None => (PyNum 0, PyNum 0, PyNum 0, PyNum 0)
         end))
  /\ ((length (flat sampleJ) < length (flat sampleI))%nat ->
      simple_optical_flow I1 I2 window_size sampleI sampleJ sigma
      = Raise IndexError).
Proof.
  intros Hdim. apply ndim_as_array in Hdim as Hdim'.
  assert (Hinit : flow_init (as_array sampleI) (as_array sampleJ)
                  = (PyNum 0, PyNum 0, PyNum 0, PyNum 0)).
  { unfold flow_init.
    destruct (1 <? ndim (as_array sampleI)) eqn:E;
      [apply Z.ltb_lt in E; lia | done]. }
  unfold simple_optical_flow. rewrite Hinit. split.
  - intros Hlen. rewrite flow_points_fold;
      rewrite ?flat_as_array; [| done | lia | lia].
    rewrite (take_ge (zip _ _)); [done |].
    rewrite length_zip_with. lia.
  - intros Hlen. set (m := length (flat sampleJ)).
    replace (length (flat (as_array sampleI)))
      with (m + S (length (flat sampleI) - S m))%nat
      by (rewrite flat_as_array; lia).
    rewrite seq_app, fold_left_app, flow_points_fold;
      rewrite ?flat_as_array; [| done | lia | lia].
    cbn [seq fold_left Nat.add].
    set (st := match last _ with Some _ => _ | None => _ end).
    assert (Hstep : flow_step I1 I2 window_size sigma (as_array sampleI)
                              (as_array sampleJ) st m = Raise IndexError).
    { unfold flow_step. destruct st as [[[U V] E1] E2].
      rewrite (lookup_ge_None_2 (flat (as_array sampleJ)) m)
        by (rewrite flat_as_array; unfold m; lia).
      by destruct (flat (as_array sampleI) !! m). }
    simpl. rewrite Hstep. apply fold_raised.
Qed.

End PointListFlow.

Lemma point_list_flow_keeps_last_estimate_witness :
  simple_optical_flow (LucasKanade0 := Reference.pointwise)
    [[0; 0; 0]; [0; 0; 0]; [0; 0; 0]]%Q
    [[0; 2; 0]; [0; 5; 0]; [0; 0; 0]]%Q 3
    (SArr1 [0; 1; 2]) (SArr1 [1; 1; 1]) 0
  = Ok (PyNum 0, PyNum 5, PyNum 1, PyNum 1)
  /\ simple_optical_flow (LucasKanade0 := Reference.pointwise)
       [[0; 0; 0]; [0; 0; 0]; [0; 0; 0]]%Q
       [[0; 2; 0]; [0; 5; 0]; [0; 0; 0]]%Q 3
       (SArr1 [0; 1; 2]) (SArr1 [1; 1]) 0
     = Raise IndexError.
Proof.
  split.
  - apply (point_list_flow_keeps_last_estimate
             (LucasKanade0 := Reference.pointwise)
             [[0; 0; 0]; [0; 0; 0]; [0; 0; 0]]%Q
             [[0; 2; 0]; [0; 5; 0]; [0; 0; 0]]%Q 3
             (SArr1 [0; 1; 2]) (SArr1 [1; 1; 1]) 0); simpl; lia.
  - apply (point_list_flow_keeps_last_estimate
             (LucasKanade0 := Reference.pointwise)
             [[0; 0; 0]; [0; 0; 0]; [0; 0; 0]]%Q
             [[0; 2; 0]; [0; 5; 0]; [0; 0; 0]]%Q 3
             (SArr1 [0; 1; 2]) (SArr1 [1; 1])); simpl; lia.
Defined.

Section AffineBreak.
Context {Image : Type} `{!GaussNewton Image}.

(** X18.  When the refinement of [affine_optical_flow] becomes ill-posed
    at iteration [i], before the last one, after residuals that are
    positive and do not rise, the rows of [res] and [p_stack] from [i]
    on are still zero, the first of them is the smallest residual, and
    the function returns the identity transform with zero displacement
    and zero residual: the estimates of the iterations before [i] are
    not used. *)
Theorem ill_posed_step_discards_estimates (I1 I2 : Image)
    (iteration i : nat) (st : affine_state) :
  (i < iteration)%nat ->
  affine_loop I1 I2 (seq 0 i) (affine_init iteration) = Ok st ->
  refine I1 I2 (p st) = IllPosed ->
  (forall j r prev, (j < i)%nat -> res st !! j = Some r ->
      (1000%Q :: res st) !! j = Some prev -> (0 < r)%Q /\ (r <= prev)%Q) ->
  affine_optical_flow I1 I2 iteration = Ok (0, 0, [[1; 0]; [0; 1]], 0)%Q.
Proof.
  intros Hi Hloop Hill Hres.
  assert (Hfull : affine_loop I1 I2 (seq 0 iteration) (affine_init iteration)
                  = Ok st).
  { replace iteration with (i + (iteration - i))%nat at 1 by lia.
    rewrite seq_app, affine_loop_app, Hloop. simpl.
    by apply affine_loop_ill_posed. }
  destruct (affine_loop_lengths _ _ _ _ _ Hloop) as [Hlp Hlr].
  cbn [affine_init p_stack res] in Hlp, Hlr.
  rewrite length_replicate in Hlp. rewrite length_replicate in Hlr.
  assert (Hzero : forall j, (i <= j < iteration)%nat ->
             res st !! j = Some 0%Q
             /\ p_stack st !! j = Some (replicate 6 0%Q)).
  { intros j Hj.
    destruct (affine_loop_frame _ _ _ _ _ j Hloop) as [-> ->].
    - intros Hin%elem_of_seq. lia.
    - cbn [affine_init p_stack res].
      split; apply lookup_replicate_2; lia. }
  unfold affine_optical_flow, affine_select. rewrite Hfull. simpl.
  assert (Hacc : accepted (res st) = res st).
  { destruct (accepted_descending_prefix (res st)) as (k & -> & Hk & _ & Hstop).
    apply take_ge.
    destruct (decide (k < length (res st))%nat) as [Hlt|]; [| lia].
    exfalso. destruct (Hstop Hlt) as (r & prev & Hr & Hp & Hrise).
    destruct (decide (k < i)%nat) as [Hki|Hki].
    - destruct (Hres k r prev Hki Hr Hp) as [_ Hle].
      by apply (Qlt_not_le _ _ Hrise).
    - destruct (Hzero k) as [Hk0 _]; [lia |].
      rewrite Hk0 in Hr. injection Hr as <-.
      destruct k as [|k]; simpl in Hp.
      + injection Hp as <-. by apply (Qlt_not_le _ _ Hrise).
      + destruct (decide (k < i)%nat) as [Hki'|Hki'].
        * destruct (lookup_lt_is_Some_2 (1000%Q :: res st) k) as [pp Hpp];
            [simpl; lia |].
          destruct (Hres k prev pp Hki' Hp Hpp) as [Hpos _].
          by apply (Qlt_irrefl 0), (Qlt_trans _ prev).
        * destruct (Hzero k) as [Hk1 _]; [lia |].
          rewrite Hk1 in Hp. injection Hp as <-. by apply (Qlt_irrefl 0). }
  rewrite Hacc.
  destruct (res st) as [|r0 rest] eqn:Er; [simpl in Hlr; lia |].
  rewrite <- Er in *.
  assert (Hne : res st ≠ []) by (rewrite Er; done).
  pose proof (argmin_spec (res st) Hne) as Hmin.
  destruct (argmin (res st)) as [b r]. destruct Hmin as (Hb & Hmin & Hfirst).
  destruct (Hzero i) as [Hi0 _]; [lia |].
  assert (Hbi : (i <= b)%nat).
  { destruct (decide (i <= b)%nat) as [|Hlt]; [done | exfalso].
    destruct (lookup_lt_is_Some_2 (1000%Q :: res st) b) as [pp Hpp];
      [simpl; lia |].
    destruct (Hres b r pp ltac:(lia) Hb Hpp) as [Hpos _].
    apply (Qlt_not_le _ _ Hpos). apply Hmin.
    by eapply list_elem_of_lookup_2. }
  destruct (Hzero b) as [Hb0 Hrow].
  { split; [done |]. rewrite <- Hlr. by eapply lookup_lt_Some. }
  rewrite Hb0 in Hb. injection Hb as <-.
  by rewrite (nth_lookup_Some _ _ _ _ Hrow).
Qed.

(** X19.  Whenever [affine_optical_flow] returns, the fourth component
    [snr], the residual of the selected iteration, is at most [1e3]. *)
Theorem affine_residual_at_most_1000 (I1 I2 : Image) (iteration : nat)
    (u v snr : Q) (A : list (list Q)) :
  affine_optical_flow I1 I2 iteration = Ok (u, v, A, snr) ->
  (snr <= 1000)%Q.
Proof.
  unfold affine_optical_flow, affine_select.
  destruct (affine_loop _ _ _ _) as [st|e]; simpl; [| done].
  destruct (accepted (res st)) as [|x acc] eqn:Eacc.
  - by intros [= _ _ _ <-].
  - pose proof (argmin_spec (x :: acc) ltac:(done)) as Hmin.
    destruct (argmin (x :: acc)) as [b r]. destruct Hmin as (_ & Hmin & _).
    unfold from_row. destruct (Qeq_bool _ 0); [done |].
    intros [= _ _ _ <-].
    apply (Qle_trans _ x); [apply Hmin; left |].
    destruct (accepted_descending_prefix (res st)) as (k & Hk & _ & Hdesc & _).
    rewrite Eacc in Hk. destruct k as [|k]; [by rewrite take_0 in Hk |].
    destruct (res st) as [|r0 rest] eqn:Er; [done |].
    simpl in Hk. injection Hk as -> _.
    by apply (Hdesc 0%nat r0 1000%Q); [lia | |].
Qed.

End AffineBreak.

(** On the refinement that runs out of samples after two iterations
    with residuals 5 and 3, four iterations being asked for: the
    residuals end as [5; 3; 0; 0], and the identity is returned. *)
Lemma ill_posed_step_discards_estimates_witness :
  (exists st,
      affine_loop (GaussNewton0 := Reference.exhausting)
                  [5; 3]%Q [0; 0; 0; 0; 1; 0]%Q
                  (seq 0 4) (affine_init 4) = Ok st
      /\ res st = [5; 3; 0; 0]%Q)
  /\ affine_optical_flow (GaussNewton0 := Reference.exhausting)
       [5; 3]%Q [0; 0; 0; 0; 1; 0]%Q 4
     = Ok (0, 0, [[1; 0]; [0; 1]], 0)%Q.
Proof.
  split.
  - eexists. split; reflexivity.
  - eapply (ill_posed_step_discards_estimates
              (GaussNewton0 := Reference.exhausting)
              [5; 3]%Q [0; 0; 0; 0; 1; 0]%Q 4 2).
    + lia.
    + reflexivity.
    + reflexivity.
    + intros [|[|j]] r prev Hj Hr Hp; [| | lia];
        vm_compute in Hr, Hp; injection Hr as <-; injection Hp as <-;
        (split; [reflexivity | discriminate]).
Defined.

Lemma affine_residual_at_most_1000_witness :
  exists u v A snr,
    affine_optical_flow (GaussNewton0 := Reference.scripted)
      [5]%Q [0; 0; 0; 0; 1; 0]%Q 3 = Ok (u, v, A, snr)
    /\ (snr <= 1000)%Q.
Proof.
  eexists _, _, _, _. split; [vm_compute; reflexivity |].
  eapply (affine_residual_at_most_1000 (GaussNewton0 := Reference.scripted)
            [5]%Q [0; 0; 0; 0; 1; 0]%Q 3).
  vm_compute. reflexivity.
Defined.
